(** * The availability engine of the distributed file store

    A shallow embedding of [database_schema.py], of the loops of
    [replication_manager.py] and of the queue of [advanced_recovery.py],
    with the properties the design document states about them.

    Conventions of the embedding.
    - A [datetime] is a [Z]: microseconds since the epoch.  ISO strings stored
      in TEXT columns are kept as the [Z] they denote; [total_seconds()]
      compared with [s] seconds is a comparison with [seconds s].
    - Every modelled call reads the clock once (argument [now]).
    - Table rows are records, tables are lists in rowid order.
    - Python objects that are mutated while shared (the recovery records) live
      in an object store, addressed by their position in it.
    - The storage nodes are reached through [requests]; their answers are the
      fields of an [environment].  A request that a storage node sends to the
      coordinator while it serves one (the node of [storage_node.py] confirms
      an upload before it answers it) is a request of its own,
      [Naming.upload_confirm], and no part of the call that is being served. *)

From stdpp Require Import base tactics option list strings numbers sorting relations.

Local Open Scope string_scope.
Local Open Scope list_scope.
Local Open Scope Z_scope.

(** ** Helpers shared by the three source files *)

Definition seconds (s : Z) : Z := s * 1000000.

(** [list.sort(key=..., reverse=True)] and [ORDER BY ... DESC]: a stable sort
    in descending key order.  Elements with equal keys keep their order. *)
Fixpoint insert_desc {A} (key : A → Z) (x : A) (l : list A) : list A :=
  match l with
  | [] => [x]
  | y :: l' =>
      if decide (key y ≤ key x) then x :: y :: l'
      else y :: insert_desc key x l'
  end.

Definition sort_desc {A} (key : A → Z) (l : list A) : list A :=
  foldr (insert_desc key) [] l.

(** The order of a TEXT primary key under the BINARY collation: byte by
    byte, a proper prefix first. *)
Fixpoint insert_asc {A} (key : A → string) (x : A) (l : list A) : list A :=
  match l with
  | [] => [x]
  | y :: l' =>
      if String.leb (key x) (key y) then x :: y :: l'
      else y :: insert_asc key x l'
  end.

Definition sort_asc {A} (key : A → string) (l : list A) : list A :=
  foldr (insert_asc key) [] l.

(** [list.remove(x)]: drops the first occurrence (callers test membership
    first, so the [ValueError] of a missing element is never raised). *)
Fixpoint list_remove `{EqDecision A} (x : A) (l : list A) : list A :=
  match l with
  | [] => []
  | y :: l' => if decide (x = y) then l' else y :: list_remove x l'
  end.

(** Python truthiness of an optional string: [None] and [''] are falsy. *)
Definition truthy (s : option string) : bool :=
  match s with
  | None => false
  | Some s => negb (String.eqb s "")
  end.

(** ** [database_schema.py] *)

Module Schema.

Record file_row := FileRow {
  f_file_id : string;
  f_filename : string;
  f_file_size : Z;
  f_checksum : option string;
  f_upload_timestamp : Z;
  f_replication_factor : Z
}.

Record replica_row := ReplicaRow {
  r_id : Z;
  r_file_id : string;
  r_node_id : string;
  r_node_address : string;
  r_status : string;
  r_last_verified : option Z
}.

(** [n_created_at] is the column default CURRENT_TIMESTAMP: SQLite's clock,
    UTC in whole seconds. *)
Record node_row := NodeRow {
  n_node_id : string;
  n_node_address : string;
  n_status : string;
  n_available_space : Z;
  n_total_files : Z;
  n_last_heartbeat : Z;
  n_created_at : Z
}.

Record history_row := HistoryRow {
  h_id : Z;
  h_file_id : string;
  h_filename : string;
  h_file_size : Z;
  h_upload_timestamp : Z
}.

(** The four tables.  [replicas_seq] and [history_seq] are the
    AUTOINCREMENT counters: the largest id handed out so far.
    No UNIQUE index exists on [replicas(file_id, node_id)], and the
    connection never turns [PRAGMA foreign_keys] on, so the ON DELETE
    CASCADE clause of [replicas] is inert. *)
Record DFSDatabase := Database {
  files : list file_row;
  replicas : list replica_row;
  replicas_seq : Z;
  storage_nodes : list node_row;
  upload_history : list history_row;
  history_seq : Z
}.

Definition init_database : DFSDatabase :=
  Database [] [] 0 [] [] 0.

Definition set_files (fs : list file_row) (db : DFSDatabase) : DFSDatabase :=
  Database fs (replicas db) (replicas_seq db) (storage_nodes db)
           (upload_history db) (history_seq db).

Definition set_replicas (rs : list replica_row) (db : DFSDatabase) : DFSDatabase :=
  Database (files db) rs (replicas_seq db) (storage_nodes db)
           (upload_history db) (history_seq db).

Definition set_storage_nodes (ns : list node_row) (db : DFSDatabase) : DFSDatabase :=
  Database (files db) (replicas db) (replicas_seq db) ns
           (upload_history db) (history_seq db).

(** *** File operations *)

(** The integers SQLite stores.  Binding a Python int outside 64 bits as a
    parameter of a statement raises OverflowError before the statement
    runs. *)
Definition int64 (z : Z) : Prop := - 2 ^ 63 ≤ z < 2 ^ 63.

#[global] Instance int64_dec (z : Z) : Decision (int64 z).
Proof. unfold int64. apply _. Defined.

(** [create_file]: [None] is an exception, after which the transaction is
    rolled back: the OverflowError of a size or replication factor outside
    64 bits, or the IntegrityError of a duplicate primary key. *)
Definition create_file (now : Z) (file_id filename : string) (file_size : Z)
    (replication_factor : Z) (db : DFSDatabase) : option DFSDatabase :=
  if decide (int64 file_size ∧ int64 replication_factor) then
    if decide (file_id ∈ f_file_id <$> files db) then None
    else
      Some (Database
              (files db ++ [FileRow file_id filename file_size None now replication_factor])
              (replicas db) (replicas_seq db) (storage_nodes db)
              (upload_history db ++
                 [HistoryRow (history_seq db + 1) file_id filename file_size now])
              (history_seq db + 1))
  else None.

Definition get_replicas (file_id : string) (db : DFSDatabase) : list replica_row :=
  filter (λ r, r_file_id r = file_id) (replicas db).

(** [get_file]: the file row and its replicas, or [None]. *)
Definition get_file (file_id : string) (db : DFSDatabase)
    : option (file_row * list replica_row) :=
  match filter (λ f, f_file_id f = file_id) (files db) with
  | [] => None
  | f :: _ => Some (f, get_replicas file_id db)
  end.

(** One row of [list_files]: the file with its two aggregates. *)
Record file_listing := FileListing {
  l_file : file_row;
  l_replica_count : Z;
  l_active_replicas : Z
}.

Definition listing_of (db : DFSDatabase) (f : file_row) : file_listing :=
  let rs := get_replicas (f_file_id f) db in
  FileListing f (Z.of_nat (length rs))
    (Z.of_nat (length (filter (λ r, r_status r = "active") rs))).

(** The SELECT of [list_files]: GROUP BY f.file_id walks the primary key,
    so the groups come by file id; ORDER BY upload_timestamp DESC keeps rows
    with equal timestamps in that order.  A negative LIMIT is no bound, a
    negative OFFSET is none.  This is the call for a limit and an offset
    within 64 bits, as the managers make it ([list_files(limit=1000)]);
    [list_files_call] is the call for any two integers. *)
Definition list_files (limit offset : Z) (db : DFSDatabase) : list file_listing :=
  let rows :=
    listing_of db <$> sort_desc f_upload_timestamp (sort_asc f_file_id (files db)) in
  let rows := drop (Z.to_nat offset) rows in
  if decide (limit < 0) then rows else take (Z.to_nat limit) rows.

(** [list_files] with the binding of its two parameters: [None] is the
    OverflowError of a limit or an offset outside 64 bits. *)
Definition list_files_call (limit offset : Z) (db : DFSDatabase)
    : option (list file_listing) :=
  if decide (int64 limit ∧ int64 offset) then Some (list_files limit offset db)
  else None.

(** [update_file_checksum]: a plain UPDATE, whatever the stored value. *)
Definition update_file_checksum (file_id checksum : string) (db : DFSDatabase)
    : DFSDatabase :=
  set_files
    ((λ f, if decide (f_file_id f = file_id)
           then FileRow (f_file_id f) (f_filename f) (f_file_size f)
                        (Some checksum) (f_upload_timestamp f)
                        (f_replication_factor f)
           else f) <$> files db) db.

(** [delete_file]: two DELETE statements; the returned boolean is
    [cursor.rowcount > 0] of the second one, the DELETE on [replicas]. *)
Definition delete_file (file_id : string) (db : DFSDatabase)
    : DFSDatabase * bool :=
  let db1 := set_files (filter (λ f, f_file_id f ≠ file_id) (files db)) db in
  let rowcount :=
    Z.of_nat (length (filter (λ r, r_file_id r = file_id) (replicas db1))) in
  (set_replicas (filter (λ r, r_file_id r ≠ file_id) (replicas db1)) db1,
   bool_decide (rowcount > 0)).

(** *** Replica operations *)

(** [add_replica]: a plain INSERT; returns [cursor.lastrowid]. *)
Definition add_replica (file_id node_id node_address status : string)
    (db : DFSDatabase) : DFSDatabase * Z :=
  let id := replicas_seq db + 1 in
  (Database (files db)
     (replicas db ++ [ReplicaRow id file_id node_id node_address status None])
     id (storage_nodes db) (upload_history db) (history_seq db),
   id).

Definition set_status (now : Z) (status : string) (r : replica_row) : replica_row :=
  ReplicaRow (r_id r) (r_file_id r) (r_node_id r) (r_node_address r)
             status (Some now).

(** [update_replica_status]: every row of the pair gets the status and a
    fresh [last_verified]. *)
Definition update_replica_status (now : Z) (file_id node_id status : string)
    (db : DFSDatabase) : DFSDatabase :=
  set_replicas
    ((λ r, if decide (r_file_id r = file_id ∧ r_node_id r = node_id)
           then set_status now status r else r) <$> replicas db) db.

(** *** Node operations *)

Definition set_node_status (status : string) (n : node_row) : node_row :=
  NodeRow (n_node_id n) (n_node_address n) status (n_available_space n)
          (n_total_files n) (n_last_heartbeat n) (n_created_at n).

(** [register_node]: INSERT ... ON CONFLICT(node_id) DO UPDATE.  The
    heartbeat of the row is [datetime.now()]; a new row takes [created_at]
    from the column default, [created]: the clock of SQLite, a reading of its
    own. *)
Definition register_node (now created : Z) (node_id node_address : string)
    (db : DFSDatabase) : DFSDatabase :=
  if decide (node_id ∈ n_node_id <$> storage_nodes db) then
    set_storage_nodes
      ((λ n, if decide (n_node_id n = node_id)
             then NodeRow node_id node_address "active" (n_available_space n)
                          (n_total_files n) now (n_created_at n)
             else n) <$> storage_nodes db) db
  else
    set_storage_nodes
      (storage_nodes db ++ [NodeRow node_id node_address "active" 0 0 now created]) db.

(** [update_node_heartbeat]: returns [cursor.rowcount > 0]; [None] is the
    OverflowError of a space or a file count outside 64 bits, with nothing
    written. *)
Definition update_node_heartbeat (now : Z) (node_id : string)
    (available_space total_files : Z) (db : DFSDatabase)
    : option (DFSDatabase * bool) :=
  if decide (int64 available_space ∧ int64 total_files) then
    Some (set_storage_nodes
            ((λ n, if decide (n_node_id n = node_id)
                   then NodeRow (n_node_id n) (n_node_address n) "active"
                                available_space total_files now (n_created_at n)
                   else n) <$> storage_nodes db) db,
          bool_decide (node_id ∈ n_node_id <$> storage_nodes db))
  else None.

Definition mark_node_inactive (node_id : string) (db : DFSDatabase) : DFSDatabase :=
  set_storage_nodes
    ((λ n, if decide (n_node_id n = node_id)
           then set_node_status "inactive" n else n) <$> storage_nodes db) db.

(** [get_active_nodes]: the rows with status active, by available space;
    a row whose heartbeat is not fresh is left out and marked inactive. *)
Definition get_active_nodes (now : Z) (timeout_seconds : Z) (db : DFSDatabase)
    : list node_row * DFSDatabase :=
  let rows := sort_desc n_available_space
                (filter (λ n, n_status n = "active") (storage_nodes db)) in
  foldl (λ '(nodes, db) node,
           if decide (now - n_last_heartbeat node < seconds timeout_seconds)
           then (nodes ++ [node], db)
           else (nodes, mark_node_inactive (n_node_id node) db))
        ([], db) rows.

Definition get_all_nodes (db : DFSDatabase) : list node_row :=
  sort_desc n_created_at (storage_nodes db).

End Schema.

(** ** The storage nodes, seen from the coordinator *)

Record response := Response {
  status_code : Z;
  content : string
}.

(** What the coordinator cannot compute itself.  [requests_get url] and
    [requests_post url file] answer [None] when [requests] raises (timeout,
    refused connection).  [json_checksum body] is
    [response.json().get('checksum')]: [None] when decoding raises,
    [Some None] when the entry is absent or not a string.  The answer is
    all that a request leaves behind here: what a node asks of the
    coordinator while it serves the request is a call of its own (see the
    conventions above). *)
Record environment := Environment {
  requests_get : string → option response;
  requests_post : string → string → option response;
  sha256_hexdigest : string → string;
  json_checksum : string → option (option string)
}.

(** A Python slice [l[:k]]: a negative [k] counts from the end. *)
Definition slice_to {A} (k : Z) (l : list A) : list A :=
  if decide (0 ≤ k) then take (Z.to_nat k) l
  else take (length l - Z.to_nat (- k)) l.

(** ** [replication_manager.py] *)

Module Replication.
Import Schema.

Record rm_stats := RmStats {
  replications_performed : Z;
  verifications_performed : Z;
  under_replicated_files : Z;
  last_check : option Z;
  last_verification : option Z
}.

(** [ReplicationManager]: the manager holds the database handle, its
    configuration and its counters, and nothing else. *)
Record ReplicationManager := Manager {
  db : DFSDatabase;
  min_replicas : Z;
  stats : rm_stats
}.

Definition set_db (d : DFSDatabase) (m : ReplicationManager) : ReplicationManager :=
  Manager d (min_replicas m) (stats m).

Definition set_stats (s : rm_stats) (m : ReplicationManager) : ReplicationManager :=
  Manager (db m) (min_replicas m) s.

Section WithEnvironment.
Context (E : environment).

Definition _copy_file_between_nodes (file_id source_address target_address : string)
    : bool :=
  match requests_get E (source_address +:+ "/download/" +:+ file_id) with
  | None => false
  | Some response =>
      if decide (status_code response ≠ 200) then false
      else
        match requests_post E (target_address +:+ "/upload/" +:+ file_id)
                            (content response) with
        | None => false
        | Some response =>
            if decide (status_code response ≠ 200) then false else true
        end
  end.

(** The node ids of the replicas of the file whose status is active. *)
Definition existing_node_ids (replicas : list replica_row) : list string :=
  r_node_id <$> filter (λ r, r_status r = "active") replicas.

(** The candidate targets of [_replicate_file]: [available_nodes]. *)
Definition available_nodes (replicas : list replica_row)
    (active_nodes : list node_row) : list node_row :=
  filter (λ node, n_node_id node ∉ existing_node_ids replicas) active_nodes.

(** The loop that looks for a source: the address of the first active
    replica whose node is among [active_nodes]. *)
Definition find_source (replicas : list replica_row)
    (active_nodes : list node_row) : option string :=
  r_node_address <$>
    head (filter (λ r, r_status r = "active" ∧
                       r_node_id r ∈ n_node_id <$> active_nodes) replicas).

Definition replicate_to (file_id source_node : string)
    (m : ReplicationManager) (target_node : node_row) : ReplicationManager :=
  if _copy_file_between_nodes file_id source_node (n_node_address target_node)
  then
    let s := stats m in
    Manager
      (add_replica file_id (n_node_id target_node)
                   (n_node_address target_node) "active" (db m)).1
      (min_replicas m)
      (RmStats (replications_performed s + 1) (verifications_performed s)
               (under_replicated_files s) (last_check s) (last_verification s))
  else m.

Definition _replicate_file (file : file_listing) (active_nodes : list node_row)
    (m : ReplicationManager) : ReplicationManager :=
  let file_id := f_file_id (l_file file) in
  let replicas := get_replicas file_id (db m) in
  let available := available_nodes replicas active_nodes in
  match available with
  | [] => m
  | _ =>
      let source_node := find_source replicas active_nodes in
      if truthy source_node then
        let needed_replicas :=
          min_replicas m - Z.of_nat (length (existing_node_ids replicas)) in
        let target_nodes := slice_to needed_replicas available in
        foldl (replicate_to file_id (default "" source_node)) m target_nodes
      else m
  end.

Definition _check_and_replicate (now : Z) (m : ReplicationManager)
    : ReplicationManager :=
  let files := list_files 1000 0 (db m) in
  let '(active_nodes, db1) := get_active_nodes now 30 (db m) in
  let m := set_db db1 m in
  if decide (Z.of_nat (length active_nodes) < min_replicas m) then m
  else
    let under_replicated :=
      filter (λ file, l_active_replicas file < min_replicas m) files in
    let s := stats m in
    let m := set_stats
               (RmStats (replications_performed s) (verifications_performed s)
                        (Z.of_nat (length under_replicated))
                        (last_check s) (last_verification s)) m in
    foldl (λ m file, _replicate_file file active_nodes m) m under_replicated.

(** The body of the inner loop of [_verify_replicas] for one replica of
    the snapshot; the accumulator carries the database and the local
    counters [verified] and [corrupted]. *)
Definition verify_replica (now : Z) (file_id expected_checksum : string)
    (acc : DFSDatabase * (Z * Z)) (replica : replica_row)
    : DFSDatabase * (Z * Z) :=
  let '(d, (verified, corrupted)) := acc in
  if decide (r_status replica ≠ "active") then acc
  else
    match requests_get E (r_node_address replica +:+ "/verify/" +:+ file_id) with
    | None => acc
    | Some response =>
        if decide (status_code response = 200) then
          match json_checksum E (content response) with
          | None => acc
          | Some actual_checksum =>
              if decide (actual_checksum = Some expected_checksum) then
                (update_replica_status now file_id (r_node_id replica) "active" d,
                 (verified + 1, corrupted))
              else
                (update_replica_status now file_id (r_node_id replica) "corrupted" d,
                 (verified, corrupted + 1))
          end
        else acc
    end.

Definition verify_file (now : Z) (acc : DFSDatabase * (Z * Z))
    (file : file_listing) : DFSDatabase * (Z * Z) :=
  let file_id := f_file_id (l_file file) in
  let expected_checksum := f_checksum (l_file file) in
  if truthy expected_checksum then
    foldl (verify_replica now file_id (default "" expected_checksum)) acc
          (get_replicas file_id acc.1)
  else acc.

Definition _verify_replicas (now : Z) (m : ReplicationManager)
    : ReplicationManager :=
  let files := list_files 1000 0 (db m) in
  let '(d, (verified, corrupted)) := foldl (verify_file now) (db m, (0, 0)) files in
  let s := stats m in
  Manager d (min_replicas m)
    (RmStats (replications_performed s) (verifications_performed s + verified)
             (under_replicated_files s) (last_check s) (last_verification s)).

End WithEnvironment.

(** *** [HealthMonitor] *)

Record hm_stats := HmStats {
  checks_performed : Z;
  nodes_failed : Z;
  nodes_recovered : Z;
  hm_last_check : option Z
}.

Record HealthMonitor := Monitor {
  hm_db : DFSDatabase;
  failure_threshold : Z;
  hm_stats_of : hm_stats
}.

(** [_mark_node_replicas_inactive]: the body only writes a log line. *)
Definition _mark_node_replicas_inactive (node_id : string) (h : HealthMonitor)
    : HealthMonitor := h.

Definition check_node (now : Z) (h : HealthMonitor) (node : node_row)
    : HealthMonitor :=
  let node_id := n_node_id node in
  let time_diff := now - n_last_heartbeat node in
  let previous_status := n_status node in
  let s := hm_stats_of h in
  if decide (time_diff > seconds (failure_threshold h)) then
    if decide (previous_status = "active") then
      _mark_node_replicas_inactive node_id
        (Monitor (mark_node_inactive node_id (hm_db h)) (failure_threshold h)
                 (HmStats (checks_performed s) (nodes_failed s + 1)
                          (nodes_recovered s) (hm_last_check s)))
    else h
  else
    if decide (previous_status = "inactive") then
      Monitor (hm_db h) (failure_threshold h)
              (HmStats (checks_performed s) (nodes_failed s)
                       (nodes_recovered s + 1) (hm_last_check s))
    else h.

Definition _check_node_health (now : Z) (h : HealthMonitor) : HealthMonitor :=
  foldl (check_node now) h (get_all_nodes (hm_db h)).

(** One iteration of [_monitor_loop]. *)
Definition monitor_tick (now : Z) (h : HealthMonitor) : HealthMonitor :=
  let h := _check_node_health now h in
  let s := hm_stats_of h in
  Monitor (hm_db h) (failure_threshold h)
          (HmStats (checks_performed s + 1) (nodes_failed s)
                   (nodes_recovered s) (Some now)).

Definition new_monitor (d : DFSDatabase) : HealthMonitor :=
  Monitor d 30 (HmStats 0 0 0 None).

Definition new_manager (d : DFSDatabase) (min_replicas : Z) : ReplicationManager :=
  Manager d min_replicas (RmStats 0 0 0 None None).

End Replication.

(** ** [advanced_recovery.py] *)

Module Recovery.
Import Schema.

(** [RecoveryStrategy]: string constants. *)
Definition IMMEDIATE : string := "immediate".
Definition SCHEDULED : string := "scheduled".
Definition PRIORITY : string := "priority".
Definition CONSERVATIVE : string := "conservative".

Record FileRecoveryRecord := RecoveryRecord {
  file_id : string;
  filename : string;
  strategy : string;
  priority : Z;
  attempts : Z;
  max_attempts : Z;
  last_attempt : option Z;
  status : string;
  error_message : option string;
  created_at : Z
}.

(** [FileRecoveryRecord.__init__] *)
Definition new_record (now : Z) (file_id filename strategy : string)
    (priority : Z) : FileRecoveryRecord :=
  RecoveryRecord file_id filename strategy priority 0 3 None "pending" None now.

(** [record.status = ...; record.error_message = ...] *)
Definition set_outcome (status : string) (error_message : option string)
    (r : FileRecoveryRecord) : FileRecoveryRecord :=
  RecoveryRecord (file_id r) (filename r) (strategy r) (priority r)
                 (attempts r) (max_attempts r) (last_attempt r) status
                 error_message (created_at r).

(** [record.attempts += 1; record.last_attempt = datetime.now()] *)
Definition begin_attempt (now : Z) (r : FileRecoveryRecord) : FileRecoveryRecord :=
  RecoveryRecord (file_id r) (filename r) (strategy r) (priority r)
                 (attempts r + 1) (max_attempts r) (Some now) (status r)
                 (error_message r) (created_at r).

(** The counters of [self.stats].  [average_recovery_time] is a running
    mean in floating point and is left out; [total_data_recovered_mb] is
    never written. *)
Record recovery_stats := RecoveryStats {
  total_recoveries : Z;
  successful_recoveries : Z;
  failed_recoveries : Z;
  pending_recoveries : Z;
  last_recovery : option Z;
  critical_files_recovered : Z
}.

Record history_entry := HistoryEntry {
  he_file_id : string;
  he_filename : string;
  he_timestamp : Z;
  he_success : bool;
  he_recovery_time : Z;
  he_attempts : Z;
  he_priority : Z;
  he_strategy : string;
  he_error : option string
}.

(** [AdvancedRecoveryManager].  [objects] is the store of the
    [FileRecoveryRecord] objects created so far: an object is its index, a
    new object takes the next index, and [recovery_queue] holds references
    (indices).  A worker that was handed a reference mutates the same
    object the queue sees. *)
Record AdvancedRecoveryManager := RecoveryManager {
  db : DFSDatabase;
  objects : list FileRecoveryRecord;
  recovery_queue : list nat;
  stats : recovery_stats;
  recovery_history : list history_entry
}.

Definition max_concurrent_recoveries : nat := 3.
Definition retry_delay : Z := 300.
Definition max_history : nat := 100.

Definition new_recovery_manager (d : DFSDatabase) : AdvancedRecoveryManager :=
  RecoveryManager d [] [] (RecoveryStats 0 0 0 0 None 0) [].

Definition set_db (d : DFSDatabase) (m : AdvancedRecoveryManager) :=
  RecoveryManager d (objects m) (recovery_queue m) (stats m) (recovery_history m).

Definition set_object (o : nat) (r : FileRecoveryRecord)
    (m : AdvancedRecoveryManager) :=
  RecoveryManager (db m) (<[o:=r]> (objects m)) (recovery_queue m) (stats m)
                  (recovery_history m).

(** [r.priority] of the object behind a reference. *)
Definition priority_of (objs : list FileRecoveryRecord) (o : nat) : Z :=
  from_option priority 0 (objs !! o).

Definition queued_file_ids (m : AdvancedRecoveryManager) : list string :=
  omap (λ o, file_id <$> objects m !! o) (recovery_queue m).

Definition add_to_recovery_queue (now : Z) (file_id filename strategy : string)
    (priority : Z) (m : AdvancedRecoveryManager) : AdvancedRecoveryManager :=
  if decide (file_id ∈ queued_file_ids m) then m
  else
    let record := length (objects m) in
    let objs := objects m ++ [new_record now file_id filename strategy priority] in
    let queue := sort_desc (priority_of objs) (recovery_queue m ++ [record]) in
    let s := stats m in
    RecoveryManager (db m) objs queue
      (RecoveryStats (total_recoveries s) (successful_recoveries s)
                     (failed_recoveries s) (Z.of_nat (length queue))
                     (last_recovery s) (critical_files_recovered s))
      (recovery_history m).

Definition _add_to_history (now : Z) (record : FileRecoveryRecord)
    (recovery_time : Z) (success : bool) (history : list history_entry)
    : list history_entry :=
  let history_entry :=
    HistoryEntry (file_id record) (filename record) now success recovery_time
                 (attempts record) (priority record) (strategy record)
                 (if success then None else error_message record) in
  let history := history ++ [history_entry] in
  if decide (max_history < length history)%nat
  then drop (length history - max_history) history
  else history.

Definition dequeue (record : nat) (queue : list nat) : list nat :=
  if decide (record ∈ queue) then list_remove record queue else queue.

Definition _mark_recovery_successful (now : Z) (record : nat)
    (recovery_time : Z) (m : AdvancedRecoveryManager) : AdvancedRecoveryManager :=
  match objects m !! record with
  | None => m
  | Some r =>
      let r := set_outcome "success" (error_message r) r in
      let queue := dequeue record (recovery_queue m) in
      let s := stats m in
      RecoveryManager (db m) (<[record:=r]> (objects m)) queue
        (RecoveryStats (total_recoveries s + 1) (successful_recoveries s + 1)
           (failed_recoveries s) (Z.of_nat (length queue)) (Some now)
           (if decide (priority r >= 15) then critical_files_recovered s + 1
            else critical_files_recovered s))
        (_add_to_history now r recovery_time true (recovery_history m))
  end.

Definition _mark_recovery_failed (now : Z) (record : nat) (error : string)
    (m : AdvancedRecoveryManager) : AdvancedRecoveryManager :=
  match objects m !! record with
  | None => m
  | Some r =>
      let r := set_outcome "failed" (Some error) r in
      let queue := dequeue record (recovery_queue m) in
      let s := stats m in
      RecoveryManager (db m) (<[record:=r]> (objects m)) queue
        (RecoveryStats (total_recoveries s + 1) (successful_recoveries s)
           (failed_recoveries s + 1) (Z.of_nat (length queue)) (last_recovery s)
           (critical_files_recovered s))
        (_add_to_history now r 0 false (recovery_history m))
  end.

Section WithEnvironment.
Context (E : environment).

Definition _copy_file_between_nodes (file_id source_address target_address : string)
    : bool :=
  match requests_get E (source_address +:+ "/download/" +:+ file_id) with
  | None => false
  | Some response =>
      if decide (status_code response ≠ 200) then false
      else
        match requests_post E (target_address +:+ "/upload/" +:+ file_id)
                            (content response) with
        | None => false
        | Some response => bool_decide (status_code response = 200)
        end
  end.

(** One round of the loop of [_restore_from_data]. *)
Definition restore_to (file_id file_data : string)
    (acc : DFSDatabase * Z) (node : node_row) : DFSDatabase * Z :=
  match requests_post E (n_node_address node +:+ "/upload/" +:+ file_id) file_data with
  | None => acc
  | Some response =>
      if decide (status_code response = 200) then
        ((add_replica file_id (n_node_id node) (n_node_address node)
                      "active" acc.1).1,
         acc.2 + 1)
      else acc
  end.

Definition _restore_from_data (now : Z) (file_id file_data : string)
    (d : DFSDatabase) : bool * DFSDatabase :=
  let '(active_nodes, d) := get_active_nodes now 30 d in
  if decide (length active_nodes < 2)%nat then (false, d)
  else
    let '(d, success_count) :=
      foldl (restore_to file_id file_data) (d, 0) (take 2 active_nodes) in
    (bool_decide (success_count >= 2), d).

(** The loop of [_recover_from_backup] over the inactive replicas. *)
Fixpoint recover_from (now : Z) (file_info : file_row)
    (inactive_replicas : list replica_row) (d : DFSDatabase)
    : bool * DFSDatabase :=
  match inactive_replicas with
  | [] => (false, d)
  | replica :: rest =>
      match requests_get E (r_node_address replica +:+ "/download/"
                            +:+ f_file_id file_info) with
      | Some response =>
          if decide (status_code response = 200) then
            let file_data := content response in
            let checksum := sha256_hexdigest E file_data in
            if decide (Some checksum = f_checksum file_info) then
              _restore_from_data now (f_file_id file_info) file_data d
            else recover_from now file_info rest d
          else recover_from now file_info rest d
      | None => recover_from now file_info rest d
      end
  end.

Definition _recover_from_backup (now : Z)
    (file_info : file_row * list replica_row) (d : DFSDatabase)
    : bool * DFSDatabase :=
  let all_replicas := file_info.2 in
  let inactive_replicas := filter (λ r, r_status r = "inactive") all_replicas in
  recover_from now file_info.1 inactive_replicas d.

Definition create_replica_on (file_id source_address : string)
    (acc : DFSDatabase * Z) (target_node : node_row) : DFSDatabase * Z :=
  if _copy_file_between_nodes file_id source_address (n_node_address target_node)
  then ((add_replica file_id (n_node_id target_node)
                     (n_node_address target_node) "active" acc.1).1,
        acc.2 + 1)
  else acc.

Definition _create_additional_replicas (now : Z)
    (file_info : file_row * list replica_row)
    (active_replicas : list replica_row) (d : DFSDatabase)
    : bool * DFSDatabase :=
  let file_id := f_file_id file_info.1 in
  let needed := 2 - Z.of_nat (length active_replicas) in
  let '(active_nodes, d) := get_active_nodes now 30 d in
  let existing_node_ids := r_node_id <$> active_replicas in
  let available_nodes :=
    filter (λ n, n_node_id n ∉ existing_node_ids) active_nodes in
  if decide (Z.of_nat (length available_nodes) < needed) then (false, d)
  else
    match active_replicas with
    | [] => (false, d)
    | source_replica :: _ =>
        let source_address := r_node_address source_replica in
        let '(d, success_count) :=
          foldl (create_replica_on file_id source_address) (d, 0)
                (take (Z.to_nat needed) available_nodes) in
        (bool_decide (success_count > 0), d)
    end.

Definition replace_corrupted (now : Z) (file_id source_address : string)
    (d : DFSDatabase) (corrupted : replica_row) : DFSDatabase :=
  if _copy_file_between_nodes file_id source_address (r_node_address corrupted)
  then update_replica_status now file_id (r_node_id corrupted) "active" d
  else d.

Definition _replace_corrupted_replicas (now : Z)
    (file_info : file_row * list replica_row)
    (corrupted_replicas : list replica_row) (d : DFSDatabase)
    : bool * DFSDatabase :=
  let file_id := f_file_id file_info.1 in
  let active_replicas := filter (λ r, r_status r = "active") file_info.2 in
  match active_replicas with
  | [] => (false, d)
  | source :: _ =>
      let source_address := r_node_address source in
      (true,
       foldl (replace_corrupted now file_id source_address) d corrupted_replicas)
  end.

(** The first test of [_attempt_recovery]: a last attempt is recorded
    and lies less than [retry_delay] seconds back. *)
Definition retry_too_soon (now : Z) (last_attempt : option Z) : bool :=
  match last_attempt with
  | Some t => bool_decide (now - t < seconds retry_delay)
  | None => false
  end.

(** [_attempt_recovery].  [elapsed] is the duration that [time.time()]
    measures around the repair. *)
Definition _attempt_recovery (now elapsed : Z) (record : nat)
    (m : AdvancedRecoveryManager) : AdvancedRecoveryManager :=
  match objects m !! record with
  | None => m
  | Some r =>
      if retry_too_soon now (last_attempt r) then m
      else if decide (attempts r >= max_attempts r)
      then _mark_recovery_failed now record "Max attempts exceeded" m
      else
        let r := begin_attempt now r in
        let m := set_object record r m in
        match get_file (file_id r) (db m) with
        | None => _mark_recovery_failed now record "File not found in database" m
        | Some file_info =>
            let replicas := file_info.2 in
            let active_replicas := filter (λ r, r_status r = "active") replicas in
            let corrupted_replicas :=
              filter (λ r, r_status r = "corrupted") replicas in
            let '(success, d) :=
              if decide (length active_replicas = 0)%nat then
                _recover_from_backup now file_info (db m)
              else if decide (length active_replicas < 2)%nat then
                _create_additional_replicas now file_info active_replicas (db m)
              else if decide (0 < length corrupted_replicas)%nat then
                _replace_corrupted_replicas now file_info corrupted_replicas (db m)
              else (true, db m) in
            let m := set_db d m in
            if success then _mark_recovery_successful now record elapsed m
            else _mark_recovery_failed now record "Recovery operation failed" m
        end
  end.

Definition _process_recovery_queue (now elapsed : Z)
    (m : AdvancedRecoveryManager) : AdvancedRecoveryManager :=
  let to_process := take max_concurrent_recoveries (recovery_queue m) in
  foldl (λ m record, _attempt_recovery now elapsed record m) m to_process.

Definition _process_priority_recoveries (now elapsed : Z)
    (m : AdvancedRecoveryManager) : AdvancedRecoveryManager :=
  let priority_items :=
    filter (λ o, priority_of (objects m) o >= 15) (recovery_queue m) in
  foldl (λ m record, _attempt_recovery now elapsed record m) m priority_items.

End WithEnvironment.

Definition check_corrupted (now : Z) (m : AdvancedRecoveryManager)
    (file : file_listing) : AdvancedRecoveryManager :=
  let file_id := f_file_id (l_file file) in
  let replicas := get_replicas file_id (db m) in
  let corrupted_count := length (filter (λ r, r_status r = "corrupted") replicas) in
  if decide (0 < corrupted_count)%nat then
    add_to_recovery_queue now file_id (f_filename (l_file file)) IMMEDIATE 15 m
  else m.

Definition _check_corrupted_replicas (now : Z) (m : AdvancedRecoveryManager)
    : AdvancedRecoveryManager :=
  foldl (check_corrupted now) m (list_files 1000 0 (db m)).

Definition check_under_replicated (now : Z) (m : AdvancedRecoveryManager)
    (file : file_listing) : AdvancedRecoveryManager :=
  let active_replicas := l_active_replicas file in
  if decide (active_replicas < 2) then
    let priority := if decide (active_replicas = 0) then 20 else 10 in
    add_to_recovery_queue now (f_file_id (l_file file)) (f_filename (l_file file))
                          PRIORITY priority m
  else m.

Definition _proactive_health_check (now : Z) (m : AdvancedRecoveryManager)
    : AdvancedRecoveryManager :=
  let m := foldl (check_under_replicated now) m (list_files 1000 0 (db m)) in
  _check_corrupted_replicas now m.

(** [force_recovery]: the boolean tells whether the file is known. *)
Definition force_recovery (now : Z) (file_id : string)
    (m : AdvancedRecoveryManager) : AdvancedRecoveryManager * bool :=
  match get_file file_id (db m) with
  | None => (m, false)
  | Some file_info =>
      (add_to_recovery_queue now file_id (f_filename file_info.1) IMMEDIATE 100 m,
       true)
  end.

End Recovery.

(** ** [naming_service.py]: the wiring of the managers *)

Module Naming.
Import Schema.

(** [upload_confirm]: the handler of /api/upload/confirm, with the HTTP
    status it answers.  The checksum is written only when none is stored. *)
Definition upload_confirm (now : Z) (file_id node_id checksum : option string)
    (d : DFSDatabase) : DFSDatabase * Z :=
  if negb (truthy file_id && truthy node_id && truthy checksum) then (d, 400)
  else
    let file_id := default "" file_id in
    let d := update_replica_status now file_id (default "" node_id) "active" d in
    match get_file file_id d with
    | Some file_info =>
        if negb (truthy (f_checksum file_info.1))
        then (update_file_checksum file_id (default "" checksum) d, 200)
        else (d, 200)
    | None => (d, 200)
    end.

(** The module-level objects: one database handle shared by
    [replication_mgr], [health_monitor] and [advanced_recovery].  The three
    [db] fields are kept equal: they are the same handle. *)
Record coordinator := Coordinator {
  replication_mgr : Replication.ReplicationManager;
  health_monitor : Replication.HealthMonitor;
  advanced_recovery : Recovery.AdvancedRecoveryManager
}.

Definition new_coordinator (d : DFSDatabase) : coordinator :=
  Coordinator (Replication.new_manager d 2) (Replication.new_monitor d)
              (Recovery.new_recovery_manager d).

Definition share_db (d : DFSDatabase) (c : coordinator) : coordinator :=
  Coordinator
    (Replication.set_db d (replication_mgr c))
    (Replication.Monitor d (Replication.failure_threshold (health_monitor c))
                         (Replication.hm_stats_of (health_monitor c)))
    (Recovery.set_db d (advanced_recovery c)).

(** One pass of the integrity verifier, run by [replication_mgr]. *)
Definition verification_pass (E : environment) (now : Z) (c : coordinator)
    : coordinator :=
  let m := Replication._verify_replicas E now (replication_mgr c) in
  share_db (Replication.db m)
           (Coordinator m (health_monitor c) (advanced_recovery c)).

(** One pass of [_check_corrupted_replicas], run by [advanced_recovery]. *)
Definition corruption_scan (now : Z) (c : coordinator) : coordinator :=
  let m := Recovery._check_corrupted_replicas now (advanced_recovery c) in
  share_db (Recovery.db m)
           (Coordinator (replication_mgr c) (health_monitor c) m).

(** One tick of the health monitor. *)
Definition health_tick (now : Z) (c : coordinator) : coordinator :=
  let h := Replication.monitor_tick now (health_monitor c) in
  share_db (Replication.hm_db h)
           (Coordinator (replication_mgr c) h (advanced_recovery c)).

End Naming.

(** ** [advanced_recovery.py]: the introspection methods *)

Module RecoveryViews.
Import Schema Recovery.

(** A Python slice [l[k:]]: a negative [k] counts from the end. *)
Definition slice_from {A} (k : Z) (l : list A) : list A :=
  if decide (0 ≤ k) then drop (Z.to_nat k) l
  else drop (length l - Z.to_nat (- k)) l.

(** One entry of [get_recovery_queue]. *)
Record queue_view := QueueView {
  qv_file_id : string;
  qv_filename : string;
  qv_priority : Z;
  qv_attempts : Z;
  qv_status : string;
  qv_strategy : string
}.

Definition view_of (r : FileRecoveryRecord) : queue_view :=
  QueueView (file_id r) (filename r) (priority r) (attempts r) (status r) (strategy r).

Definition get_recovery_queue (m : AdvancedRecoveryManager) : list queue_view :=
  omap (λ o, view_of <$> objects m !! o) (recovery_queue m).

(** [get_recovery_history]: [self.recovery_history[-limit:]]. *)
Definition get_recovery_history (limit : Z) (m : AdvancedRecoveryManager)
    : list history_entry :=
  slice_from (- limit) (recovery_history m).

End RecoveryViews.

(** ** [naming_service.py]: the handlers *)

Module Api.
Import Schema.

(** [NamingService.select_nodes_for_upload]: [None] when fewer active nodes
    than asked for, else [active_nodes[:replication_factor]]. *)
Definition select_nodes_for_upload (now : Z) (replication_factor : Z)
    (d : DFSDatabase) : option (list node_row) * DFSDatabase :=
  let '(active_nodes, d) := get_active_nodes now 30 d in
  if decide (Z.of_nat (length active_nodes) < replication_factor) then (None, d)
  else (Some (slice_to replication_factor active_nodes), d).

(** POST /api/nodes/register, with the HTTP status of the answer. *)
Definition register_node (now created : Z) (node_id node_address : option string)
    (d : DFSDatabase) : DFSDatabase * Z :=
  if negb (truthy node_id) || negb (truthy node_address) then (d, 400)
  else
    (Schema.register_node now created (default "" node_id)
                          (default "" node_address) d, 200).

(** POST /api/nodes/heartbeat.  Status 500 is the exception that the
    handler does not catch. *)
Definition heartbeat (now : Z) (node_id : option string)
    (available_space file_count : Z) (d : DFSDatabase) : DFSDatabase * Z :=
  if negb (truthy node_id) then (d, 400)
  else
    match update_node_heartbeat now (default "" node_id) available_space
                                file_count d with
    | None => (d, 500)
    | Some (d, success) => if success then (d, 200) else (d, 404)
    end.

(** One entry of [upload_nodes] in the answer of the upload request. *)
Record upload_slot := UploadSlot {
  slot_node_id : string;
  slot_upload_url : string
}.

(** The loop of [upload_request] that books one pending replica per node. *)
Definition book_slot (file_id : string) (acc : DFSDatabase * list upload_slot)
    (node : node_row) : DFSDatabase * list upload_slot :=
  ((add_replica file_id (n_node_id node) (n_node_address node) "pending" acc.1).1,
   acc.2 ++ [UploadSlot (n_node_id node)
                        (n_node_address node +:+ "/upload/" +:+ file_id)]).

(** POST /api/upload/request.  [uuid] is the value of [uuid.uuid4()];
    [file_size] is falsy when absent or zero; [replication_factor] defaults
    to 2.  Status 500 is the exception of [create_file] that the handler
    does not catch: a file id that is already taken, or a size or
    replication factor outside 64 bits. *)
Definition upload_request (now : Z) (uuid : string) (filename : option string)
    (file_size : option Z) (replication_factor : option Z) (d : DFSDatabase)
    : DFSDatabase * (Z * list upload_slot) :=
  let replication_factor := default 2 replication_factor in
  if negb (truthy filename) || bool_decide (default 0 file_size = 0)
  then (d, (400, []))
  else
    let '(selected_nodes, d) := select_nodes_for_upload now replication_factor d in
    match selected_nodes with
    | None | Some [] => ((get_active_nodes now 30 d).2, (503, []))
    | Some selected_nodes =>
        match create_file now uuid (default "" filename) (default 0 file_size)
                          replication_factor d with
        | None => (d, (500, []))
        | Some d =>
            let '(d, upload_nodes) := foldl (book_slot uuid) (d, []) selected_nodes in
            (d, (200, upload_nodes))
        end
    end.

(** GET /api/files, for a limit and an offset that [int()] has parsed:
    the status and the rows of the answer. *)
Definition list_files (limit offset : Z) (d : DFSDatabase)
    : Z * list file_listing :=
  match list_files_call limit offset d with
  | None => (500, [])
  | Some rows => (200, rows)
  end.

(** The body of a successful download answer. *)
Record download_info := DownloadInfo {
  di_file_id : string;
  di_filename : string;
  di_file_size : Z;
  di_checksum : option string;
  di_download_urls : list string
}.

(** GET /api/download/<file_id>. *)
Definition download_request (file_id : string) (d : DFSDatabase)
    : Z * option download_info :=
  match get_file file_id d with
  | None => (404, None)
  | Some file_info =>
      let active_replicas := filter (λ r, r_status r = "active") file_info.2 in
      match active_replicas with
      | [] => (503, None)
      | _ =>
          let download_urls :=
            (λ r, r_node_address r +:+ "/download/" +:+ file_id) <$> active_replicas in
          (200, Some (DownloadInfo file_id (f_filename file_info.1)
                        (f_file_size file_info.1) (f_checksum file_info.1)
                        download_urls))
      end
  end.

(** DELETE /api/files/<file_id>.  The delete requests sent to the storage
    nodes are not waited on for a verdict: whatever they answer, the rows go. *)
Definition delete_file (file_id : string) (d : DFSDatabase) : DFSDatabase * Z :=
  match get_file file_id d with
  | None => (d, 404)
  | Some _ => ((Schema.delete_file file_id d).1, 200)
  end.

(** POST /api/recovery/force/<file_id>. *)
Definition force_recovery (now : Z) (file_id : string)
    (m : Recovery.AdvancedRecoveryManager) : Recovery.AdvancedRecoveryManager * Z :=
  let '(m, success) := Recovery.force_recovery now file_id m in
  if success then (m, 200) else (m, 404).

(** The [queue_summary] of GET /api/recovery/stats. *)
Record queue_summary := QueueSummary {
  qs_total : Z;
  qs_critical : Z;
  qs_high : Z;
  qs_normal : Z
}.

Definition recovery_stats_summary (m : Recovery.AdvancedRecoveryManager)
    : queue_summary :=
  let queue := RecoveryViews.get_recovery_queue m in
  QueueSummary
    (Z.of_nat (length queue))
    (Z.of_nat (length (filter (λ q, RecoveryViews.qv_priority q >= 15) queue)))
    (Z.of_nat (length (filter (λ q, 10 ≤ RecoveryViews.qv_priority q ∧
                                    RecoveryViews.qv_priority q < 15) queue)))
    (Z.of_nat (length (filter (λ q, RecoveryViews.qv_priority q < 10) queue))).

(** One round of [health_check_loop]. *)
Definition health_check_round (now : Z) (d : DFSDatabase) : DFSDatabase :=
  (get_active_nodes now 30 d).2.

End Api.

(** * The vocabulary of the properties *)

Section Vocabulary.
Import Schema.

(** The rows of [replicas] of one (file, node) pair. *)
Definition pair_rows (file_id node_id : string) (db : DFSDatabase)
    : list replica_row :=
  filter (λ r, r_file_id r = file_id ∧ r_node_id r = node_id) (replicas db).

Definition with_checksum (checksum : option string) (f : file_row) : file_row :=
  FileRow (f_file_id f) (f_filename f) (f_file_size f) checksum
          (f_upload_timestamp f) (f_replication_factor f).

(** Where a stable descending sort puts an element appended to a sorted
    list: behind every element whose key is at least its own. *)
Fixpoint enqueue_desc {A} (key : A → Z) (x : A) (l : list A) : list A :=
  match l with
  | [] => [x]
  | y :: l' =>
      if decide (key x ≤ key y) then y :: enqueue_desc key x l' else x :: y :: l'
  end.

(** The rows of the pair before the verifier has judged them, and after. *)
Definition unjudged (now : Z) (fid : string) (replica : replica_row)
    (d : DFSDatabase) : Prop :=
  pair_rows fid (r_node_id replica) d = [replica] ∨
  pair_rows fid (r_node_id replica) d = [set_status now "active" replica].

Definition judged (now : Z) (fid : string) (replica : replica_row)
    (d : DFSDatabase) : Prop :=
  pair_rows fid (r_node_id replica) d = [set_status now "corrupted" replica].

(** The replica answers the download with status 200 and bytes whose
    SHA-256 is the stored checksum of the file. *)
Definition serves (E : environment) (file : file_row) (replica : replica_row) (file_data : string)
    : Prop :=
  ∃ answer,
    requests_get E (r_node_address replica +:+ "/download/" +:+ f_file_id file)
      = Some answer ∧
    status_code answer = 200 ∧ content answer = file_data ∧
    Some (sha256_hexdigest E file_data) = f_checksum file.

(** The request fails, answers another status, or the bytes mismatch. *)
Definition disqualified (E : environment) (file : file_row) (replica : replica_row) : Prop :=
  ¬ ∃ file_data, serves E file replica file_data.

(** The restore upload to the node answers 200. *)
Definition upload_accepted (E : environment) (file_id file_data : string) (node : node_row) : Prop :=
  ∃ answer,
    requests_post E (n_node_address node +:+ "/upload/" +:+ file_id) file_data
      = Some answer ∧
    status_code answer = 200.

End Vocabulary.

Section QueueVocabulary.
Import Schema Recovery.

(** [ahead objs a b]: the record behind [a] belongs before the one behind
    [b]: its priority is higher, or the priorities are equal and [a] was
    created, that is enqueued, first. *)
Definition ahead (objs : list FileRecoveryRecord) (a b : nat) : Prop :=
  priority_of objs b < priority_of objs a ∨
  (priority_of objs a = priority_of objs b ∧ (a < b)%nat).

(** The queue holds valid references, by priority in descending order,
    records of equal priority in the order of their insertion. *)
Definition ordered (objs : list FileRecoveryRecord) (queue : list nat) : Prop :=
  StronglySorted (ahead objs) queue ∧
  Forall (λ o, (o < length objs)%nat) queue.

Definition queue_ordered (m : AdvancedRecoveryManager) : Prop :=
  ordered (objects m) (recovery_queue m).

(** What the three loops and the HTTP handlers do to the manager, and
    what the other managers do to the database beside it. *)
Inductive queue_step (E : environment) :
    AdvancedRecoveryManager → AdvancedRecoveryManager → Prop :=
| step_enqueue now fid fname strat prio m :
    queue_step E m (add_to_recovery_queue now fid fname strat prio m)
| step_success now o rt m :
    queue_step E m (_mark_recovery_successful now o rt m)
| step_failure now o err m :
    queue_step E m (_mark_recovery_failed now o err m)
| step_attempt now elapsed o m :
    queue_step E m (_attempt_recovery E now elapsed o m)
| step_main_worker now elapsed m :
    queue_step E m (_process_recovery_queue E now elapsed m)
| step_priority_worker now elapsed m :
    queue_step E m (_process_priority_recoveries E now elapsed m)
| step_scanner now m :
    queue_step E m (_proactive_health_check now m)
| step_force now fid m :
    queue_step E m (force_recovery now fid m).1
| step_database d m :
    queue_step E m (set_db d m).

(** Every queued record of the file was enqueued by the corruption scan. *)
Definition enqueued_for_corruption (fid : string) (m : AdvancedRecoveryManager)
    : Prop :=
  ∀ o r, o ∈ recovery_queue m → objects m !! o = Some r → file_id r = fid →
         priority r = 15 ∧ strategy r = IMMEDIATE.

End QueueVocabulary.

(** ** States and environments used as examples *)

Section WorkedStates.
Import Schema.

Definition a_file (checksum : option string) : file_row :=
  FileRow "f1" "report.pdf" 10 checksum 1000 2.

Definition a_replica (id : Z) (node_id status : string) : replica_row :=
  ReplicaRow id "f1" node_id ("http://" +:+ node_id) status None.

(** Every download and every upload answers 200. *)
Definition obliging : environment :=
  Environment (λ _, Some (Response 200 "bytes"))
              (λ _ _, Some (Response 200 ""))
              (λ _, "aa") (λ _, Some (Some "aa")).

(** The nodes answer every download, and every upload with status 500. *)
Definition refusing_uploads : environment :=
  Environment (λ _, Some (Response 200 "bytes"))
              (λ _ _, Some (Response 500 ""))
              (λ _, "aa") (λ _, Some (Some "aa")).

(** The nodes report the checksum bb for every replica. *)
Definition tampered : environment :=
  Environment (λ _, Some (Response 200 "{checksum: bb}"))
              (λ _ _, Some (Response 200 ""))
              (λ _, "bb") (λ _, Some (Some "bb")).

Definition two_nodes : list node_row :=
  [NodeRow "n1" "http://n1" "active" 500 1 0 0;
   NodeRow "n2" "http://n2" "active" 400 1 0 0].

Definition three_nodes : list node_row :=
  [NodeRow "n1" "http://n1" "active" 500 1 0 0;
   NodeRow "n2" "http://n2" "active" 400 1 0 0;
   NodeRow "n3" "http://n3" "active" 300 1 0 0].

(** A node whose last heartbeat is 31 s old, holding one active replica. *)
Definition stale_node_db : DFSDatabase :=
  Database [a_file (Some "aa")]
           [a_replica 1 "n1" "active"] 1
           [NodeRow "n1" "http://n1" "active" 500 1 0 0] [] 0.

Definition one_replica_db : DFSDatabase :=
  Database [a_file (Some "aa")] [a_replica 1 "n1" "active"] 1
           [NodeRow "n1" "http://n1" "active" 500 1 0 0] [] 0.

Definition corrupted_on_n2 : DFSDatabase :=
  Database [a_file (Some "aa")]
           [a_replica 1 "n1" "active"; a_replica 2 "n2" "corrupted"] 2
           two_nodes [] 0.

Definition corrupted_on_n3 : DFSDatabase :=
  Database [a_file (Some "aa")]
           [a_replica 1 "n1" "active"; a_replica 2 "n2" "active";
            a_replica 3 "n3" "corrupted"] 3
           three_nodes [] 0.

(** A file without any replica: every repair of it fails. *)
Definition lost_file_db : DFSDatabase :=
  Database [a_file (Some "aa")] [] 0 three_nodes [] 0.

Definition waiting_record : Recovery.FileRecoveryRecord :=
  Recovery.RecoveryRecord "f1" "report.pdf" Recovery.IMMEDIATE 15 1 3 (Some 0)
                          "pending" None 0.

Definition spent_record : Recovery.FileRecoveryRecord :=
  Recovery.RecoveryRecord "f1" "report.pdf" Recovery.IMMEDIATE 15 3 3 (Some 0)
                          "failed" (Some "Recovery operation failed") 0.

Definition holding (r : Recovery.FileRecoveryRecord)
    : Recovery.AdvancedRecoveryManager :=
  Recovery.RecoveryManager lost_file_db [r] [0%nat]
                           (Recovery.RecoveryStats 0 0 0 1 None 0) [].

End WorkedStates.

(** ** More vocabulary: the store *)

Section StoreVocabulary.
Import Schema.

(** The primary keys of the three tables: file ids, node ids and replica
    ids are unique, and no replica id is above the AUTOINCREMENT counter. *)
Definition keys_unique (db : DFSDatabase) : Prop :=
  NoDup (f_file_id <$> files db) ∧
  NoDup (n_node_id <$> storage_nodes db) ∧
  NoDup (r_id <$> replicas db) ∧
  Forall (λ r, r_id r ≤ replicas_seq db) (replicas db).

(** The writes of [DFSDatabase]. *)
Inductive db_step : DFSDatabase → DFSDatabase → Prop :=
| db_create_file now file_id filename file_size replication_factor db db' :
    create_file now file_id filename file_size replication_factor db = Some db' →
    db_step db db'
| db_update_file_checksum file_id checksum db :
    db_step db (update_file_checksum file_id checksum db)
| db_delete_file file_id db :
    db_step db (delete_file file_id db).1
| db_add_replica file_id node_id node_address status db :
    db_step db (add_replica file_id node_id node_address status db).1
| db_update_replica_status now file_id node_id status db :
    db_step db (update_replica_status now file_id node_id status db)
| db_register_node now created node_id node_address db :
    db_step db (register_node now created node_id node_address db)
| db_update_node_heartbeat now node_id available_space total_files db db' found :
    update_node_heartbeat now node_id available_space total_files db
      = Some (db', found) →
    db_step db db'
| db_mark_node_inactive node_id db :
    db_step db (mark_node_inactive node_id db)
| db_get_active_nodes now timeout db :
    db_step db (get_active_nodes now timeout db).2.

(** The rows of [storage_nodes] after every node whose id is in [ids] has
    been marked inactive. *)
Definition marked_inactive (ids : list string) (nodes : list node_row)
    : list node_row :=
  (λ n, if decide (n_node_id n ∈ ids) then set_node_status "inactive" n else n)
    <$> nodes.

End StoreVocabulary.

(** ** More vocabulary: the loops of the replication manager *)

Section LoopVocabulary.
Import Schema.

(** What one verifier pass may do to a replica row: leave it, or stamp it
    as active or as corrupted at the time of the pass. *)
Definition restamped (now : Z) (r r' : replica_row) : Prop :=
  r' = r ∨ r' = set_status now "active" r ∨ r' = set_status now "corrupted" r.

(** What a verifier pass keeps of the store it started from. *)
Definition verified_from (now : Z) (d d' : DFSDatabase) : Prop :=
  Forall2 (restamped now) (replicas d) (replicas d') ∧
  files d' = files d ∧ storage_nodes d' = storage_nodes d ∧
  replicas_seq d' = replicas_seq d.

(** The order of a listing: newer files first, files of one timestamp by
    file id. *)
Definition listed_before (a b : file_row) : Prop :=
  f_upload_timestamp b < f_upload_timestamp a ∨
  (f_upload_timestamp a = f_upload_timestamp b ∧
   String.leb (f_file_id a) (f_file_id b) = true).

(** The number of replicas of the file that are stored as active. *)
Definition active_count (file_id : string) (db : DFSDatabase) : Z :=
  Z.of_nat (length (filter (λ r, r_status r = "active") (get_replicas file_id db))).

End LoopVocabulary.

(** ** More vocabulary: the recovery manager *)

Section ManagerVocabulary.
Import Schema Recovery.

(** No file is queued twice, and the queue refers to existing records. *)
Definition queued_once (m : AdvancedRecoveryManager) : Prop :=
  NoDup (queued_file_ids m) ∧
  Forall (λ o, (o < length (objects m))%nat) (recovery_queue m).

(** The counters of [self.stats] against the queue and the history. *)
Definition counters_agree (m : AdvancedRecoveryManager) : Prop :=
  pending_recoveries (stats m) = Z.of_nat (length (recovery_queue m)) ∧
  total_recoveries (stats m)
    = successful_recoveries (stats m) + failed_recoveries (stats m) ∧
  0 ≤ critical_files_recovered (stats m) ≤ successful_recoveries (stats m) ∧
  0 ≤ failed_recoveries (stats m) ∧
  Z.of_nat (length (recovery_history m))
    = Z.min (total_recoveries (stats m)) (Z.of_nat max_history).

(** Every queued record is as [FileRecoveryRecord.__init__] made it: no
    attempt counted, none stamped, three attempts allowed, no error. *)
Definition queued_fresh (m : AdvancedRecoveryManager) : Prop :=
  ∀ o r, o ∈ recovery_queue m → objects m !! o = Some r →
         attempts r = 0 ∧ last_attempt r = None ∧ max_attempts r = 3 ∧
         error_message r = None.

(** Every queued record of the file carries this priority and strategy. *)
Definition tagged (fid : string) (prio : Z) (strat : string)
    (m : AdvancedRecoveryManager) : Prop :=
  ∀ o r, o ∈ recovery_queue m → objects m !! o = Some r → file_id r = fid →
         priority r = prio ∧ strategy r = strat.

End ManagerVocabulary.

Section WorkerVocabulary.
Import Schema Recovery.

(** From [m] to [m'] only the records behind the references in [l] were
    written or taken out of the queue, nothing was enqueued and no record
    was created, and at most [k] recoveries were finished. *)
Definition touches_within (l : list nat) (k : Z)
    (m m' : AdvancedRecoveryManager) : Prop :=
  length (objects m') = length (objects m) ∧
  (∀ o, o ∉ l → objects m' !! o = objects m !! o) ∧
  recovery_queue m' `sublist_of` recovery_queue m ∧
  (∀ o, o ∉ l → o ∈ recovery_queue m → o ∈ recovery_queue m') ∧
  total_recoveries (stats m) ≤ total_recoveries (stats m')
    ≤ total_recoveries (stats m) + k.

End WorkerVocabulary.

(** ** More worked states *)

Section MoreWorkedStates.
Import Schema.

(** No storage node can be reached: every request gets status 404. *)
Definition unreachable : environment :=
  Environment (λ _, Some (Response 404 "")) (λ _ _, Some (Response 404 ""))
              (λ _, "") (λ _, None).

(** The file of the examples, as [list_files] shows it with [k] replicas of
    which [a] are active. *)
Definition a_listing (replica_count active_replicas : Z) : file_listing :=
  FileListing (a_file (Some "aa")) replica_count active_replicas.

(** The only replica of the file is corrupted. *)
Definition only_corrupted_db : DFSDatabase :=
  Database [a_file (Some "aa")] [a_replica 1 "n1" "corrupted"] 1 two_nodes [] 0.

(** An upload to n1 has been requested and is not yet confirmed. *)
Definition pending_upload_db : DFSDatabase :=
  Database [a_file None] [a_replica 1 "n1" "pending"] 1 two_nodes [] 0.



(** Two registered nodes and no file. *)
Definition empty_store : DFSDatabase :=
  Database [] [] 0 two_nodes [] 0.

(** A queued record whose file is not in the database. *)
Definition orphan_record_manager : Recovery.AdvancedRecoveryManager :=
  Recovery.RecoveryManager empty_store [waiting_record] [0%nat]
                           (Recovery.RecoveryStats 0 0 0 1 None 0) [].

End MoreWorkedStates.

(** * Properties *)

(** ** Lists *)

Lemma length_pos_elem_of {A} (l : list A) :
  Z.of_nat (length l) > 0 ↔ ∃ x, x ∈ l.
Proof.
  destruct l as [|x l]; simpl.
  - split; [lia | intros [x Hx]; by apply elem_of_nil in Hx].
  - split; [intros _; exists x; left | lia].
Qed.

Lemma length_filter_split {A} (P : A → Prop) `{∀ x, Decision (P x)} (l : list A) :
  (length (filter P l) + length (filter (λ x, ¬ P x) l) = length l)%nat.
Proof.
  induction l as [|x l IH]; [done|].
  rewrite !filter_cons. destruct (decide (P x)), (decide (¬ P x)); simpl; tauto || lia.
Qed.

Lemma filter_fmap_stable {A} (P : A → Prop) `{∀ x, Decision (P x)} (g : A → A)
    (l : list A) :
  (∀ x, P (g x) ↔ P x) → filter P (g <$> l) = g <$> filter P l.
Proof.
  intros Hg. induction l as [|x l IH]; [done|].
  rewrite fmap_cons, !filter_cons.
  destruct (decide (P (g x))) as [Hy|Hn], (decide (P x)) as [Hy'|Hn'].
  - by rewrite fmap_cons, IH.
  - destruct Hn'. by apply Hg.
  - destruct Hn. by apply Hg.
  - done.
Qed.

(** ** The metadata store *)

Section Store.
Import Schema.

(** C10. [delete_file] leaves no file row and no replica row of the file and
    keeps every other row; it answers [true] exactly when the DELETE on
    [replicas] removed a row.  An existing file without replicas is removed
    and the answer is [false]. *)
Theorem delete_file_reports_replica_rows (file_id : string) (db : DFSDatabase) :
  let db' := (delete_file file_id db).1 in
  let result := (delete_file file_id db).2 in
  (∀ f, f ∈ files db' ↔ f ∈ files db ∧ f_file_id f ≠ file_id) ∧
  (∀ r, r ∈ replicas db' ↔ r ∈ replicas db ∧ r_file_id r ≠ file_id) ∧
  (result = true ↔ (length (replicas db') < length (replicas db))%nat) ∧
  (result = true ↔ ∃ r, r ∈ replicas db ∧ r_file_id r = file_id) ∧
  (file_id ∈ f_file_id <$> files db → get_replicas file_id db = [] →
   result = false ∧ file_id ∉ f_file_id <$> files db').
Proof.
  simpl.
  assert (Hres : bool_decide
            (Z.of_nat (length (filter (λ r, r_file_id r = file_id) (replicas db))) > 0)
            = true ↔ ∃ r, r ∈ replicas db ∧ r_file_id r = file_id).
  { rewrite bool_decide_eq_true, length_pos_elem_of.
    split.
    - intros [r Hr]. exists r. apply list_elem_of_filter in Hr. tauto.
    - intros (r & Hr & Hid). exists r. apply list_elem_of_filter. tauto. }
  split_and!.
  - intros f. rewrite list_elem_of_filter. tauto.
  - intros r. rewrite list_elem_of_filter. tauto.
  - rewrite bool_decide_eq_true.
    pose proof (length_filter_split (λ r, r_file_id r = file_id) (replicas db)).
    lia.
  - exact Hres.
  - intros _ Hnone. split.
    + apply not_true_is_false. rewrite Hres. intros (r & Hr & Hid).
      unfold get_replicas in Hnone.
      assert (r ∈ filter (λ r, r_file_id r = file_id) (replicas db)) as Hin
        by (apply list_elem_of_filter; done).
      rewrite Hnone in Hin. by apply elem_of_nil in Hin.
    + rewrite list_elem_of_fmap. intros (f & -> & Hf).
      apply list_elem_of_filter in Hf. tauto.
Qed.

Lemma delete_file_reports_replica_rows_witness :
  let db := Database [a_file None] [] 0 [] [] 0 in
  (delete_file "f1" db).2 = false ∧ files (delete_file "f1" db).1 = [].
Proof.
  split; [|reflexivity].
  apply (delete_file_reports_replica_rows "f1" (Database [a_file None] [] 0 [] [] 0)).
  - vm_compute. left.
  - reflexivity.
Defined.

(** C2, as the code has it. [add_replica] appends a row at every call: two
    calls with the same pair leave two more rows of that pair than before,
    under two fresh ids. *)
Theorem add_replica_appends_a_row (file_id node_id address status address' status' : string)
    (db : DFSDatabase) :
  let db1 := (add_replica file_id node_id address status db).1 in
  let db2 := (add_replica file_id node_id address' status' db1).1 in
  replicas db2 =
    replicas db ++
      [ReplicaRow (replicas_seq db + 1) file_id node_id address status None;
       ReplicaRow (replicas_seq db + 2) file_id node_id address' status' None] ∧
  length (pair_rows file_id node_id db2)
    = S (S (length (pair_rows file_id node_id db))).
Proof.
  simpl. unfold pair_rows. simpl.
  replace (replicas_seq db + 1 + 1) with (replicas_seq db + 2) by lia.
  rewrite <- app_assoc. simpl. split; [done|].
  rewrite filter_app, length_app.
  rewrite !filter_cons_True by done. simpl. lia.
Qed.

(** C2, as the document has it, fails: the second call is not a no-op. *)
Lemma add_replica_twice_two_rows :
  let db1 := (add_replica "f1" "n1" "http://n1" "pending" init_database).1 in
  let db2 := (add_replica "f1" "n1" "http://n1" "pending" db1).1 in
  db2 ≠ db1 ∧ length (pair_rows "f1" "n1" db2) ≠ 1%nat.
Proof. split; [discriminate | vm_compute; discriminate]. Qed.

Lemma get_file_update_replica_status now fid fid' nid st db :
  fst <$> get_file fid (update_replica_status now fid' nid st db) = fst <$> get_file fid db.
Proof.
  unfold get_file. simpl. by destruct (filter _ (files db)).
Qed.

(** C3, as the code has it. [update_file_checksum] writes the new checksum
    over whatever is stored.  The rule that the first checksum wins is kept
    by the caller: [upload_confirm] leaves a stored, non-empty checksum as
    it is. *)
Theorem update_file_checksum_overwrites (now : Z) (file_id node_id checksum : string)
    (db : DFSDatabase) (f : file_row) :
  fst <$> get_file file_id db = Some f →
  fst <$> get_file file_id (update_file_checksum file_id checksum db)
    = Some (with_checksum (Some checksum) f) ∧
  (truthy (f_checksum f) = true →
   fst <$> get_file file_id
      (Naming.upload_confirm now (Some file_id) (Some node_id) (Some checksum) db).1
     = Some f).
Proof.
  intros Hf.
  assert (Hupd : ∀ d, fst <$> get_file file_id d = Some f →
            fst <$> get_file file_id (update_file_checksum file_id checksum d)
              = Some (with_checksum (Some checksum) f)).
  { intros d Hd. unfold get_file in *. simpl.
    rewrite filter_fmap_stable by (intros g; by destruct (decide _)).
    destruct (filter _ (files d)) as [|g l] eqn:Hfl; [done|].
    simpl in Hd. injection Hd as ->. simpl.
    assert (f ∈ filter (λ f, f_file_id f = file_id) (files d)) as Hin
      by (rewrite Hfl; left).
    apply list_elem_of_filter in Hin. destruct Hin as [Hid _].
    rewrite decide_True by done. done. }
  split; [by apply Hupd|].
  intros Htr. unfold Naming.upload_confirm.
  destruct (negb _); [done|]. simpl.
  pose proof (get_file_update_replica_status now file_id file_id node_id "active" db)
    as Hsame.
  rewrite Hf in Hsame.
  destruct (get_file file_id (update_replica_status _ _ _ _ _)) as [[g rs]|] eqn:Hg;
    [|done].
  simpl in Hsame. injection Hsame as ->. simpl.
  rewrite Htr. simpl. by rewrite Hg.
Qed.

Lemma update_file_checksum_overwrites_witness :
  let db := Database [a_file (Some "aa")] [] 0 [] [] 0 in
  fst <$> get_file "f1" (update_file_checksum "f1" "bb" db)
    = Some (a_file (Some "bb")) ∧
  fst <$> get_file "f1"
    (Naming.upload_confirm 2000 (Some "f1") (Some "n1") (Some "bb") db).1
    = Some (a_file (Some "aa")).
Proof.
  split.
  - apply (update_file_checksum_overwrites
             2000 "f1" "n1" "bb" (Database [a_file (Some "aa")] [] 0 [] [] 0)
             (a_file (Some "aa")) eq_refl).
  - apply (update_file_checksum_overwrites
             2000 "f1" "n1" "bb" (Database [a_file (Some "aa")] [] 0 [] [] 0)
             (a_file (Some "aa")) eq_refl).
    reflexivity.
Defined.

(** C3, as the document has it, fails: a stored checksum is replaced. *)
Lemma update_file_checksum_replaces_stored :
  let db := Database [a_file (Some "aa")] [] 0 [] [] 0 in
  f_checksum <$> files db = [Some "aa"] ∧
  f_checksum <$> files (update_file_checksum "f1" "bb" db) = [Some "bb"] ∧
  f_checksum <$> files (update_file_checksum "f1" "bb" db) ≠ f_checksum <$> files db.
Proof. split_and!; [reflexivity | reflexivity | discriminate]. Qed.

End Store.

(** ** The health monitor *)

Section Health.
Import Schema Replication.

Lemma check_node_replicas now h node :
  replicas (hm_db (check_node now h node)) = replicas (hm_db h).
Proof.
  unfold check_node, _mark_node_replicas_inactive.
  repeat case_decide; reflexivity.
Qed.

(** No tick of the health monitor writes to the replica table. *)
Lemma monitor_tick_replicas now h :
  replicas (hm_db (monitor_tick now h)) = replicas (hm_db h).
Proof.
  unfold monitor_tick, _check_node_health. simpl.
  generalize (get_all_nodes (hm_db h)). intros l. revert h.
  induction l as [|node l IH]; intros h; [done|].
  simpl. rewrite IH. apply check_node_replicas.
Qed.

(** C1 at the failing input: the tick marks the node inactive and counts
    the failure, and the replica the node holds is still active. *)
Theorem monitor_tick_keeps_replica_active :
  let h := monitor_tick (seconds 31) (new_monitor stale_node_db) in
  n_status <$> storage_nodes (hm_db h) = ["inactive"] ∧
  nodes_failed (hm_stats_of h) = 1 ∧
  replicas (hm_db h) = [a_replica 1 "n1" "active"] ∧
  r_status <$> filter (λ r, r_node_id r = "n1") (replicas (hm_db h)) = ["active"].
Proof. vm_compute. done. Qed.

End Health.

(** ** The replication controller *)

Section Controller.
Import Schema Replication.
Context (E : environment).

Lemma replicate_to_rows file_id source m targets :
  ∃ added,
    replicas (db (foldl (replicate_to E file_id source) m targets))
      = replicas (db m) ++ added ∧
    Forall (λ r, r_file_id r = file_id ∧ r_status r = "active" ∧
                 ∃ node, node ∈ targets ∧ r_node_id r = n_node_id node) added.
Proof.
  revert m. induction targets as [|t targets IH]; intros m; simpl.
  - exists []. by rewrite app_nil_r.
  - destruct (IH (replicate_to E file_id source m t)) as (added & Heq & Hall).
    rewrite Heq. unfold replicate_to.
    destruct (_copy_file_between_nodes _ _ _ _); simpl.
    + eexists (_ :: added). rewrite <- app_assoc. split; [done|].
      constructor.
      * simpl. split_and!; [done..|]. exists t. split; [left|done].
      * eapply Forall_impl; [exact Hall|]. simpl.
        intros r (? & ? & node & ? & ?). split_and!; [done..|].
        exists node. split; [by right|done].
    + exists added. split; [done|].
      eapply Forall_impl; [exact Hall|]. simpl.
      intros r (? & ? & node & ? & ?). split_and!; [done..|].
      exists node. split; [by right|done].
Qed.

Lemma elem_of_slice_to {A} k (l : list A) x : x ∈ slice_to k l → x ∈ l.
Proof.
  unfold slice_to. case_decide; intros Hx.
  all: apply list_elem_of_lookup in Hx as [i Hi].
  all: apply lookup_take_Some in Hi as [Hi _].
  all: apply list_elem_of_lookup; eauto.
Qed.

(** C8, as the code has it. The candidates of [_replicate_file] are the
    active nodes that hold no replica of the file in status active, and
    every replica row that [_replicate_file] adds is an active replica of
    the file on one of the candidates. *)
Theorem replicate_file_excludes_active_holders (file : file_listing)
    (active_nodes : list node_row) (m : ReplicationManager) :
  let replicas_of_file := get_replicas (f_file_id (l_file file)) (db m) in
  (∀ node,
     node ∈ available_nodes replicas_of_file active_nodes ↔
     node ∈ active_nodes ∧
     ¬ ∃ r, r ∈ replicas_of_file ∧ r_status r = "active" ∧
            r_node_id r = n_node_id node) ∧
  ∃ added,
    replicas (db (_replicate_file E file active_nodes m))
      = replicas (db m) ++ added ∧
    Forall (λ r, r_file_id r = f_file_id (l_file file) ∧ r_status r = "active" ∧
                 ∃ node, node ∈ available_nodes replicas_of_file active_nodes ∧
                         r_node_id r = n_node_id node) added.
Proof.
  simpl. split.
  - intros node. unfold available_nodes, existing_node_ids.
    rewrite list_elem_of_filter, list_elem_of_fmap.
    split.
    + intros [Hno Hin]. split; [done|].
      intros (r & Hr & Hst & Hid). apply Hno. exists r. split; [done|].
      apply list_elem_of_filter. done.
    + intros [Hin Hno]. split; [|done].
      intros (r & Hid & Hr). apply list_elem_of_filter in Hr as [Hst Hr].
      apply Hno. exists r. done.
  - unfold _replicate_file.
    destruct (available_nodes _ _) as [|a av] eqn:Hav.
    { exists []. by rewrite app_nil_r. }
    destruct (truthy _).
    2: { exists []. by rewrite app_nil_r. }
    edestruct replicate_to_rows as (added & Heq & Hall).
    exists added. split; [exact Heq|].
    eapply Forall_impl; [exact Hall|]. simpl.
    intros r (? & ? & node & Hnode & ?). split_and!; [done..|].
    exists node. split; [|done]. by apply elem_of_slice_to in Hnode.
Qed.

End Controller.

Section ControllerExample.
Import Schema Replication.

(** C8, as the document has it, fails: the node that holds the corrupted
    replica is the candidate, and the repair adds a second row for it. *)
Lemma replicate_file_targets_corrupted_holder :
  let m := new_manager corrupted_on_n2 2 in
  let file := listing_of corrupted_on_n2 (a_file (Some "aa")) in
  n_node_id <$> available_nodes (get_replicas "f1" (db m)) two_nodes = ["n2"] ∧
  (∃ r, r ∈ get_replicas "f1" (db m) ∧ r_node_id r = "n2" ∧
        r_status r = "corrupted") ∧
  replicas (db (_replicate_file obliging file two_nodes m))
    = [a_replica 1 "n1" "active"; a_replica 2 "n2" "corrupted";
       a_replica 3 "n2" "active"].
Proof.
  split_and!.
  - vm_compute. done.
  - exists (a_replica 2 "n2" "corrupted"). vm_compute.
    split_and!; [|done..]. right. left.
  - vm_compute. done.
Qed.

End ControllerExample.

(** ** The order of the recovery queue *)

Section StableSort.
Context {A : Type} (key : A → Z).

Lemma insert_desc_head x l :
  Forall (λ z, key z ≤ key x) l → insert_desc key x l = x :: l.
Proof.
  destruct l as [|z l]; [done|]. intros Hall. simpl.
  apply Forall_cons in Hall as [Hz _]. by rewrite decide_True.
Qed.

Lemma enqueue_desc_head x l :
  Forall (λ z, key z < key x) l → enqueue_desc key x l = x :: l.
Proof.
  destruct l as [|z l]; [done|]. intros Hall. simpl.
  apply Forall_cons in Hall as [Hz _]. rewrite decide_False by lia. done.
Qed.

Lemma elem_of_enqueue_desc x l z : z ∈ enqueue_desc key x l ↔ z = x ∨ z ∈ l.
Proof.
  induction l as [|y l IH]; simpl.
  - rewrite list_elem_of_singleton. rewrite elem_of_nil. tauto.
  - case_decide; rewrite !elem_of_cons; [rewrite IH|]; tauto.
Qed.

Lemma sort_desc_snoc x l :
  StronglySorted (λ a b, key b ≤ key a) l →
  sort_desc key (l ++ [x]) = enqueue_desc key x l.
Proof.
  induction 1 as [|y l Hl IH Hy]; [done|].
  change (sort_desc key ((y :: l) ++ [x]))
    with (insert_desc key y (sort_desc key (l ++ [x]))).
  rewrite IH. simpl. case_decide as Hxy.
  - apply insert_desc_head. apply Forall_forall. intros z Hz.
    apply elem_of_enqueue_desc in Hz as [->|Hz]; [done|].
    by eapply Forall_forall in Hy.
  - rewrite enqueue_desc_head.
    + simpl. rewrite decide_False by lia. by rewrite insert_desc_head.
    + eapply Forall_impl; [exact Hy|]. simpl. lia.
Qed.
End StableSort.

Lemma StronglySorted_change {A} (R R' : relation A) (l : list A) :
  (∀ a b, a ∈ l → b ∈ l → R a b → R' a b) →
  StronglySorted R l → StronglySorted R' l.
Proof.
  intros HR Hs. induction Hs as [|x l Hl IH Hx]; constructor.
  - apply IH. intros a b Ha Hb. apply HR; by right.
  - apply Forall_forall. intros b Hb. apply HR; [left | by right |].
    by eapply Forall_forall in Hx.
Qed.

Lemma elem_of_list_remove `{EqDecision A} (x y : A) (l : list A) :
  y ∈ list_remove x l → y ∈ l.
Proof.
  induction l as [|z l IH]; simpl; [done|].
  case_decide; rewrite ?elem_of_cons; [tauto|]. intros [->|Hy]; [by left|].
  right. by apply IH.
Qed.

Lemma StronglySorted_list_remove `{EqDecision A} (R : relation A) (x : A) (l : list A) :
  StronglySorted R l → StronglySorted R (list_remove x l).
Proof.
  induction 1 as [|z l Hl IH Hz]; simpl; [constructor|].
  case_decide; [done|]. constructor; [done|].
  apply Forall_forall. intros y Hy. apply elem_of_list_remove in Hy.
  by eapply Forall_forall in Hz.
Qed.

Section QueueOrder.
Import Schema Recovery.

Lemma priority_of_insert objs o r r' o' :
  objs !! o = Some r → priority r' = priority r →
  priority_of (<[o:=r']> objs) o' = priority_of objs o'.
Proof.
  intros Ho Hp. unfold priority_of. destruct (decide (o = o')) as [<-|Hne].
  - rewrite list_lookup_insert_eq by (by eapply lookup_lt_Some).
    rewrite Ho. done.
  - by rewrite list_lookup_insert_ne.
Qed.

Lemma ordered_insert objs queue o r r' :
  objs !! o = Some r → priority r' = priority r →
  ordered objs queue → ordered (<[o:=r']> objs) queue.
Proof.
  intros Ho Hp [Hs Hv]. split.
  - eapply StronglySorted_change; [|exact Hs].
    intros a b _ _. unfold ahead.
    by rewrite !(priority_of_insert objs o r r').
  - by rewrite length_insert.
Qed.

Lemma ordered_dequeue objs queue o :
  ordered objs queue → ordered objs (dequeue o queue).
Proof.
  intros [Hs Hv]. unfold dequeue. case_decide; [|done]. split.
  - by apply StronglySorted_list_remove.
  - apply Forall_forall. intros y Hy. apply elem_of_list_remove in Hy.
    by eapply Forall_forall in Hv.
Qed.

Lemma priority_of_app_l objs r o :
  (o < length objs)%nat → priority_of (objs ++ [r]) o = priority_of objs o.
Proof. intros Ho. unfold priority_of. by rewrite lookup_app_l. Qed.

Lemma ordered_enqueue objs queue r :
  ordered objs queue →
  ordered (objs ++ [r])
          (sort_desc (priority_of (objs ++ [r])) (queue ++ [length objs])).
Proof.
  intros [Hs Hv].
  assert (Hs' : StronglySorted (ahead (objs ++ [r])) queue).
  { eapply StronglySorted_change; [|exact Hs].
    intros a b Ha Hb. unfold ahead.
    rewrite !priority_of_app_l; [done|by eapply Forall_forall in Hv..]. }
  rewrite sort_desc_snoc.
  2: { eapply StronglySorted_change; [|exact Hs'].
       intros a b _ _. unfold ahead. lia. }
  clear Hs. split.
  - induction queue as [|y queue IH]; simpl.
    + repeat constructor.
    + apply StronglySorted_inv in Hs' as [Hq Hy].
      apply Forall_cons in Hv as [Hyv Hv].
      case_decide as Hle.
      * constructor; [by apply IH|].
        apply Forall_forall. intros z Hz.
        apply elem_of_enqueue_desc in Hz as [->|Hz].
        -- unfold ahead. lia.
        -- by eapply Forall_forall in Hy.
      * constructor; [by constructor|].
        apply Forall_cons. split; [unfold ahead; lia|].
        eapply Forall_impl; [exact Hy|]. simpl. unfold ahead. lia.
  - apply Forall_forall. intros z Hz.
    apply elem_of_enqueue_desc in Hz as [->|Hz]; rewrite length_app; simpl.
    + lia.
    + eapply Forall_forall in Hv; [|exact Hz]. lia.
Qed.

Lemma add_to_recovery_queue_ordered now fid fname strat prio m :
  queue_ordered m → queue_ordered (add_to_recovery_queue now fid fname strat prio m).
Proof.
  intros Hm. unfold add_to_recovery_queue. case_decide; [done|].
  by apply ordered_enqueue.
Qed.

Lemma mark_recovery_successful_ordered now o rt m :
  queue_ordered m → queue_ordered (_mark_recovery_successful now o rt m).
Proof.
  intros Hm. unfold _mark_recovery_successful.
  destruct (objects m !! o) as [r|] eqn:Ho; [|done].
  unfold queue_ordered. simpl.
  eapply ordered_insert; [exact Ho|done|]. by apply ordered_dequeue.
Qed.

Lemma mark_recovery_failed_ordered now o err m :
  queue_ordered m → queue_ordered (_mark_recovery_failed now o err m).
Proof.
  intros Hm. unfold _mark_recovery_failed.
  destruct (objects m !! o) as [r|] eqn:Ho; [|done].
  unfold queue_ordered. simpl.
  eapply ordered_insert; [exact Ho|done|]. by apply ordered_dequeue.
Qed.

Lemma attempt_recovery_ordered E now elapsed o m :
  queue_ordered m → queue_ordered (_attempt_recovery E now elapsed o m).
Proof.
  intros Hm. unfold _attempt_recovery.
  destruct (objects m !! o) as [r|] eqn:Ho; [|done].
  destruct (retry_too_soon _ _); [done|].
  case_decide; [by apply mark_recovery_failed_ordered|].
  match goal with |- context [set_object o ?r' m] => set (m1 := set_object o r' m) end.
  assert (queue_ordered m1) as Hm1.
  { unfold m1, queue_ordered. simpl. by eapply ordered_insert. }
  destruct (get_file _ _) as [file_info|];
    [|by apply mark_recovery_failed_ordered].
  match goal with |- context [let '(_, _) := ?s in _] => destruct s as [success d] end.
  destruct success;
    [apply mark_recovery_successful_ordered | apply mark_recovery_failed_ordered];
    exact Hm1.
Qed.

Lemma foldl_ordered {B} (f : AdvancedRecoveryManager → B → AdvancedRecoveryManager)
    (l : list B) m :
  (∀ m x, queue_ordered m → queue_ordered (f m x)) →
  queue_ordered m → queue_ordered (foldl f m l).
Proof.
  intros Hf. revert m. induction l as [|x l IH]; intros m Hm; [done|].
  simpl. apply IH. by apply Hf.
Qed.

Lemma StronglySorted_lookup {A} (R : relation A) (l : list A) i j a b :
  StronglySorted R l → (i < j)%nat → l !! i = Some a → l !! j = Some b → R a b.
Proof.
  intros Hs. revert i j. induction Hs as [|x l Hl IH Hx]; intros i j Hij Hi Hj.
  - by rewrite lookup_nil in Hi.
  - destruct j as [|j]; [lia|]. simpl in Hj. destruct i as [|i].
    + simpl in Hi. injection Hi as <-.
      eapply Forall_forall in Hx; [exact Hx|]. by eapply list_elem_of_lookup_2.
    + simpl in Hi. apply (IH i j); [lia|done..].
Qed.

(** C9. From a new manager on, after every operation on the queue
    (enqueue, removal on success, removal on failure, and the loops made of
    them) the queue is sorted by priority in descending order, and records
    of equal priority stand in the order of their insertion: of two queue
    positions the earlier one holds a priority at least as high, and at
    equal priorities the record that was enqueued first. *)
Theorem recovery_queue_stays_ordered (E : environment) (d : DFSDatabase)
    (m : AdvancedRecoveryManager) :
  rtc (queue_step E) (new_recovery_manager d) m →
  queue_ordered m ∧
  ∀ i j a b,
    (i < j)%nat →
    recovery_queue m !! i = Some a → recovery_queue m !! j = Some b →
    priority_of (objects m) b ≤ priority_of (objects m) a ∧
    (priority_of (objects m) a = priority_of (objects m) b → (a < b)%nat).
Proof.
  intros Hsteps.
  assert (queue_ordered m) as Hm; [|split; [exact Hm|]].
  2: { intros i j a b Hij Hi Hj. destruct Hm as [Hs _].
       pose proof (StronglySorted_lookup _ _ i j a b Hs Hij Hi Hj) as Hab.
       unfold ahead in Hab. lia. }
  revert m Hsteps. apply (rtc_ind_r queue_ordered).
  { split; constructor. }
  intros m m' _ Hstep Hm. destruct Hstep.
  - by apply add_to_recovery_queue_ordered.
  - by apply mark_recovery_successful_ordered.
  - by apply mark_recovery_failed_ordered.
  - by apply attempt_recovery_ordered.
  - apply foldl_ordered; [|done]. intros. by apply attempt_recovery_ordered.
  - apply foldl_ordered; [|done]. intros. by apply attempt_recovery_ordered.
  - unfold _proactive_health_check, _check_corrupted_replicas.
    apply foldl_ordered.
    { intros m1 x Hm1. unfold check_corrupted. case_decide; [|done].
      by apply add_to_recovery_queue_ordered. }
    apply foldl_ordered; [|done].
    intros m1 x Hm1. unfold check_under_replicated. case_decide; [|done].
    by apply add_to_recovery_queue_ordered.
  - unfold force_recovery. destruct (get_file _ _); [|done]. simpl.
    by apply add_to_recovery_queue_ordered.
  - done.
Qed.

End QueueOrder.

(** ** The attempt logic of the recovery queue *)

Section Attempts.
Import Schema Recovery.

Lemma add_to_history_last now r recovery_time success history :
  last (_add_to_history now r recovery_time success history)
    = Some (HistoryEntry (file_id r) (filename r) now success recovery_time
              (attempts r) (priority r) (strategy r)
              (if success then None else error_message r)).
Proof.
  unfold _add_to_history. case_decide as Hlen; [|apply last_snoc].
  rewrite last_lookup, length_drop, lookup_drop.
  rewrite length_app in *. simpl in *. unfold max_history in *.
  replace (_ + _)%nat with (length history) by lia.
  by rewrite list_lookup_middle.
Qed.

Lemma dequeue_filter (o : nat) (queue : list nat) :
  NoDup queue → dequeue o queue = filter (λ o', o' ≠ o) queue.
Proof.
  unfold dequeue. intros Hnd. case_decide as Hin.
  - induction Hnd as [|x l Hx Hnd IH]; [by apply elem_of_nil in Hin|].
    simpl. rewrite filter_cons. case_decide as Hox.
    + subst x. rewrite decide_False by tauto.
      clear IH Hin. induction l as [|y l IH]; [done|].
      rewrite filter_cons. apply not_elem_of_cons in Hx as [Hy Hx].
      apply NoDup_cons in Hnd as [_ Hnd].
      rewrite decide_True by done. f_equal. by apply IH.
    + rewrite decide_True by done. f_equal. apply IH.
      apply elem_of_cons in Hin as [->|Hin]; done.
  - clear Hnd. induction queue as [|y l IH]; [done|].
    rewrite filter_cons. apply not_elem_of_cons in Hin as [Hy Hin].
    rewrite decide_True by done. f_equal. by apply IH.
Qed.

Lemma mark_recovery_failed_object now o err m r :
  objects m !! o = Some r →
  objects (_mark_recovery_failed now o err m) !! o
    = Some (set_outcome "failed" (Some err) r).
Proof.
  intros Ho. unfold _mark_recovery_failed. rewrite Ho. simpl.
  apply list_lookup_insert_eq. by eapply lookup_lt_Some.
Qed.

Lemma mark_recovery_successful_object now o rt m r :
  objects m !! o = Some r →
  objects (_mark_recovery_successful now o rt m) !! o
    = Some (set_outcome "success" (error_message r) r).
Proof.
  intros Ho. unfold _mark_recovery_successful. rewrite Ho. simpl.
  apply list_lookup_insert_eq. by eapply lookup_lt_Some.
Qed.

Lemma retry_too_soon_false now t :
  seconds retry_delay ≤ now - t → retry_too_soon now (Some t) = false.
Proof. intros Ht. simpl. apply bool_decide_eq_false. lia. Qed.

(** A call that passes both tests counts the attempt and stamps it,
    whatever the repair does afterwards. *)
Lemma attempt_recovery_counts E now elapsed o m r :
  objects m !! o = Some r →
  retry_too_soon now (last_attempt r) = false →
  ¬ (attempts r >= max_attempts r) →
  ∃ r', objects (_attempt_recovery E now elapsed o m) !! o = Some r' ∧
        attempts r' = attempts r + 1 ∧
        max_attempts r' = max_attempts r ∧
        last_attempt r' = Some now ∧
        (status r' = "success" ∨ status r' = "failed").
Proof.
  intros Ho Hsoon Hmax. unfold _attempt_recovery. rewrite Ho, Hsoon.
  rewrite decide_False by done.
  match goal with |- context [set_object o ?r' m] => set (m1 := set_object o r' m) end.
  assert (Ho1 : objects m1 !! o = Some (begin_attempt now r)).
  { unfold m1. simpl. apply list_lookup_insert_eq. by eapply lookup_lt_Some. }
  destruct (get_file _ _) as [file_info|].
  - match goal with |- context [let '(_, _) := ?s in _] => destruct s as [success d] end.
    destruct success.
    + eexists. split; [by apply mark_recovery_successful_object|]. simpl. tauto.
    + eexists. split; [by apply mark_recovery_failed_object|]. simpl. tauto.
  - eexists. split; [by apply mark_recovery_failed_object|]. simpl. tauto.
Qed.

(** What the exhausted branch leaves behind. *)
Lemma attempt_recovery_exhausted E now elapsed o m r :
  objects m !! o = Some r →
  retry_too_soon now (last_attempt r) = false →
  attempts r >= max_attempts r →
  _attempt_recovery E now elapsed o m
    = _mark_recovery_failed now o "Max attempts exceeded" m.
Proof.
  intros Ho Hsoon Hmax. unfold _attempt_recovery. rewrite Ho, Hsoon.
  by rewrite decide_True.
Qed.

Lemma mark_recovery_failed_queue now o err m r :
  objects m !! o = Some r →
  recovery_queue (_mark_recovery_failed now o err m) = dequeue o (recovery_queue m).
Proof. intros Ho. unfold _mark_recovery_failed. by rewrite Ho. Qed.

Lemma mark_recovery_successful_queue now o rt m r :
  objects m !! o = Some r →
  recovery_queue (_mark_recovery_successful now o rt m) = dequeue o (recovery_queue m).
Proof. intros Ho. unfold _mark_recovery_successful. by rewrite Ho. Qed.

(** Every call that is not stopped by the retry delay takes the record out
    of the queue, whether the repair succeeds or fails: a record is attempted
    once per stay in the queue. *)
Lemma attempt_recovery_dequeues E now elapsed o m r :
  objects m !! o = Some r →
  retry_too_soon now (last_attempt r) = false →
  recovery_queue (_attempt_recovery E now elapsed o m) = dequeue o (recovery_queue m).
Proof.
  intros Ho Hsoon. unfold _attempt_recovery. rewrite Ho, Hsoon.
  case_decide; [by eapply mark_recovery_failed_queue|].
  match goal with |- context [set_object o ?r' m] => set (m1 := set_object o r' m) end.
  assert (Ho1 : objects m1 !! o = Some (begin_attempt now r)).
  { unfold m1. simpl. apply list_lookup_insert_eq. by eapply lookup_lt_Some. }
  destruct (get_file _ _) as [file_info|];
    [|by erewrite mark_recovery_failed_queue].
  match goal with |- context [let '(_, _) := ?s in _] => destruct s as [success d] end.
  destruct success.
  - by erewrite mark_recovery_successful_queue.
  - by erewrite mark_recovery_failed_queue.
Qed.

(** The two guards of [_attempt_recovery], for a record [r] behind the
    reference [o]:
    - a call less than 300 s after the last attempt changes nothing;
    - otherwise, once [attempts] has reached [max_attempts], the call
      removes the record from the queue, marks it failed with the message
      "Max attempts exceeded", appends the entry to the history and counts
      the failure, and it runs no repair: the database, the attempt counter
      and the time of the last attempt are as before. *)
Lemma attempt_recovery_guards (E : environment) (now elapsed : Z) (o : nat)
    (m : AdvancedRecoveryManager) (r : FileRecoveryRecord) :
  objects m !! o = Some r →
  NoDup (recovery_queue m) →
  (∀ t, last_attempt r = Some t → now - t < seconds 300 →
        _attempt_recovery E now elapsed o m = m) ∧
  ((last_attempt r = None ∨ ∃ t, last_attempt r = Some t ∧ seconds 300 ≤ now - t) →
   attempts r >= max_attempts r →
   let m' := _attempt_recovery E now elapsed o m in
   recovery_queue m' = filter (λ o', o' ≠ o) (recovery_queue m) ∧
   (o ∉ recovery_queue m') ∧
   objects m' = <[o:=set_outcome "failed" (Some "Max attempts exceeded") r]> (objects m) ∧
   last (recovery_history m')
     = Some (HistoryEntry (file_id r) (filename r) now false 0 (attempts r)
               (priority r) (strategy r) (Some "Max attempts exceeded")) ∧
   failed_recoveries (stats m') = failed_recoveries (stats m) + 1 ∧
   pending_recoveries (stats m') = Z.of_nat (length (recovery_queue m')) ∧
   db m' = db m).
Proof.
  intros Ho Hnd. split_and!.
  - intros t Ht Hlt. unfold _attempt_recovery. rewrite Ho, Ht. simpl.
    rewrite bool_decide_eq_true_2; [done|]. unfold retry_delay. exact Hlt.
  - intros Hlast Hmax.
    assert (retry_too_soon now (last_attempt r) = false) as Hsoon.
    { destruct Hlast as [->|(t & -> & Ht)]; [done|]. by apply retry_too_soon_false. }
    simpl. rewrite (attempt_recovery_exhausted E now elapsed o m r) by done.
    unfold _mark_recovery_failed. rewrite Ho. simpl.
    rewrite dequeue_filter by done.
    split_and!; try done.
    + rewrite list_elem_of_filter. tauto.
    + apply add_to_history_last.
Qed.

End Attempts.

(** ** The integrity verifier and the corruption scan *)

Section VerifierRows.
Import Schema Replication.

Lemma set_status_set_status now s s' r :
  set_status now s (set_status now s' r) = set_status now s r.
Proof. done. Qed.

(** An UPDATE of the pair (f, n) rewrites the rows of that pair and of no
    other. *)
Lemma pair_rows_update now f n s fid nid d :
  pair_rows fid nid (update_replica_status now f n s d)
    = if decide (f = fid ∧ n = nid)
      then set_status now s <$> pair_rows fid nid d
      else pair_rows fid nid d.
Proof.
  unfold pair_rows, update_replica_status. simpl.
  rewrite filter_fmap_stable by (intros r; case_decide; done).
  case_decide as Hfn.
  - destruct Hfn as [-> ->]. apply Forall_fmap_ext_1, Forall_forall.
    intros r Hr. apply list_elem_of_filter in Hr as [Hr _].
    by rewrite decide_True.
  - rewrite <- (list_fmap_id (filter _ (replicas d))) at 2.
    apply Forall_fmap_ext_1, Forall_forall.
    intros r Hr. apply list_elem_of_filter in Hr as [[Hf Hn] _].
    rewrite decide_False; [done|]. intros [? ?]. apply Hfn. split; congruence.
Qed.

Lemma get_replicas_update_other now f n s fid d :
  f ≠ fid →
  get_replicas fid (update_replica_status now f n s d) = get_replicas fid d.
Proof.
  intros Hne. unfold get_replicas, update_replica_status. simpl.
  rewrite filter_fmap_stable by (intros r; case_decide; done).
  rewrite <- (list_fmap_id (filter _ (replicas d))) at 2.
  apply Forall_fmap_ext_1, Forall_forall.
  intros r Hr. apply list_elem_of_filter in Hr as [Hf _].
  rewrite decide_False; [done|]. intros [? ?]. congruence.
Qed.

Lemma files_update_replica_status now f n s d :
  files (update_replica_status now f n s d) = files d.
Proof. done. Qed.
End VerifierRows.

Section Verifier.
Import Schema Replication.
Context (E : environment) (now : Z).
Context (fid expected : string) (replica : replica_row).
Context (response : response) (actual : option string).
Hypothesis Hactive : r_status replica = "active".
Hypothesis Hget :
  requests_get E (r_node_address replica +:+ "/verify/" +:+ fid) = Some response.
Hypothesis Hstatus : status_code response = 200.
Hypothesis Hjson : json_checksum E (content response) = Some actual.
Hypothesis Hdiffer : actual ≠ Some expected.

Local Abbreviation nid := (r_node_id replica).

Lemma verify_replica_pending f e acc y :
  unjudged now fid replica acc.1 ∨ judged now fid replica acc.1 →
  unjudged now fid replica (verify_replica E now f e acc y).1 ∨
  judged now fid replica (verify_replica E now f e acc y).1.
Proof.
  destruct acc as [d [v c]]. unfold verify_replica. cbn [fst snd]. intros HP.
  destruct (decide (r_status y ≠ "active")); [done|].
  destruct (requests_get E (r_node_address y +:+ "/verify/" +:+ f)) as [resp|];
    [|done].
  destruct (decide (status_code resp = 200)); [|done].
  destruct (json_checksum E (content resp)) as [a|]; [|done].
  unfold unjudged, judged in *.
  destruct (decide (a = Some e)); cbn [fst snd]; rewrite pair_rows_update;
    destruct (decide (f = fid ∧ r_node_id y = nid)); try done.
  - left. right. destruct HP as [[->| ->]| ->]; done.
  - right. destruct HP as [[->| ->]| ->]; done.
Qed.

(** A row of another pair, or a row that is not active, leaves the rows of
    the pair alone. *)
Lemma verify_replica_other f e acc y :
  (f = fid → r_node_id y = nid → r_status y ≠ "active") →
  pair_rows fid nid (verify_replica E now f e acc y).1 = pair_rows fid nid acc.1.
Proof.
  destruct acc as [d [v c]]. unfold verify_replica. cbn [fst snd]. intros Hy.
  destruct (decide (r_status y ≠ "active")) as [|Hst]; [done|].
  destruct (requests_get E (r_node_address y +:+ "/verify/" +:+ f)) as [resp|];
    [|done].
  destruct (decide (status_code resp = 200)); [|done].
  destruct (json_checksum E (content resp)) as [a|]; [|done].
  destruct (decide (a = Some e)); cbn [fst snd]; rewrite pair_rows_update;
    destruct (decide (f = fid ∧ r_node_id y = nid)) as [Hp|]; try done.
  all: destruct Hp as [-> Hn]; destruct Hst; by apply Hy.
Qed.

Lemma verify_replicas_other f e rows acc :
  Forall (λ y, f = fid → r_node_id y = nid → r_status y ≠ "active") rows →
  pair_rows fid nid (foldl (verify_replica E now f e) acc rows).1
    = pair_rows fid nid acc.1.
Proof.
  revert acc. induction rows as [|y rows IH]; intros acc Hall; [done|].
  apply Forall_cons in Hall as [Hy Hall]. simpl.
  rewrite IH by done. by apply verify_replica_other.
Qed.

(** The step on the row itself: the node answers another checksum. *)
Lemma verify_replica_judges acc x :
  r_status x = "active" → r_node_id x = nid →
  r_node_address x = r_node_address replica →
  pair_rows fid nid acc.1 = [x] →
  set_status now "corrupted" x = set_status now "corrupted" replica →
  judged now fid replica (verify_replica E now fid expected acc x).1.
Proof.
  destruct acc as [d [v c]]. unfold verify_replica. cbn [fst snd].
  intros Hst Hn Ha Hrows Hx.
  rewrite decide_False by (intros Hne; by apply Hne).
  rewrite Ha, Hget, decide_True, Hjson by done.
  rewrite decide_False by done. simpl.
  unfold judged. rewrite pair_rows_update, decide_True by done.
  rewrite Hrows. simpl. by rewrite Hx.
Qed.

Lemma verify_replicas_judge rows acc x :
  r_status x = "active" → r_node_id x = nid →
  r_node_address x = r_node_address replica →
  set_status now "corrupted" x = set_status now "corrupted" replica →
  filter (λ y, r_node_id y = nid) rows = [x] →
  pair_rows fid nid acc.1 = [x] →
  judged now fid replica (foldl (verify_replica E now fid expected) acc rows).1.
Proof.
  intros Hst Hn Ha Hx. revert acc.
  induction rows as [|y rows IH]; intros acc Hfilter Hrows; [done|].
  rewrite filter_cons in Hfilter. simpl. case_decide as Hy.
  - injection Hfilter as -> Hnone.
    unfold judged. rewrite verify_replicas_other.
    + by apply verify_replica_judges.
    + apply Forall_forall. intros z Hz _ Hzn. exfalso.
      assert (z ∈ filter (λ y, r_node_id y = nid) rows) as Hin
        by (apply list_elem_of_filter; done).
      rewrite Hnone in Hin. by apply elem_of_nil in Hin.
  - apply IH; [done|]. rewrite verify_replica_other; [done|]. intros _ ?. done.
Qed.

Lemma node_rows_of_snapshot d :
  filter (λ y, r_node_id y = nid) (get_replicas fid d) = pair_rows fid nid d.
Proof.
  unfold get_replicas, pair_rows. rewrite list_filter_filter.
  apply list_filter_iff. intros r. tauto.
Qed.

Lemma verify_file_pending acc file :
  unjudged now fid replica acc.1 ∨ judged now fid replica acc.1 →
  unjudged now fid replica (verify_file E now acc file).1 ∨ judged now fid replica (verify_file E now acc file).1.
Proof.
  unfold verify_file. destruct (truthy _); [|done].
  generalize (get_replicas (f_file_id (l_file file)) acc.1). intros rows.
  revert acc. induction rows as [|y rows IH]; intros acc HP; [done|].
  simpl. apply IH. by apply verify_replica_pending.
Qed.

Lemma verify_file_judged acc file :
  judged now fid replica acc.1 → judged now fid replica (verify_file E now acc file).1.
Proof.
  unfold verify_file. destruct (truthy _); [|done]. intros HQ.
  unfold judged. rewrite verify_replicas_other; [done|].
  apply Forall_forall. intros y Hy Hf Hn.
  assert (y ∈ pair_rows fid nid acc.1) as Hin.
  { rewrite <- node_rows_of_snapshot, <- Hf. apply list_elem_of_filter. done. }
  rewrite HQ in Hin. apply list_elem_of_singleton in Hin as ->. done.
Qed.

Lemma verify_file_judges acc file :
  f_file_id (l_file file) = fid →
  f_checksum (l_file file) = Some expected → expected ≠ "" →
  unjudged now fid replica acc.1 ∨ judged now fid replica acc.1 →
  judged now fid replica (verify_file E now acc file).1.
Proof.
  intros Hfid Hsum Hne [HP|HQ]; [|by apply verify_file_judged].
  unfold verify_file. rewrite Hsum, Hfid. simpl.
  destruct (String.eqb_spec expected "") as [?|_]; [done|]. simpl.
  destruct HP as [HP|HP].
  - apply (verify_replicas_judge _ _ replica); try done.
    by rewrite node_rows_of_snapshot.
  - apply (verify_replicas_judge _ _ (set_status now "active" replica)); try done.
    by rewrite node_rows_of_snapshot.
Qed.

(** The whole pass over a list of files in which the file occurs. *)
Lemma verify_files_judge files acc file :
  file ∈ files →
  f_file_id (l_file file) = fid →
  f_checksum (l_file file) = Some expected → expected ≠ "" →
  pair_rows fid nid acc.1 = [replica] →
  judged now fid replica (foldl (verify_file E now) acc files).1.
Proof.
  intros Hin Hfid Hsum Hne Hrows.
  apply list_elem_of_split in Hin as (l1 & l2 & ->).
  rewrite foldl_app. simpl.
  assert (HP : ∀ l acc, unjudged now fid replica acc.1 ∨ judged now fid replica acc.1 →
            unjudged now fid replica (foldl (verify_file E now) acc l).1 ∨
            judged now fid replica (foldl (verify_file E now) acc l).1).
  { induction l as [|f l IH]; intros a Ha; [done|].
    simpl. apply IH. by apply verify_file_pending. }
  assert (HQ : ∀ l acc, judged now fid replica acc.1 → judged now fid replica (foldl (verify_file E now) acc l).1).
  { induction l as [|f l IH]; intros a Ha; [done|].
    simpl. apply IH. by apply verify_file_judged. }
  apply HQ. apply verify_file_judges; try done.
  apply HP. left. by left.
Qed.

Lemma verify_replicas_pass m file :
  file ∈ list_files 1000 0 (db m) →
  f_file_id (l_file file) = fid →
  f_checksum (l_file file) = Some expected → expected ≠ "" →
  pair_rows fid nid (db m) = [replica] →
  pair_rows fid nid (db (_verify_replicas E now m))
    = [set_status now "corrupted" replica].
Proof.
  intros Hin Hfid Hsum Hne Hrows. unfold _verify_replicas.
  pose proof (verify_files_judge (list_files 1000 0 (db m)) (db m, (0, 0)) file
                Hin Hfid Hsum Hne Hrows) as HQ.
  destruct (foldl _ _ _) as [d [v c]]. exact HQ.
Qed.

Lemma verify_files_keep_files files acc :
  Schema.files (foldl (verify_file E now) acc files).1 = Schema.files acc.1.
Proof.
  revert acc. induction files as [|f fs IH]; intros acc; [done|].
  simpl. rewrite IH. unfold verify_file. destruct (truthy _); [|done].
  generalize (get_replicas (f_file_id (l_file f)) acc.1). intros rows.
  revert acc. clear IH. induction rows as [|y rows IH]; intros acc; [done|].
  simpl. rewrite IH. destruct acc as [d [v c]]. unfold verify_replica. cbn [fst snd].
  repeat (case_decide || case_match); done.
Qed.

End Verifier.

Section Scanner.
Import Schema Recovery.

Lemma elem_of_insert_desc {A} (key : A → Z) x l z :
  z ∈ insert_desc key x l ↔ z = x ∨ z ∈ l.
Proof.
  induction l as [|y l IH]; simpl.
  - rewrite list_elem_of_singleton, elem_of_nil. tauto.
  - case_decide; rewrite !elem_of_cons; [|rewrite IH]; tauto.
Qed.

Lemma elem_of_sort_desc {A} (key : A → Z) l z : z ∈ sort_desc key l ↔ z ∈ l.
Proof.
  induction l as [|y l IH]; [done|].
  unfold sort_desc in *. simpl. rewrite elem_of_insert_desc, IH, elem_of_cons. done.
Qed.

Lemma list_files_rows limit offset d :
  l_file <$> list_files limit offset d
    = (if decide (limit < 0) then id else take (Z.to_nat limit))
        (drop (Z.to_nat offset)
           (sort_desc f_upload_timestamp (sort_asc f_file_id (files d)))).
Proof.
  unfold list_files. cbv zeta. case_decide.
  - rewrite fmap_drop, <- list_fmap_compose. by rewrite list_fmap_id.
  - rewrite fmap_take, fmap_drop, <- list_fmap_compose. by rewrite list_fmap_id.
Qed.

Lemma list_files_same_rows limit offset d d' file :
  files d' = files d → file ∈ list_files limit offset d →
  ∃ file', file' ∈ list_files limit offset d' ∧ l_file file' = l_file file.
Proof.
  intros Hfiles Hin.
  apply (list_elem_of_fmap_2 l_file) in Hin.
  rewrite list_files_rows, <- Hfiles, <- list_files_rows in Hin.
  apply list_elem_of_fmap in Hin as (file' & Heq & Hin'). eauto.
Qed.

Lemma add_to_recovery_queue_db now fid fname strat prio m :
  db (add_to_recovery_queue now fid fname strat prio m) = db m.
Proof. unfold add_to_recovery_queue. by case_decide. Qed.

Lemma add_to_recovery_queue_queued now fid fname strat prio m :
  fid ∈ queued_file_ids (add_to_recovery_queue now fid fname strat prio m).
Proof.
  unfold add_to_recovery_queue. case_decide; [done|].
  unfold queued_file_ids. simpl. apply list_elem_of_omap.
  exists (length (objects m)). split.
  - apply elem_of_sort_desc, elem_of_app. right. left.
  - by rewrite list_lookup_middle.
Qed.

Lemma add_to_recovery_queue_keeps now fid fname strat prio m f :
  f ∈ queued_file_ids m →
  f ∈ queued_file_ids (add_to_recovery_queue now fid fname strat prio m).
Proof.
  intros Hf. unfold add_to_recovery_queue. case_decide; [done|].
  unfold queued_file_ids in *. simpl.
  apply list_elem_of_omap in Hf as (o & Ho & Hlook).
  apply list_elem_of_omap. exists o. split.
  - apply elem_of_sort_desc, elem_of_app. by left.
  - destruct (objects m !! o) as [r|] eqn:Hr; [|done].
    rewrite lookup_app_l by (by eapply lookup_lt_Some). by rewrite Hr.
Qed.

Lemma add_to_recovery_queue_for_corruption now fid f fname m :
  enqueued_for_corruption fid m →
  enqueued_for_corruption fid (add_to_recovery_queue now f fname IMMEDIATE 15 m).
Proof.
  intros HS. unfold add_to_recovery_queue. case_decide; [done|].
  intros o r Ho Hr Hfid. simpl in *.
  apply elem_of_sort_desc, elem_of_app in Ho.
  destruct (decide (o < length (objects m))%nat) as [Hlt|Hge].
  - rewrite lookup_app_l in Hr by done.
    destruct Ho as [Ho|Ho]; [by eapply HS|].
    apply list_elem_of_singleton in Ho. lia.
  - destruct (decide (o = length (objects m))) as [->|Hne].
    + rewrite list_lookup_middle in Hr by done. injection Hr as <-. done.
    + rewrite lookup_ge_None_2 in Hr; [done|]. rewrite length_app. simpl. lia.
Qed.

Lemma not_queued_for_corruption fid m :
  fid ∉ queued_file_ids m → enqueued_for_corruption fid m.
Proof.
  intros Hnot o r Ho Hr Hfid. destruct Hnot.
  apply list_elem_of_omap. exists o. split; [done|]. by rewrite Hr, <- Hfid.
Qed.

Lemma check_corrupted_db now m file : db (check_corrupted now m file) = db m.
Proof.
  unfold check_corrupted. case_decide; [|done]. apply add_to_recovery_queue_db.
Qed.

Lemma check_corrupted_fold_db now files m :
  db (foldl (check_corrupted now) m files) = db m.
Proof.
  revert m. induction files as [|f fs IH]; intros m; [done|].
  simpl. rewrite IH. apply check_corrupted_db.
Qed.

Lemma check_corrupted_fold_keeps now files m fid :
  fid ∈ queued_file_ids m →
  fid ∈ queued_file_ids (foldl (check_corrupted now) m files).
Proof.
  revert m. induction files as [|f fs IH]; intros m Hq; [done|].
  simpl. apply IH. unfold check_corrupted. case_decide; [|done].
  by apply add_to_recovery_queue_keeps.
Qed.

Lemma check_corrupted_fold_for_corruption now files m fid :
  enqueued_for_corruption fid m →
  enqueued_for_corruption fid (foldl (check_corrupted now) m files).
Proof.
  revert m. induction files as [|f fs IH]; intros m HS; [done|].
  simpl. apply IH. unfold check_corrupted. case_decide; [|done].
  by apply add_to_recovery_queue_for_corruption.
Qed.

(** The scan enqueues every listed file that has a corrupted replica. *)
Lemma check_corrupted_replicas_enqueues now m file row :
  file ∈ list_files 1000 0 (db m) →
  row ∈ get_replicas (f_file_id (l_file file)) (db m) →
  r_status row = "corrupted" →
  f_file_id (l_file file) ∈ queued_file_ids (_check_corrupted_replicas now m).
Proof.
  intros Hin Hrow Hst. unfold _check_corrupted_replicas.
  apply list_elem_of_split in Hin as (l1 & l2 & ->).
  rewrite foldl_app. simpl. apply check_corrupted_fold_keeps.
  set (m1 := foldl (check_corrupted now) m l1).
  assert (db m1 = db m) as Hdb by apply check_corrupted_fold_db.
  unfold check_corrupted. rewrite Hdb.
  rewrite decide_True; [apply add_to_recovery_queue_queued|].
  assert (row ∈ filter (λ r, r_status r = "corrupted")
                  (get_replicas (f_file_id (l_file file)) (db m))) as Hf
    by (apply list_elem_of_filter; done).
  destruct (filter _ _); [by apply elem_of_nil in Hf | simpl; lia].
Qed.

End Scanner.

Section VerifierAndScanner.
Import Schema.

(** C4, as the code has it. When the node of an active replica answers the
    verify request with status 200 and a checksum other than the stored,
    non-empty one, one pass of the verifier (over a listing that has the
    file, the pair having this one row) sets the status of the replica to
    corrupted and leaves the recovery queue as it was.  The file is
    enqueued by the corruption scan that runs next: after it the file is in
    the queue, and if it was not queued before, its record has priority 15
    and the immediate strategy. *)
Theorem verifier_marks_corrupted_scanner_enqueues
    (E : environment) (now now' : Z) (c : Naming.coordinator)
    (file : file_listing) (expected : string) (replica : replica_row)
    (answer : response) (actual : option string) :
  let d := Replication.db (Naming.replication_mgr c) in
  let fid := f_file_id (l_file file) in
  let nid := r_node_id replica in
  file ∈ list_files 1000 0 d →
  f_checksum (l_file file) = Some expected → expected ≠ "" →
  pair_rows fid nid d = [replica] →
  r_status replica = "active" →
  requests_get E (r_node_address replica +:+ "/verify/" +:+ fid) = Some answer →
  status_code answer = 200 →
  json_checksum E (content answer) = Some actual →
  actual ≠ Some expected →
  let c1 := Naming.verification_pass E now c in
  let c2 := Naming.corruption_scan now' c1 in
  pair_rows fid nid (Replication.db (Naming.replication_mgr c1))
    = [set_status now "corrupted" replica] ∧
  Recovery.recovery_queue (Naming.advanced_recovery c1)
    = Recovery.recovery_queue (Naming.advanced_recovery c) ∧
  Recovery.objects (Naming.advanced_recovery c1)
    = Recovery.objects (Naming.advanced_recovery c) ∧
  fid ∈ Recovery.queued_file_ids (Naming.advanced_recovery c2) ∧
  (fid ∉ Recovery.queued_file_ids (Naming.advanced_recovery c) →
   enqueued_for_corruption fid (Naming.advanced_recovery c2)).
Proof.
  intros d fid nid Hin Hsum Hne Hrows Hact Hget Hst Hjson Hdiff c1 c2.
  pose proof (verify_replicas_pass E now fid expected replica answer actual
                Hact Hget Hst Hjson Hdiff (Naming.replication_mgr c) file
                Hin eq_refl Hsum Hne Hrows) as Hpass.
  set (d1 := Replication.db (Replication._verify_replicas E now (Naming.replication_mgr c)))
    in *.
  assert (Hfiles : files d1 = files d).
  { unfold d1, Replication._verify_replicas.
    pose proof (verify_files_keep_files E now (list_files 1000 0 d) (d, (0, 0))) as Hk.
    fold d. destruct (foldl _ _ _) as [d' [v k]]. exact Hk. }
  destruct (list_files_same_rows 1000 0 d d1 file Hfiles Hin) as (file' & Hin' & Hrow').
  assert (Hcorr : set_status now "corrupted" replica ∈ get_replicas fid d1).
  { assert (set_status now "corrupted" replica ∈ pair_rows fid nid d1) as Hp
      by (fold nid in Hpass; rewrite Hpass; left).
    apply list_elem_of_filter in Hp as [[Hf _] Hp].
    apply list_elem_of_filter. done. }
  split_and!.
  - exact Hpass.
  - done.
  - done.
  - unfold c2, Naming.corruption_scan. simpl.
    unfold Recovery.queued_file_ids. simpl.
    change (fid ∈ Recovery.queued_file_ids
              (Recovery._check_corrupted_replicas now'
                 (Recovery.set_db d1 (Naming.advanced_recovery c)))).
    unfold fid. rewrite <- Hrow'.
    apply (check_corrupted_replicas_enqueues now' _ file'
             (set_status now "corrupted" replica)); [exact Hin' | | done].
    rewrite Hrow'. exact Hcorr.
  - intros Hnot. unfold c2, Naming.corruption_scan.
    intros o r Ho Hr Hfid. simpl in Ho, Hr.
    eapply (check_corrupted_fold_for_corruption now' _
              (Recovery.set_db d1 (Naming.advanced_recovery c)) fid);
      [|exact Ho|exact Hr|exact Hfid].
    by apply not_queued_for_corruption.
Qed.

End VerifierAndScanner.

(** ** Disaster recovery *)

Section Disaster.
Import Schema Recovery.
Context (E : environment).

Lemma upload_accepted_or_not file_id file_data node :
  upload_accepted E file_id file_data node ∨ ¬ upload_accepted E file_id file_data node.
Proof.
  unfold upload_accepted.
  destruct (requests_post E _ file_data) as [answer|].
  - destruct (decide (status_code answer = 200)).
    + left. eauto.
    + right. intros (a & Ha & Hs). congruence.
  - right. intros (a & Ha & Hs). congruence.
Qed.

Lemma restore_to_accepted file_id file_data acc node :
  upload_accepted E file_id file_data node →
  (restore_to E file_id file_data acc node).2 = acc.2 + 1.
Proof.
  intros (answer & Hpost & Hs). unfold restore_to. rewrite Hpost.
  by rewrite decide_True.
Qed.

Lemma restore_to_refused file_id file_data acc node :
  ¬ upload_accepted E file_id file_data node →
  restore_to E file_id file_data acc node = acc.
Proof.
  intros Hno. unfold restore_to, upload_accepted in *.
  destruct (requests_post E _ file_data) as [answer|]; [|done].
  destruct (decide (status_code answer = 200)); [|done].
  destruct Hno. eauto.
Qed.

Lemma restore_from_data_succeeds now file_id file_data d :
  (_restore_from_data E now file_id file_data d).1 = true ↔
  ∃ node1 node2 others d',
    get_active_nodes now 30 d = (node1 :: node2 :: others, d') ∧
    upload_accepted E file_id file_data node1 ∧
    upload_accepted E file_id file_data node2.
Proof.
  unfold _restore_from_data.
  destruct (get_active_nodes now 30 d) as [nodes d1].
  destruct nodes as [|node1 [|node2 others]].
  1, 2: simpl; split; [done|]; intros (? & ? & ? & ? & Heq & _); discriminate.
  rewrite decide_False by (simpl; lia).
  change (take 2 (node1 :: node2 :: others)) with [node1; node2].
  cbn [foldl].
  destruct (upload_accepted_or_not file_id file_data node1) as [H1|H1];
    destruct (upload_accepted_or_not file_id file_data node2) as [H2|H2].
  - pose proof (restore_to_accepted file_id file_data (d1, 0) node1 H1) as Hc1.
    pose proof (restore_to_accepted file_id file_data
                  (restore_to E file_id file_data (d1, 0) node1) node2 H2) as Hc2.
    destruct (restore_to E _ _ (restore_to E _ _ _ _) _) as [d2 n].
    cbn [fst snd] in *. split.
    + intros _. exists node1, node2, others, d1. done.
    + intros _. apply bool_decide_eq_true. lia.
  - rewrite (restore_to_refused _ _ _ node2 H2).
    pose proof (restore_to_accepted file_id file_data (d1, 0) node1 H1) as Hc1.
    destruct (restore_to E _ _ _ _) as [d2 n]. cbn [fst snd] in *. split.
    + intros Hn. apply bool_decide_eq_true in Hn. lia.
    + intros (? & ? & ? & ? & Heq & _ & Hacc). by simplify_eq.
  - rewrite (restore_to_refused _ _ _ node1 H1).
    pose proof (restore_to_accepted file_id file_data (d1, 0) node2 H2) as Hc2.
    destruct (restore_to E _ _ _ _) as [d2 n]. cbn [fst snd] in *. split.
    + intros Hn. apply bool_decide_eq_true in Hn. lia.
    + intros (? & ? & ? & ? & Heq & Hacc & _). by simplify_eq.
  - rewrite (restore_to_refused _ _ _ node1 H1), (restore_to_refused _ _ _ node2 H2).
    cbn [fst snd]. split.
    + intros Hn. apply bool_decide_eq_true in Hn. lia.
    + intros (? & ? & ? & ? & Heq & Hacc & _). by simplify_eq.
Qed.

Lemma recover_from_skips now file replica rest d :
  disqualified E file replica →
  recover_from E now file (replica :: rest) d = recover_from E now file rest d.
Proof.
  intros Hno. simpl.
  destruct (requests_get E _) as [answer|] eqn:Hget; [|done].
  destruct (decide (status_code answer = 200)); [|done].
  destruct (decide (Some _ = f_checksum file)); [|done].
  destruct Hno. exists (content answer), answer. done.
Qed.

Lemma recover_from_restores now file replica rest d file_data :
  serves E file replica file_data →
  recover_from E now file (replica :: rest) d
    = _restore_from_data E now (f_file_id file) file_data d.
Proof.
  intros (answer & Hget & Hs & Hc & Hsum). simpl. rewrite Hget.
  rewrite decide_True by done. rewrite Hc. by rewrite decide_True.
Qed.

Lemma serves_or_disqualified file replica :
  (∃ file_data, serves E file replica file_data) ∨ disqualified E file replica.
Proof.
  unfold disqualified, serves.
  destruct (requests_get E _) as [answer|].
  - destruct (decide (status_code answer = 200)).
    + destruct (decide (Some (sha256_hexdigest E (content answer)) = f_checksum file)).
      * left. exists (content answer), answer. done.
      * right. intros (fd & a & Ha & _ & Hc & Hsum). by simplify_eq.
    + right. intros (fd & a & Ha & Hs & _). by simplify_eq.
  - right. intros (fd & a & Ha & _). done.
Qed.

(** C5. Disaster recovery reports success exactly when, going through the
    inactive replicas in order and skipping each one that is disqualified
    (no answer, another status, or bytes whose SHA-256 is not the stored
    checksum), it reaches a replica that serves matching bytes, two active
    nodes exist, and the restore uploads of those bytes to the first two
    active nodes both answer 200.  A disqualified replica is skipped and the
    next one is tried. *)
Theorem disaster_recovery_succeeds_iff (now : Z)
    (file_info : file_row * list replica_row) (d : DFSDatabase) :
  let file := file_info.1 in
  let inactive_replicas := filter (λ r, r_status r = "inactive") file_info.2 in
  ((_recover_from_backup E now file_info d).1 = true ↔
   ∃ skipped replica rest file_data node1 node2 others d',
     inactive_replicas = skipped ++ replica :: rest ∧
     Forall (disqualified E file) skipped ∧
     serves E file replica file_data ∧
     get_active_nodes now 30 d = (node1 :: node2 :: others, d') ∧
     upload_accepted E (f_file_id file) file_data node1 ∧
     upload_accepted E (f_file_id file) file_data node2) ∧
  (∀ replica rest,
     disqualified E file replica →
     recover_from E now file (replica :: rest) d = recover_from E now file rest d).
Proof.
  simpl. split; [|intros; by apply recover_from_skips].
  unfold _recover_from_backup.
  generalize (filter (λ r, r_status r = "inactive") file_info.2). intros l.
  induction l as [|x l IH].
  - simpl. split; [done|].
    intros (sk & r & rest & ? & ? & ? & ? & ? & Heq & _).
    by destruct sk.
  - destruct (serves_or_disqualified file_info.1 x) as [[fd Hfd]|Hno].
    + rewrite (recover_from_restores now _ x l d fd Hfd).
      rewrite restore_from_data_succeeds. split.
      * intros (n1 & n2 & others & d' & Hnodes & H1 & H2).
        exists [], x, l, fd, n1, n2, others, d'. done.
      * intros (sk & r & rest & fd' & n1 & n2 & others & d' & Heq & Hsk & Hr & Hn & H1 & H2).
        destruct sk as [|y sk].
        -- simpl in Heq. injection Heq as <- <-.
           assert (fd' = fd) as ->.
           { destruct Hr as (a & Ha & _ & Hc & _), Hfd as (a' & Ha' & _ & Hc' & _).
             congruence. }
           exists n1, n2, others, d'. done.
        -- simpl in Heq. injection Heq as <- _.
           apply Forall_cons in Hsk as [Hy _]. destruct Hy. eauto.
    + rewrite recover_from_skips by done. rewrite IH. split.
      * intros (sk & r & rest & fd & n1 & n2 & others & d' & Heq & Hsk & Hrest).
        exists (x :: sk), r, rest, fd, n1, n2, others, d'.
        rewrite Heq. split; [done|]. split; [by constructor|done].
      * intros (sk & r & rest & fd & n1 & n2 & others & d' & Heq & Hsk & Hr & Hrest).
        destruct sk as [|y sk].
        -- simpl in Heq. injection Heq as <- <-. destruct Hno. eauto.
        -- simpl in Heq. injection Heq as <- ->.
           apply Forall_cons in Hsk as [_ Hsk].
           exists sk, r, rest, fd, n1, n2, others, d'. done.
Qed.

End Disaster.

(** ** Worked states *)

Section Examples.
Import Schema.

(** The rebuild reports success whenever the file has an active replica. *)
Lemma replace_corrupted_replicas_answer E now file_info corrupted_replicas d :
  filter (λ r, r_status r = "active") file_info.2 ≠ [] →
  (Recovery._replace_corrupted_replicas E now file_info corrupted_replicas d).1 = true.
Proof.
  intros Hne. unfold Recovery._replace_corrupted_replicas.
  by destruct (filter _ _).
Qed.

(** C6 at the failing input: no upload is accepted, no replica is
    replaced, and the rebuild reports success; the attempt is booked as a
    successful recovery and the record leaves the queue, the replica on n3
    still being corrupted. *)
Theorem rebuild_reports_success_without_replacement :
  let file_info := (a_file (Some "aa"), replicas corrupted_on_n3) in
  let queued :=
    Recovery.add_to_recovery_queue 0 "f1" "report.pdf" Recovery.IMMEDIATE 15
      (Recovery.new_recovery_manager corrupted_on_n3) in
  let m := Recovery._attempt_recovery refusing_uploads 10 1 0 queued in
  Recovery._replace_corrupted_replicas refusing_uploads 10 file_info
    [a_replica 3 "n3" "corrupted"] corrupted_on_n3 = (true, corrupted_on_n3) ∧
  Recovery.recovery_queue queued = [0%nat] ∧
  Recovery.recovery_queue m = [] ∧
  Recovery.status <$> Recovery.objects m = ["success"] ∧
  Recovery.successful_recoveries (Recovery.stats m) = 1 ∧
  Recovery.failed_recoveries (Recovery.stats m) = 0 ∧
  r_status <$> replicas (Recovery.db m) = ["active"; "active"; "corrupted"].
Proof. vm_compute. done. Qed.

(** C4, as the document has it, fails: the pass marks the replica
    corrupted and enqueues nothing. *)
Lemma verification_pass_enqueues_nothing :
  let c := Naming.verification_pass tampered 10 (Naming.new_coordinator one_replica_db) in
  r_status <$> replicas (Replication.db (Naming.replication_mgr c)) = ["corrupted"] ∧
  Recovery.recovery_queue (Naming.advanced_recovery c) = [] ∧
  "f1" ∉ Recovery.queued_file_ids (Naming.advanced_recovery c).
Proof.
  split_and!; [vm_compute; done..|].
  vm_compute. apply not_elem_of_nil.
Qed.

Lemma verifier_marks_corrupted_scanner_enqueues_witness :
  let c := Naming.new_coordinator one_replica_db in
  let c1 := Naming.verification_pass tampered 10 c in
  let c2 := Naming.corruption_scan 20 c1 in
  pair_rows "f1" "n1" (Replication.db (Naming.replication_mgr c1))
    = [set_status 10 "corrupted" (a_replica 1 "n1" "active")] ∧
  "f1" ∈ Recovery.queued_file_ids (Naming.advanced_recovery c2) ∧
  enqueued_for_corruption "f1" (Naming.advanced_recovery c2).
Proof.
  pose proof (verifier_marks_corrupted_scanner_enqueues tampered 10 20
                (Naming.new_coordinator one_replica_db)
                (listing_of one_replica_db (a_file (Some "aa"))) "aa"
                (a_replica 1 "n1" "active")
                (Response 200 "{checksum: bb}") (Some "bb")) as H.
  cbv zeta in H.
  destruct H as (H1 & _ & _ & H4 & H5).
  - vm_compute. left.
  - reflexivity.
  - discriminate.
  - reflexivity.
  - reflexivity.
  - reflexivity.
  - reflexivity.
  - reflexivity.
  - discriminate.
  - split_and!; [exact H1 | exact H4 |]. apply H5.
    vm_compute. apply not_elem_of_nil.
Defined.

Lemma recovery_queue_stays_ordered_witness :
  let m := Recovery.add_to_recovery_queue 2 "f2" "b.txt" Recovery.PRIORITY 20
             (Recovery.add_to_recovery_queue 1 "f1" "a.txt" Recovery.PRIORITY 10
                (Recovery.new_recovery_manager init_database)) in
  Recovery.recovery_queue m = [1%nat; 0%nat] ∧ queue_ordered m.
Proof.
  split; [reflexivity|].
  refine (proj1 (recovery_queue_stays_ordered obliging init_database _ _)).
  eapply rtc_l; [apply step_enqueue|].
  eapply rtc_l; [apply step_enqueue|].
  apply rtc_refl.
Defined.

(** C7 at the failing input.  A file without any replica is queued and
    the main worker runs at 0, 300, 600 and 900 s.  The first round counts
    the attempt, the repair fails, and [_mark_recovery_failed] takes the
    record out of the queue with the message "Recovery operation failed"; the
    three later rounds find the queue empty and change nothing.  The record
    is not selected a second time: it ends with one attempt of three, and
    "Max attempts exceeded" is not reached.  With the proactive scan before
    every round the file is queued again each time, as a new record, which is
    again attempted once. *)
Theorem failed_record_is_not_selected_again (E : environment) :
  let queued :=
    Recovery.add_to_recovery_queue 0 "f1" "report.pdf" Recovery.PRIORITY 20
      (Recovery.new_recovery_manager lost_file_db) in
  let round t m := Recovery._process_recovery_queue E (seconds t) 0 m in
  let scan_round t m :=
    round t (Recovery._proactive_health_check (seconds t) m) in
  let m1 := round 0 queued in
  let m4 := round 900 (round 600 (round 300 m1)) in
  let s4 :=
    scan_round 900 (scan_round 600 (scan_round 300
      (scan_round 0 (Recovery.new_recovery_manager lost_file_db)))) in
  Recovery.objects m1
    = [Recovery.RecoveryRecord "f1" "report.pdf" Recovery.PRIORITY 20 1 3 (Some 0)
         "failed" (Some "Recovery operation failed") 0] ∧
  Recovery.recovery_queue m1 = [] ∧
  m4 = m1 ∧
  (λ r, (Recovery.attempts r, Recovery.error_message r)) <$> Recovery.objects s4
    = [(1, Some "Recovery operation failed"); (1, Some "Recovery operation failed");
       (1, Some "Recovery operation failed"); (1, Some "Recovery operation failed")] ∧
  Recovery.recovery_queue s4 = [] ∧
  Recovery.failed_recoveries (Recovery.stats s4) = 4.
Proof. cbv zeta. split_and!; vm_compute; reflexivity. Qed.

End Examples.

(** * Further properties of the code *)

(** ** Sorting *)

Lemma insert_desc_Permutation {A} (key : A → Z) x l :
  insert_desc key x l ≡ₚ x :: l.
Proof.
  induction l as [|y l IH]; simpl; [done|].
  case_decide; [done|]. rewrite IH. apply Permutation_swap.
Qed.

Lemma sort_desc_Permutation {A} (key : A → Z) l : sort_desc key l ≡ₚ l.
Proof.
  induction l as [|x l IH]; [done|].
  unfold sort_desc in *. simpl. by rewrite insert_desc_Permutation, IH.
Qed.

Lemma insert_desc_sorted {A} (key : A → Z) x l :
  StronglySorted (λ a b, key b ≤ key a) l →
  StronglySorted (λ a b, key b ≤ key a) (insert_desc key x l).
Proof.
  induction 1 as [|y l Hl IH Hy]; simpl; [repeat constructor|].
  case_decide as Hxy.
  - constructor; [by constructor|].
    constructor; [done|]. eapply Forall_impl; [exact Hy|]. simpl. lia.
  - constructor; [done|]. apply Forall_forall. intros z Hz.
    apply elem_of_insert_desc in Hz as [->|Hz]; [lia|].
    by eapply Forall_forall in Hy.
Qed.

Lemma sort_desc_sorted {A} (key : A → Z) l :
  StronglySorted (λ a b, key b ≤ key a) (sort_desc key l).
Proof.
  induction l as [|x l IH]; [constructor|].
  unfold sort_desc in *. simpl. by apply insert_desc_sorted.
Qed.

Lemma StronglySorted_filter {A} (R : relation A) (P : A → Prop)
    `{∀ x, Decision (P x)} l :
  StronglySorted R l → StronglySorted R (filter P l).
Proof.
  induction 1 as [|x l Hl IH Hx]; [constructor|].
  rewrite filter_cons. case_decide; [|done]. constructor; [done|].
  apply Forall_forall. intros y Hy. apply list_elem_of_filter in Hy as [_ Hy].
  by eapply Forall_forall in Hx.
Qed.

(** A stable sort commutes with a filter. *)
Lemma filter_insert_desc {A} (key : A → Z) (P : A → Prop) `{∀ x, Decision (P x)} x l :
  StronglySorted (λ a b, key b ≤ key a) l →
  filter P (insert_desc key x l)
    = if decide (P x) then insert_desc key x (filter P l) else filter P l.
Proof.
  induction 1 as [|y l Hl IH Hy]; simpl.
  - rewrite filter_cons, filter_nil. by case_decide.
  - destruct (decide (key y ≤ key x)) as [Hle|Hgt].
    + rewrite !filter_cons. destruct (decide (P x)), (decide (P y)); simpl; try done.
      * by rewrite decide_True.
      * symmetry. apply insert_desc_head. apply Forall_forall. intros z Hz.
        apply list_elem_of_filter in Hz as [_ Hz].
        eapply Forall_forall in Hy; [|exact Hz]. simpl in Hy. lia.
    + rewrite !filter_cons, IH.
      destruct (decide (P x)), (decide (P y)); simpl; try done.
      by rewrite decide_False.
Qed.

Lemma filter_sort_desc {A} (key : A → Z) (P : A → Prop) `{∀ x, Decision (P x)} l :
  filter P (sort_desc key l) = sort_desc key (filter P l).
Proof.
  induction l as [|x l IH]; [done|].
  change (sort_desc key (x :: l)) with (insert_desc key x (sort_desc key l)).
  rewrite filter_insert_desc by apply sort_desc_sorted.
  rewrite filter_cons, IH. by case_decide.
Qed.


(** The order of the primary key. *)
Lemma string_leb_trans s1 s2 s3 :
  String.leb s1 s2 = true → String.leb s2 s3 = true → String.leb s1 s3 = true.
Proof.
  unfold String.leb.
  assert (Hcmp : ∀ a b c,
            String.compare a b ≠ Gt → String.compare b c ≠ Gt →
            String.compare a c ≠ Gt).
  { clear. induction a as [|x a IH]; intros [|y b] [|z c]; simpl; try done.
    unfold Ascii.compare.
    destruct (N.compare_spec (Ascii.N_of_ascii x) (Ascii.N_of_ascii y)) as [Hxy|Hxy|Hxy];
      [|clear IH|done].
    - apply (f_equal Ascii.ascii_of_N) in Hxy.
      rewrite !Ascii.ascii_N_embedding in Hxy. subst y.
      destruct (N.compare_spec (Ascii.N_of_ascii x) (Ascii.N_of_ascii z)); try done.
      apply IH.
    - destruct (N.compare_spec (Ascii.N_of_ascii y) (Ascii.N_of_ascii z)) as [Hyz|Hyz|Hyz];
        [| |done]; intros _ _.
      + rewrite <- Hyz. by rewrite (proj2 (N.compare_lt_iff _ _) Hxy).
      + by rewrite (proj2 (N.compare_lt_iff _ _) (N.lt_trans _ _ _ Hxy Hyz)). }
  intros H12 H23. specialize (Hcmp s1 s2 s3).
  destruct (String.compare s1 s2), (String.compare s2 s3), (String.compare s1 s3);
    try done; exfalso; by apply Hcmp.
Qed.

Lemma insert_asc_Permutation {A} (key : A → string) x l :
  insert_asc key x l ≡ₚ x :: l.
Proof.
  induction l as [|y l IH]; simpl; [done|].
  destruct (String.leb _ _); [done|]. rewrite IH. apply Permutation_swap.
Qed.

Lemma sort_asc_Permutation {A} (key : A → string) l : sort_asc key l ≡ₚ l.
Proof.
  induction l as [|x l IH]; [done|].
  unfold sort_asc in *. simpl. by rewrite insert_asc_Permutation, IH.
Qed.

Lemma sort_asc_sorted {A} (key : A → string) l :
  StronglySorted (λ a b, String.leb (key a) (key b) = true) (sort_asc key l).
Proof.
  induction l as [|x l IH]; [constructor|].
  unfold sort_asc in *. simpl. revert IH.
  generalize (foldr (insert_asc key) [] l). clear l.
  induction 1 as [|y l Hl IH Hy]; simpl; [repeat constructor|].
  destruct (String.leb (key x) (key y)) eqn:Hxy.
  - constructor; [by constructor|].
    constructor; [done|]. eapply Forall_impl; [exact Hy|]. simpl.
    intros z Hz. by eapply string_leb_trans.
  - constructor; [done|]. apply Forall_forall. intros z Hz.
    rewrite insert_asc_Permutation in Hz. apply elem_of_cons in Hz as [->|Hz].
    + destruct (String.leb_total (key x) (key y)); congruence.
    + by eapply Forall_forall in Hy.
Qed.

(** [sort_desc] is stable: what was in order before stays in order among
    equal keys. *)
Lemma sort_desc_stable {A} (key : A → Z) (R : relation A) l :
  StronglySorted R l →
  StronglySorted (λ a b, key b < key a ∨ (key a = key b ∧ R a b)) (sort_desc key l).
Proof.
  induction 1 as [|x l Hl IH Hx]; [constructor|].
  change (sort_desc key (x :: l)) with (insert_desc key x (sort_desc key l)).
  assert (Hx' : Forall (R x) (sort_desc key l)).
  { apply Forall_forall. intros y Hy. apply elem_of_sort_desc in Hy.
    by eapply Forall_forall in Hx. }
  revert IH Hx'. generalize (sort_desc key l). clear.
  induction 1 as [|y s Hs IH Hy]; intros Hx; simpl; [repeat constructor|].
  apply Forall_cons in Hx as [Hxy Hx].
  case_decide as Hle.
  - constructor; [by constructor|].
    constructor.
    { destruct (decide (key y = key x)); [right; split; [lia|done]|left; lia]. }
    apply Forall_forall. intros z Hz.
    eapply Forall_forall in Hy; [|exact Hz]. eapply Forall_forall in Hx; [|exact Hz].
    simpl in *.
    destruct (decide (key z = key x)); [right; split; [lia|done]|left; lia].
  - constructor; [by apply IH|]. apply Forall_forall. intros z Hz.
    apply elem_of_insert_desc in Hz as [->|Hz]; [left; lia|].
    by eapply Forall_forall in Hy.
Qed.
(** ** The store: nodes *)

Section StoreNodes.
Import Schema.

Local Abbreviation fresh now timeout :=
  (λ n : node_row, now - n_last_heartbeat n < seconds timeout).
Local Abbreviation stale now timeout :=
  (λ n : node_row, ¬ now - n_last_heartbeat n < seconds timeout).

Lemma set_storage_nodes_same db : set_storage_nodes (storage_nodes db) db = db.
Proof. by destruct db. Qed.

Lemma set_replicas_same db : set_replicas (replicas db) db = db.
Proof. by destruct db. Qed.

Lemma list_fmap_same {A} (g : A → A) (l : list A) :
  Forall (λ x, g x = x) l → g <$> l = l.
Proof.
  intros Hall. rewrite <- (list_fmap_id l) at 2. by apply Forall_fmap_ext_1.
Qed.

Lemma marked_inactive_nil nodes : marked_inactive [] nodes = nodes.
Proof.
  unfold marked_inactive. apply list_fmap_same, Forall_forall. intros n _.
  rewrite decide_False; [done|]. apply not_elem_of_nil.
Qed.

Lemma mark_node_inactive_marked node_id ids db :
  marked_inactive ids (storage_nodes (mark_node_inactive node_id db))
    = marked_inactive (node_id :: ids) (storage_nodes db).
Proof.
  unfold marked_inactive, mark_node_inactive. simpl.
  rewrite <- list_fmap_compose. apply list_fmap_ext. intros i n _. simpl.
  destruct (decide (n_node_id n = node_id)) as [Heq|Hne]; simpl.
  - rewrite (decide_True (P := n_node_id n ∈ node_id :: ids))
      by (rewrite Heq; left).
    by case_decide.
  - destruct (decide (n_node_id n ∈ ids)) as [Hin|Hout].
    + by rewrite decide_True by (by right).
    + rewrite decide_False; [done|]. intros [?|?]%elem_of_cons; done.
Qed.

(** The loop of [get_active_nodes] in closed form: the fresh rows are
    returned, the ids of the others are marked inactive. *)
Lemma get_active_nodes_loop now timeout rows nodes db :
  foldl (λ '(nodes, db) node,
           if decide (now - n_last_heartbeat node < seconds timeout)
           then (nodes ++ [node], db)
           else (nodes, mark_node_inactive (n_node_id node) db))
        (nodes, db) rows
  = (nodes ++ filter (fresh now timeout) rows,
     set_storage_nodes
       (marked_inactive
          (n_node_id <$> filter (stale now timeout) rows)
          (storage_nodes db)) db).
Proof.
  revert nodes db. induction rows as [|x rows IH]; intros nodes db.
  - simpl. rewrite filter_nil, app_nil_r. simpl.
    by rewrite marked_inactive_nil, set_storage_nodes_same.
  - simpl. rewrite !filter_cons.
    destruct (decide (now - n_last_heartbeat x < seconds timeout)) as [Hf|Hs].
    + rewrite IH. rewrite decide_False by tauto. by rewrite <- app_assoc.
    + rewrite IH. rewrite decide_True by done.
      rewrite fmap_cons, mark_node_inactive_marked. done.
Qed.

Lemma get_active_nodes_closed now timeout db :
  get_active_nodes now timeout db
  = (filter (fresh now timeout)
       (sort_desc n_available_space
          (filter (λ n, n_status n = "active") (storage_nodes db))),
     set_storage_nodes
       (marked_inactive
          (n_node_id <$>
             filter (stale now timeout)
               (sort_desc n_available_space
                  (filter (λ n, n_status n = "active") (storage_nodes db))))
          (storage_nodes db)) db).
Proof. unfold get_active_nodes. by rewrite get_active_nodes_loop. Qed.

Lemma elem_of_get_active_nodes now timeout db n :
  n ∈ (get_active_nodes now timeout db).1 ↔
  n ∈ storage_nodes db ∧ n_status n = "active" ∧
  now - n_last_heartbeat n < seconds timeout.
Proof.
  rewrite get_active_nodes_closed. simpl.
  rewrite list_elem_of_filter, elem_of_sort_desc, list_elem_of_filter. tauto.
Qed.

Lemma get_active_nodes_rows now timeout db :
  files (get_active_nodes now timeout db).2 = files db ∧
  replicas (get_active_nodes now timeout db).2 = replicas db.
Proof. by rewrite get_active_nodes_closed. Qed.

(** X1. [get_active_nodes] returns exactly the rows that are stored as
    active and whose heartbeat is fresh, by available space in descending
    order; it writes neither files nor replicas. *)
Theorem get_active_nodes_fresh_and_sorted (now timeout : Z) (db : DFSDatabase) :
  (∀ n, n ∈ (get_active_nodes now timeout db).1 ↔
        n ∈ storage_nodes db ∧ n_status n = "active" ∧
        now - n_last_heartbeat n < seconds timeout) ∧
  StronglySorted (λ a b, n_available_space b ≤ n_available_space a)
                 (get_active_nodes now timeout db).1 ∧
  files (get_active_nodes now timeout db).2 = files db ∧
  replicas (get_active_nodes now timeout db).2 = replicas db.
Proof.
  split_and!; [intros n; apply elem_of_get_active_nodes | | apply get_active_nodes_rows..].
  rewrite get_active_nodes_closed. simpl.
  apply StronglySorted_filter, sort_desc_sorted.
Qed.

Lemma elem_of_marked_inactive ids nodes n' :
  n' ∈ marked_inactive ids nodes ↔
  ∃ n, n ∈ nodes ∧
       n' = if decide (n_node_id n ∈ ids) then set_node_status "inactive" n else n.
Proof.
  unfold marked_inactive. rewrite list_elem_of_fmap.
  split; intros (n & H1 & H2); exists n; done.
Qed.

Lemma NoDup_fmap_elem_eq {A B} (f : A → B) (l : list A) x y :
  NoDup (f <$> l) → x ∈ l → y ∈ l → f x = f y → x = y.
Proof.
  induction l as [|z l IH]; intros Hnd Hx Hy Hf; [by apply elem_of_nil in Hx|].
  rewrite fmap_cons in Hnd. apply NoDup_cons in Hnd as [Hz Hnd].
  apply elem_of_cons in Hx as [->|Hx]; apply elem_of_cons in Hy as [->|Hy].
  - done.
  - destruct Hz. rewrite Hf. by apply list_elem_of_fmap_2.
  - destruct Hz. rewrite <- Hf. by apply list_elem_of_fmap_2.
  - by apply IH.
Qed.

Lemma filter_marked_inactive_active ids nodes :
  filter (λ n, n_status n = "active") (marked_inactive ids nodes)
    = filter (λ n, n_status n = "active" ∧ n_node_id n ∉ ids) nodes.
Proof.
  unfold marked_inactive. induction nodes as [|n nodes IH]; [done|].
  rewrite fmap_cons, !filter_cons, IH.
  destruct (decide (n_node_id n ∈ ids)) as [Hin|Hout].
  - rewrite (decide_False (P := n_status (set_node_status "inactive" n) = "active"))
      by done.
    rewrite decide_False by tauto. done.
  - destruct (decide (n_status n = "active")).
    + by rewrite decide_True.
    + rewrite decide_False by tauto. done.
Qed.

Lemma filter_ext_in {A} (P Q : A → Prop) `{∀ x, Decision (P x)}
    `{∀ x, Decision (Q x)} (l : list A) :
  (∀ x, x ∈ l → (P x ↔ Q x)) → filter P l = filter Q l.
Proof.
  induction l as [|x l IH]; intros Hext; [done|].
  rewrite !filter_cons, IH by (intros y Hy; apply Hext; by right).
  destruct (decide (P x)) as [HP|HP], (decide (Q x)) as [HQ|HQ]; try done.
  - destruct HQ. apply Hext; [left|done].
  - destruct HP. apply Hext; [left|done].
Qed.

Lemma filter_filter_same {A} (P : A → Prop) `{∀ x, Decision (P x)} (l : list A) :
  filter P (filter P l) = filter P l.
Proof.
  rewrite list_filter_filter. apply list_filter_iff. intros x. tauto.
Qed.

Lemma filter_none_in {A} (P : A → Prop) `{∀ x, Decision (P x)} (l : list A) :
  (∀ x, x ∈ l → ¬ P x) → filter P l = [].
Proof.
  intros Hno. induction l as [|x l IH]; [done|].
  rewrite filter_cons, IH by (intros y Hy; apply Hno; by right).
  rewrite decide_False; [done|]. apply Hno. left.
Qed.

Lemma filter_all {A} (P : A → Prop) `{∀ x, Decision (P x)} (l : list A) :
  Forall P l → filter P l = l.
Proof.
  induction 1 as [|x l Hx Hl IH]; [done|].
  by rewrite filter_cons, decide_True, IH.
Qed.

Lemma filter_none {A} (P : A → Prop) `{∀ x, Decision (P x)} (l : list A) :
  (∀ x, ¬ P x) → filter P l = [].
Proof.
  intros Hno. induction l as [|x l IH]; [done|].
  rewrite filter_cons, IH. rewrite decide_False; [done|apply Hno].
Qed.

(** X2. After [get_active_nodes] no stored node is both active and stale.
    With unique node ids a second call at the same time returns the same
    nodes and changes nothing. *)
Theorem get_active_nodes_settles (now timeout : Z) (db : DFSDatabase) :
  let db' := (get_active_nodes now timeout db).2 in
  (∀ n, n ∈ storage_nodes db' → n_status n = "active" →
        now - n_last_heartbeat n < seconds timeout) ∧
  (NoDup (n_node_id <$> storage_nodes db) →
   get_active_nodes now timeout db' = get_active_nodes now timeout db).
Proof.
  simpl.
  set (rows := sort_desc n_available_space
                 (filter (λ n, n_status n = "active") (storage_nodes db))).
  set (stale_ids := n_node_id <$> filter (stale now timeout) rows).
  assert (Hstale : ∀ n, n ∈ storage_nodes db → n_status n = "active" →
            ¬ now - n_last_heartbeat n < seconds timeout → n_node_id n ∈ stale_ids).
  { intros n Hn Hact Hst. apply list_elem_of_fmap_2, list_elem_of_filter.
    split; [done|]. apply elem_of_sort_desc, list_elem_of_filter. done. }
  assert (Hdb : (get_active_nodes now timeout db).2
                  = set_storage_nodes (marked_inactive stale_ids (storage_nodes db)) db)
    by (by rewrite get_active_nodes_closed).
  rewrite Hdb. split.
  - intros n' Hn' Hact. simpl in Hn'.
    apply elem_of_marked_inactive in Hn' as (n & Hn & ->).
    destruct (decide (n_node_id n ∈ stale_ids)) as [Hin|Hout]; [done|].
    destruct (decide (now - n_last_heartbeat n < seconds timeout)) as [Hf|Hs]; [done|].
    destruct Hout. by apply Hstale.
  - intros Hnd.
    assert (Hact : filter (λ n, n_status n = "active")
                     (marked_inactive stale_ids (storage_nodes db))
                   = filter (fresh now timeout)
                       (filter (λ n, n_status n = "active") (storage_nodes db))).
    { rewrite filter_marked_inactive_active, list_filter_filter.
      apply filter_ext_in. intros n Hn. split.
      - intros [Hs Hout]. split; [|done].
        destruct (decide (now - n_last_heartbeat n < seconds timeout)) as [|Hst];
          [done|].
        destruct Hout. by apply Hstale.
      - intros [Hf Hs]. split; [done|]. intros Hin.
        apply list_elem_of_fmap in Hin as (n' & Hid & Hn').
        apply list_elem_of_filter in Hn' as [Hst' Hn'].
        apply elem_of_sort_desc, list_elem_of_filter in Hn' as [_ Hn'].
        assert (n = n') as <- by (by eapply NoDup_fmap_elem_eq).
        done. }
    rewrite (get_active_nodes_closed now timeout (set_storage_nodes _ db)).
    simpl. rewrite Hact, <- filter_sort_desc. fold rows.
    rewrite filter_filter_same.
    assert (filter (stale now timeout) (filter (fresh now timeout) rows) = []) as ->.
    { rewrite list_filter_filter. apply filter_none. intros n. tauto. }
    rewrite fmap_nil, marked_inactive_nil.
    rewrite get_active_nodes_closed. fold rows. fold stale_ids. done.
Qed.

End StoreNodes.
(** ** The store: registration, heartbeats, files *)

Section StoreRows.
Import Schema.

(** X3. [register_node] is an upsert: a known node keeps its row (and with
    it its space and file count), an unknown node gets a new row with zero
    space; either way the node is returned by [get_active_nodes] for the
    next 30 seconds, under the address just given. *)
Theorem register_node_makes_node_active (now created t : Z)
    (node_id node_address : string) (db : DFSDatabase) :
  let db' := register_node now created node_id node_address db in
  length (storage_nodes db')
    = (if decide (node_id ∈ n_node_id <$> storage_nodes db)
       then length (storage_nodes db) else S (length (storage_nodes db))) ∧
  (t - now < seconds 30 →
   ∃ n, n ∈ (get_active_nodes t 30 db').1 ∧ n_node_id n = node_id ∧
        n_node_address n = node_address ∧ n_last_heartbeat n = now).
Proof.
  simpl. unfold register_node.
  destruct (decide (node_id ∈ n_node_id <$> storage_nodes db)) as [Hin|Hout].
  - split; [simpl; by rewrite length_fmap|].
    intros Ht. apply list_elem_of_fmap in Hin as (n0 & Hid & Hn0).
    exists (NodeRow node_id node_address "active" (n_available_space n0)
                    (n_total_files n0) now (n_created_at n0)).
    split; [|done].
    apply elem_of_get_active_nodes. split; [|done]. simpl.
    apply list_elem_of_fmap. exists n0. split; [|done]. by rewrite decide_True.
  - split; [simpl; rewrite length_app; simpl; lia|].
    intros Ht. exists (NodeRow node_id node_address "active" 0 0 now created).
    split; [|done].
    apply elem_of_get_active_nodes. split; [|done]. simpl.
    apply elem_of_app. right. left.
Qed.

(** X4. A heartbeat whose space or file count does not fit 64 bits
    raises: nothing is written and the handler answers 500.  Otherwise a
    heartbeat of an unknown node changes nothing and is answered with 404; a
    heartbeat of a known node is answered with 200, stores the reported
    space and file count, and the node is returned by [get_active_nodes] for
    the next 30 seconds. *)
Theorem heartbeat_known_and_unknown (now t : Z) (node_id : string)
    (available_space file_count : Z) (db : DFSDatabase) :
  node_id ≠ "" →
  (¬ (int64 available_space ∧ int64 file_count) →
   update_node_heartbeat now node_id available_space file_count db = None ∧
   Api.heartbeat now (Some node_id) available_space file_count db = (db, 500)) ∧
  (int64 available_space → int64 file_count →
   node_id ∉ n_node_id <$> storage_nodes db →
   update_node_heartbeat now node_id available_space file_count db
     = Some (db, false) ∧
   Api.heartbeat now (Some node_id) available_space file_count db = (db, 404)) ∧
  (int64 available_space → int64 file_count →
   node_id ∈ n_node_id <$> storage_nodes db →
   let db' := (Api.heartbeat now (Some node_id) available_space file_count db).1 in
   (Api.heartbeat now (Some node_id) available_space file_count db).2 = 200 ∧
   length (storage_nodes db') = length (storage_nodes db) ∧
   (t - now < seconds 30 →
    ∃ n, n ∈ (get_active_nodes t 30 db').1 ∧ n_node_id n = node_id ∧
         n_available_space n = available_space ∧ n_total_files n = file_count)).
Proof.
  intros Hne.
  assert (Htruthy : truthy (Some node_id) = true).
  { simpl. by destruct (String.eqb_spec node_id ""). }
  split_and!.
  - intros Hbig.
    assert (update_node_heartbeat now node_id available_space file_count db = None)
      as Hdb by (unfold update_node_heartbeat; by rewrite decide_False).
    split; [done|]. unfold Api.heartbeat. rewrite Htruthy.
    change (default "" (Some node_id)) with node_id. by rewrite Hdb.
  - intros Hs Hc Hout.
    assert (update_node_heartbeat now node_id available_space file_count db
              = Some (db, false)) as Hdb.
    { unfold update_node_heartbeat. rewrite decide_True by done. do 2 f_equal.
      - rewrite list_fmap_same; [apply set_storage_nodes_same|].
        apply Forall_forall. intros n Hn. rewrite decide_False; [done|].
        intros <-. destruct Hout. by apply list_elem_of_fmap_2.
      - by apply bool_decide_eq_false. }
    split; [done|]. unfold Api.heartbeat. rewrite Htruthy.
    change (default "" (Some node_id)) with node_id. by rewrite Hdb.
  - intros Hs Hc Hin. cbv zeta. unfold Api.heartbeat. rewrite Htruthy.
    change (default "" (Some node_id)) with node_id.
    unfold update_node_heartbeat. rewrite decide_True by done.
    rewrite bool_decide_eq_true_2 by done.
    cbn [negb fst snd].
    split; [done|]. split; [simpl; by rewrite length_fmap|].
    intros Ht. apply list_elem_of_fmap in Hin as (n0 & Hid & Hn0).
    exists (NodeRow (n_node_id n0) (n_node_address n0) "active" available_space
                    file_count now (n_created_at n0)).
    split; [|done].
    apply elem_of_get_active_nodes. split; [|done]. simpl.
    apply list_elem_of_fmap. exists n0. split; [|done]. by rewrite decide_True.
Qed.

(** X5. [create_file] raises on an id that is taken, and on a size or a
    replication factor that does not fit 64 bits; nothing is stored then.
    With a free id and two such integers it stores the row without a
    checksum: [get_file] returns it together with whatever replica rows
    carry the id, every other file reads as before, and the upload history
    has one more row. *)
Theorem create_file_then_get_file (now : Z) (file_id filename : string)
    (file_size replication_factor : Z) (db : DFSDatabase) :
  (file_id ∈ f_file_id <$> files db →
   create_file now file_id filename file_size replication_factor db = None) ∧
  (¬ (int64 file_size ∧ int64 replication_factor) →
   create_file now file_id filename file_size replication_factor db = None) ∧
  (file_id ∉ f_file_id <$> files db →
   int64 file_size → int64 replication_factor →
   ∃ db', create_file now file_id filename file_size replication_factor db = Some db' ∧
     get_file file_id db'
       = Some (FileRow file_id filename file_size None now replication_factor,
               get_replicas file_id db) ∧
     (∀ other, other ≠ file_id → get_file other db' = get_file other db) ∧
     length (upload_history db') = S (length (upload_history db))).
Proof.
  unfold create_file. split_and!.
  - intros Hid. case_decide; [|done]. by rewrite decide_True.
  - intros Hbig. by rewrite decide_False.
  - intros Hid Hs Hr. rewrite decide_True by done.
    rewrite decide_False by done. eexists. split; [done|].
    unfold get_file, get_replicas. simpl. split_and!.
    + rewrite filter_app, filter_cons_True, filter_nil by done.
      rewrite (filter_none_in _ (files db)); [done|].
      intros f Hf <-. destruct Hid. by apply list_elem_of_fmap_2.
    + intros other Hother.
      rewrite filter_app, filter_cons_False, filter_nil, app_nil_r by (simpl; congruence).
      done.
    + rewrite length_app. simpl. lia.
Qed.

Lemma NoDup_fmap_filter {A B} (f : A → B) (P : A → Prop) `{∀ x, Decision (P x)} l :
  NoDup (f <$> l) → NoDup (f <$> filter P l).
Proof.
  induction l as [|x l IH]; [done|].
  rewrite fmap_cons, NoDup_cons. intros [Hx Hnd].
  rewrite filter_cons. case_decide; [|by apply IH].
  rewrite fmap_cons. apply NoDup_cons. split; [|by apply IH].
  intros Hin. destruct Hx. apply list_elem_of_fmap in Hin as (y & -> & Hy).
  apply list_elem_of_filter in Hy as [_ Hy]. by apply list_elem_of_fmap_2.
Qed.

Lemma fmap_fmap_same {A B} (f : A → B) (g : A → A) (l : list A) :
  (∀ x, f (g x) = f x) → f <$> (g <$> l) = f <$> l.
Proof.
  intros Hfg. rewrite <- list_fmap_compose. apply list_fmap_ext. intros i x _.
  apply Hfg.
Qed.

Lemma NoDup_snoc_fresh {A} (l : list A) x : NoDup l → x ∉ l → NoDup (l ++ [x]).
Proof.
  intros Hnd Hx. apply NoDup_app. split; [done|]. split; [|apply NoDup_singleton].
  intros y Hy ->%list_elem_of_singleton. done.
Qed.

(** X6. The primary keys survive every write: from the empty database on,
    file ids, node ids and replica ids stay unique, and replica ids never
    exceed the AUTOINCREMENT counter. *)
Theorem primary_keys_stay_unique (db : DFSDatabase) :
  rtc db_step init_database db → keys_unique db.
Proof.
  revert db. apply (rtc_ind_r keys_unique).
  { repeat split; simpl; constructor. }
  intros db db' _ Hstep (Hf & Hn & Hr & Hs). destruct Hstep.
  - unfold create_file in *. case_decide; [|done]. case_decide; [done|].
    simplify_eq. repeat split; simpl; try done.
    rewrite fmap_app. simpl. by apply NoDup_snoc_fresh.
  - repeat split; simpl; try done.
    rewrite fmap_fmap_same; [done|]. intros f. by case_decide.
  - repeat split; simpl.
    + by apply NoDup_fmap_filter.
    + done.
    + by apply NoDup_fmap_filter.
    + apply Forall_forall. intros r Hr'. apply list_elem_of_filter in Hr' as [_ Hr'].
      by eapply Forall_forall in Hs.
  - repeat split; simpl; try done.
    + rewrite fmap_app. simpl. apply NoDup_snoc_fresh; [done|].
      intros Hin. apply list_elem_of_fmap in Hin as (r & Hid & Hr').
      eapply Forall_forall in Hs; [|exact Hr']. simpl in Hs. lia.
    + apply Forall_app. split.
      * eapply Forall_impl; [exact Hs|]. simpl. intros. lia.
      * repeat constructor. simpl. lia.
  - repeat split; simpl; try done.
    + rewrite fmap_fmap_same; [done|]. intros r. by case_decide.
    + apply Forall_fmap. eapply Forall_impl; [exact Hs|]. intros r Hr'. simpl.
      by case_decide.
  - unfold register_node. case_decide as Hin.
    + repeat split; simpl; try done.
      rewrite fmap_fmap_same; [done|]. intros n. by case_decide.
    + repeat split; simpl; try done.
      rewrite fmap_app. simpl. by apply NoDup_snoc_fresh.
  - unfold update_node_heartbeat in *. case_decide; [|done]. simplify_eq.
    repeat split; simpl; try done.
    rewrite fmap_fmap_same; [done|]. intros n. by case_decide.
  - repeat split; simpl; try done.
    rewrite fmap_fmap_same; [done|]. intros n. by case_decide.
  - rewrite get_active_nodes_closed. repeat split; simpl; try done.
    unfold marked_inactive. rewrite fmap_fmap_same; [done|].
    intros n. by case_decide.
Qed.

Lemma elem_of_list_files limit offset db row :
  row ∈ list_files limit offset db →
  ∃ f, f ∈ files db ∧ row = listing_of db f.
Proof.
  unfold list_files. cbv zeta. intros Hrow.
  assert (row ∈ listing_of db
                  <$> sort_desc f_upload_timestamp (sort_asc f_file_id (files db)))
    as Hin.
  { case_decide.
    - apply list_elem_of_lookup in Hrow as [i Hi]. rewrite lookup_drop in Hi.
      by eapply list_elem_of_lookup_2.
    - apply list_elem_of_lookup in Hrow as [i Hi].
      apply lookup_take_Some in Hi as [Hi _]. rewrite lookup_drop in Hi.
      by eapply list_elem_of_lookup_2. }
  apply list_elem_of_fmap in Hin as (f & -> & Hf). exists f. split; [|done].
  by rewrite sort_desc_Permutation, sort_asc_Permutation in Hf.
Qed.

(** X7. [list_files] with a negative limit lists every file exactly once,
    newer files first and files of one timestamp by file id; any other call
    returns a segment of that listing: the rows from [offset] on (from the
    start for a negative offset), cut after [limit] rows unless [limit] is
    negative.  In every row the number of active replicas lies between zero
    and the number of replicas.  A limit or an offset that does not fit 64
    bits raises, and the handler answers 500. *)
Theorem list_files_lists_each_file_once (limit offset : Z) (db : DFSDatabase) :
  let all := list_files (-1) 0 db in
  l_file <$> all ≡ₚ files db ∧
  StronglySorted listed_before (l_file <$> all) ∧
  list_files limit offset db
    = (if decide (limit < 0) then drop (Z.to_nat offset) all
       else take (Z.to_nat limit) (drop (Z.to_nat offset) all)) ∧
  (0 ≤ limit → Z.of_nat (length (list_files limit offset db)) ≤ limit) ∧
  Forall (λ row, 0 ≤ l_active_replicas row ≤ l_replica_count row ∧
                 l_replica_count row
                   = Z.of_nat (length (get_replicas (f_file_id (l_file row)) db)))
         (list_files limit offset db) ∧
  (int64 limit → int64 offset →
   list_files_call limit offset db = Some (list_files limit offset db) ∧
   Api.list_files limit offset db = (200, list_files limit offset db)) ∧
  (¬ (int64 limit ∧ int64 offset) →
   list_files_call limit offset db = None ∧
   Api.list_files limit offset db = (500, [])).
Proof.
  cbv zeta.
  assert (Hall : l_file <$> list_files (-1) 0 db
                 = sort_desc f_upload_timestamp (sort_asc f_file_id (files db))).
  { rewrite list_files_rows. by rewrite decide_True by lia. }
  split_and!.
  - by rewrite Hall, sort_desc_Permutation, sort_asc_Permutation.
  - rewrite Hall. apply sort_desc_stable, sort_asc_sorted.
  - unfold list_files. cbv zeta. rewrite (decide_True (P := -1 < 0)) by lia.
    done.
  - intros Hl. unfold list_files. cbv zeta. rewrite decide_False by lia.
    rewrite length_take. lia.
  - apply Forall_forall. intros row Hrow.
    apply elem_of_list_files in Hrow as (f & _ & ->).
    unfold listing_of. simpl. split; [|done].
    pose proof (length_filter (λ r, r_status r = "active")
                  (get_replicas (f_file_id f) db)). lia.
  - intros Hl Ho. unfold Api.list_files, list_files_call.
    by rewrite decide_True.
  - intros Hbig. unfold Api.list_files, list_files_call.
    by rewrite decide_False.
Qed.

(** X8. A confirmation always gets the answer 200 when its three fields are
    given: for a file and pair that the store does not know, nothing is
    written; for a known file whose pair has no replica row, no replica row
    is written. *)
Theorem upload_confirm_of_unknown_pair (now : Z) (file_id node_id checksum : string)
    (db : DFSDatabase) :
  file_id ≠ "" → node_id ≠ "" → checksum ≠ "" →
  pair_rows file_id node_id db = [] →
  (Naming.upload_confirm now (Some file_id) (Some node_id) (Some checksum) db).2 = 200 ∧
  replicas (Naming.upload_confirm now (Some file_id) (Some node_id) (Some checksum) db).1
    = replicas db ∧
  (file_id ∉ f_file_id <$> files db →
   (Naming.upload_confirm now (Some file_id) (Some node_id) (Some checksum) db).1 = db).
Proof.
  intros Hf Hn Hc Hrows.
  assert (Hsame : update_replica_status now file_id node_id "active" db = db).
  { unfold update_replica_status.
    rewrite list_fmap_same; [apply set_replicas_same|].
    apply Forall_forall. intros r Hr. rewrite decide_False; [done|].
    intros Hpair.
    assert (r ∈ pair_rows file_id node_id db) as Hin
      by (apply list_elem_of_filter; done).
    rewrite Hrows in Hin. by apply elem_of_nil in Hin. }
  unfold Naming.upload_confirm. simpl.
  destruct (String.eqb_spec file_id "") as [|_]; [done|].
  destruct (String.eqb_spec node_id "") as [|_]; [done|].
  destruct (String.eqb_spec checksum "") as [|_]; [done|]. simpl.
  rewrite Hsame.
  destruct (get_file file_id db) as [[f rs]|] eqn:Hget; [|done].
  assert (Hknown : file_id ∈ f_file_id <$> files db).
  { unfold get_file in Hget.
    destruct (filter _ (files db)) as [|g l] eqn:Hfl; [done|].
    assert (g ∈ filter (λ f, f_file_id f = file_id) (files db)) as Hg
      by (rewrite Hfl; left).
    apply list_elem_of_filter in Hg as [<- Hg]. by apply list_elem_of_fmap_2. }
  cbn [fst snd].
  destruct (negb (truthy (f_checksum f))); cbn [fst snd].
  - split; [done|]. split; [done|]. intros Hout. by destruct Hout.
  - split; [done|]. split; [done|]. intros Hout. by destruct Hout.
Qed.

End StoreRows.
(** ** The health monitor, again *)

Section HealthTicks.
Import Schema Replication.

Local Abbreviation failed now h :=
  (λ n : node_row, now - n_last_heartbeat n > seconds (failure_threshold h) ∧
                   n_status n = "active").
Local Abbreviation back now h :=
  (λ n : node_row, ¬ now - n_last_heartbeat n > seconds (failure_threshold h) ∧
                   n_status n = "inactive").




(** X10. The two liveness tests disagree at the threshold itself.  For an
    active node whose last heartbeat is exactly 30 s old, [get_active_nodes]
    leaves the node out and marks it inactive, while the health monitor
    leaves it alone; a tick that finds the row marked inactive counts the
    node as recovered. *)
Theorem liveness_tests_disagree_at_threshold (now : Z) (db : DFSDatabase)
    (node : node_row) (h : HealthMonitor) :
  node ∈ storage_nodes db → n_status node = "active" →
  now - n_last_heartbeat node = seconds 30 →
  failure_threshold h = 30 →
  (node ∉ (get_active_nodes now 30 db).1) ∧
  set_node_status "inactive" node ∈ storage_nodes (get_active_nodes now 30 db).2 ∧
  check_node now h node = h ∧
  nodes_recovered (hm_stats_of (check_node now h (set_node_status "inactive" node)))
    = nodes_recovered (hm_stats_of h) + 1.
Proof.
  intros Hin Hact Hage Hthr. split_and!.
  - intros Hn. apply (proj1 (elem_of_get_active_nodes _ _ _ _)) in Hn. lia.
  - rewrite get_active_nodes_closed. simpl.
    apply elem_of_marked_inactive. exists node. split; [done|].
    rewrite decide_True; [done|].
    apply list_elem_of_fmap_2, list_elem_of_filter. split; [lia|].
    apply elem_of_sort_desc, list_elem_of_filter. done.
  - unfold check_node. rewrite Hthr. rewrite decide_False by lia.
    rewrite decide_False; [done|]. rewrite Hact. discriminate.
  - unfold check_node. simpl. rewrite Hthr. rewrite decide_False by lia.
    done.
Qed.

End HealthTicks.

(** ** The replication controller, again *)

Section ControllerRuns.
Import Schema Replication.
Context (E : environment).

(** X11. Without an active replica on an active node there is no source,
    and [_replicate_file] does nothing: the controller never restores from a
    replica that is inactive, pending or corrupted. *)
Theorem replicate_file_needs_live_source (file : file_listing)
    (active_nodes : list node_row) (m : ReplicationManager) :
  (∀ r, r ∈ get_replicas (f_file_id (l_file file)) (db m) →
        r_status r = "active" → r_node_id r ∉ n_node_id <$> active_nodes) →
  _replicate_file E file active_nodes m = m.
Proof.
  intros Hno. unfold _replicate_file.
  destruct (available_nodes _ _); [done|].
  unfold find_source. rewrite filter_none_in; [done|].
  intros r Hr [Hact Hnode]. by eapply Hno.
Qed.

Lemma replicate_to_count file_id source m targets :
  ∃ added,
    replicas (db (foldl (replicate_to E file_id source) m targets))
      = replicas (db m) ++ added ∧
    (length added ≤ length targets)%nat ∧
    Forall (λ r, r_file_id r = file_id ∧ r_status r = "active") added ∧
    replications_performed (stats (foldl (replicate_to E file_id source) m targets))
      = replications_performed (stats m) + Z.of_nat (length added) ∧
    min_replicas (foldl (replicate_to E file_id source) m targets) = min_replicas m ∧
    (Forall (λ t, _copy_file_between_nodes E file_id source (n_node_address t) = true)
            targets → length added = length targets).
Proof.
  revert m. induction targets as [|t targets IH]; intros m; simpl.
  - exists []. rewrite app_nil_r. split_and!; try done. all: simpl; lia.
  - destruct (IH (replicate_to E file_id source m t))
      as (added & Heq & Hlen & Hall & Hst & Hmin & Hfull).
    rewrite Heq, Hst, Hmin. unfold replicate_to.
    destruct (_copy_file_between_nodes E file_id source (n_node_address t)) eqn:Hcopy;
      simpl.
    + eexists (_ :: added). rewrite <- app_assoc. split; [done|].
      split_and!; simpl; try done; try lia.
      * constructor; [done|done].
      * intros Hok. apply Forall_cons in Hok as [_ Hok]. by rewrite Hfull.
    + exists added. split_and!; try done; try lia.
      intros Hok. apply Forall_cons in Hok as [Hbad _]. congruence.
Qed.

Lemma active_count_app file_id db db' added :
  replicas db' = replicas db ++ added →
  Forall (λ r, r_file_id r = file_id ∧ r_status r = "active") added →
  active_count file_id db' = active_count file_id db + Z.of_nat (length added).
Proof.
  intros Heq Hall. unfold active_count, get_replicas. rewrite Heq, !filter_app.
  rewrite length_app.
  rewrite (list_filter_filter _ _ added).
  rewrite (filter_all _ added); [lia|].
  eapply Forall_impl; [exact Hall|]. simpl. tauto.
Qed.


(** X13. When every copy succeeds, one repair is enough: for a file with
    no more active replicas than [min_replicas], with a live source and at
    least as many candidates as replicas are missing, [_replicate_file]
    leaves the file with at least [min_replicas] active replicas. *)
Theorem replicate_file_reaches_min_replicas (file : file_listing)
    (active_nodes : list node_row) (m : ReplicationManager) :
  let file_id := f_file_id (l_file file) in
  let replicas_of_file := get_replicas file_id (db m) in
  let candidates := available_nodes replicas_of_file active_nodes in
  active_count file_id (db m) ≤ min_replicas m →
  min_replicas m - active_count file_id (db m) ≤ Z.of_nat (length candidates) →
  truthy (find_source replicas_of_file active_nodes) = true →
  Forall (λ t, _copy_file_between_nodes E file_id
                 (default "" (find_source replicas_of_file active_nodes))
                 (n_node_address t) = true) candidates →
  min_replicas m ≤ active_count file_id (db (_replicate_file E file active_nodes m)).
Proof.
  cbv zeta. intros Hneed Hcand Hsrc Hcopies. unfold _replicate_file.
  destruct (available_nodes _ _) as [|a av] eqn:Hav.
  { simpl in Hcand. lia. }
  rewrite Hsrc.
  match goal with |- context [foldl (replicate_to E ?f ?s) m ?ts] =>
    destruct (replicate_to_count f s m ts) as (added & Heq & _ & Hall & _ & _ & Hfull)
  end.
  rewrite (active_count_app _ _ _ added Heq Hall).
  rewrite Hfull.
  - unfold active_count in *. unfold existing_node_ids. rewrite length_fmap.
    unfold slice_to. rewrite decide_True by lia. rewrite length_take. lia.
  - apply Forall_forall. intros t Ht. apply elem_of_slice_to in Ht.
    by eapply Forall_forall in Hcopies.
Qed.

(** X14. With fewer active nodes than [min_replicas] the scan gives up
    before looking at any file: no replica row is written and the counters
    stay as they are. *)
Theorem check_and_replicate_needs_enough_nodes (now : Z) (m : ReplicationManager) :
  Z.of_nat (length (get_active_nodes now 30 (db m)).1) < min_replicas m →
  replicas (db (_check_and_replicate E now m)) = replicas (db m) ∧
  files (db (_check_and_replicate E now m)) = files (db m) ∧
  stats (_check_and_replicate E now m) = stats m.
Proof.
  intros Hfew. unfold _check_and_replicate.
  pose proof (get_active_nodes_rows now 30 (db m)) as (Hf & Hr).
  destruct (get_active_nodes now 30 (db m)) as [nodes d1]. simpl in *.
  rewrite decide_True by done. done.
Qed.

End ControllerRuns.
(** ** The integrity verifier, again *)

Section VerifierRuns.
Import Schema Replication.
Context (E : environment) (now : Z).

Lemma restamped_refl r : restamped now r r.
Proof. by left. Qed.

Lemma restamped_trans r1 r2 r3 :
  restamped now r1 r2 → restamped now r2 r3 → restamped now r1 r3.
Proof.
  unfold restamped. intros [->|[->| ->]] [->|[->| ->]]; auto.
Qed.

Lemma update_replica_status_restamps f n s d :
  s = "active" ∨ s = "corrupted" →
  Forall2 (restamped now) (replicas d)
          (replicas (update_replica_status now f n s d)).
Proof.
  intros Hs. unfold update_replica_status. simpl.
  apply Forall2_fmap_r, Forall_Forall2_diag, Forall_forall. intros r _. simpl.
  case_decide; [|by left]. destruct Hs as [-> | ->]; [right; by left|right; by right].
Qed.

Lemma verified_from_refl d : verified_from now d d.
Proof.
  split_and!; try done. apply Forall_Forall2_diag, Forall_forall.
  intros r _. apply restamped_refl.
Qed.

Lemma verified_from_trans d1 d2 d3 :
  verified_from now d1 d2 → verified_from now d2 d3 → verified_from now d1 d3.
Proof.
  intros (H1 & Hf1 & Hn1 & Hs1) (H2 & Hf2 & Hn2 & Hs2). split_and!; try congruence.
  eapply Forall2_trans; [|exact H1|exact H2]. apply restamped_trans.
Qed.

Lemma verify_replica_keeps f e acc y :
  verified_from now acc.1 (verify_replica E now f e acc y).1 ∧
  acc.2.1 ≤ (verify_replica E now f e acc y).2.1.
Proof.
  destruct acc as [d [v c]]. unfold verify_replica. cbn [fst snd].
  destruct (decide (r_status y ≠ "active")); [split; [apply verified_from_refl|done]|].
  destruct (requests_get E _) as [resp|]; [|split; [apply verified_from_refl|done]].
  destruct (decide (status_code resp = 200)); [|split; [apply verified_from_refl|done]].
  destruct (json_checksum E _) as [a|]; [|split; [apply verified_from_refl|done]].
  destruct (decide (a = Some e)); cbn [fst snd].
  - split; [|lia]. split_and!; try done. apply update_replica_status_restamps. by left.
  - split; [|lia]. split_and!; try done. apply update_replica_status_restamps. by right.
Qed.

Lemma verify_file_keeps acc file :
  verified_from now acc.1 (verify_file E now acc file).1 ∧
  acc.2.1 ≤ (verify_file E now acc file).2.1.
Proof.
  unfold verify_file. destruct (truthy _); [|split; [apply verified_from_refl|done]].
  generalize (get_replicas (f_file_id (l_file file)) acc.1). intros rows.
  generalize (default "" (f_checksum (l_file file))). intros e.
  revert acc. induction rows as [|y rows IH]; intros acc.
  { split; [apply verified_from_refl|done]. }
  simpl. destruct (IH (verify_replica E now (f_file_id (l_file file)) e acc y))
    as [Hk Hv].
  destruct (verify_replica_keeps (f_file_id (l_file file)) e acc y) as [Hk1 Hv1].
  split; [by eapply verified_from_trans|lia].
Qed.

(** X15. A verifier pass never adds, deletes or re-keys a row: the replica
    table keeps its rows in place, each one either untouched or stamped
    active or corrupted at the time of the pass; files (and with them the
    stored checksums) and nodes are not written, and the count of
    verifications does not go down. *)
Theorem verify_replicas_only_restamps (m : ReplicationManager) :
  let m' := _verify_replicas E now m in
  Forall2 (restamped now) (replicas (db m)) (replicas (db m')) ∧
  files (db m') = files (db m) ∧
  storage_nodes (db m') = storage_nodes (db m) ∧
  replicas_seq (db m') = replicas_seq (db m) ∧
  min_replicas m' = min_replicas m ∧
  verifications_performed (stats m) ≤ verifications_performed (stats m').
Proof.
  cbv zeta. unfold _verify_replicas.
  assert (Hfold : ∀ fl acc,
            verified_from now acc.1 (foldl (verify_file E now) acc fl).1 ∧
            acc.2.1 ≤ (foldl (verify_file E now) acc fl).2.1).
  { induction fl as [|f fs IH]; intros acc.
    { split; [apply verified_from_refl|done]. }
    simpl. destruct (IH (verify_file E now acc f)) as [Hk Hv].
    destruct (verify_file_keeps acc f) as [Hk1 Hv1].
    split; [by eapply verified_from_trans|lia]. }
  destruct (Hfold (list_files 1000 0 (db m)) (db m, (0, 0)))
    as [(Hrows & Hf & Hn & Hs) Hv].
  destruct (foldl _ _ _) as [d [v c]]. cbn [fst snd] in *. simpl.
  split_and!; try done. lia.
Qed.

Lemma verify_replica_unanswered f e acc y :
  (∀ url answer, requests_get E url = Some answer → status_code answer ≠ 200) →
  verify_replica E now f e acc y = acc.
Proof.
  intros Hno. destruct acc as [d [v c]]. unfold verify_replica.
  destruct (decide (r_status y ≠ "active")); [done|].
  destruct (requests_get E _) as [resp|] eqn:Hget; [|done].
  rewrite decide_False; [done|]. by eapply Hno.
Qed.

(** X16. Transport failures change nothing: when no verify request is
    answered with status 200 (the request raises, or the node answers 404 or
    500), the pass leaves the whole store and the counters as they were. *)
Theorem verify_replicas_without_answers (m : ReplicationManager) :
  (∀ url answer, requests_get E url = Some answer → status_code answer ≠ 200) →
  db (_verify_replicas E now m) = db m ∧
  stats (_verify_replicas E now m) = stats m.
Proof.
  intros Hno. unfold _verify_replicas.
  assert (Hfold : ∀ fl acc, foldl (verify_file E now) acc fl = acc).
  { induction fl as [|f fs IH]; intros acc; [done|].
    simpl. rewrite <- (IH acc) at 2. f_equal.
    unfold verify_file. destruct (truthy _); [|done].
    generalize (get_replicas (f_file_id (l_file f)) acc.1). intros rows.
    clear IH. revert acc. induction rows as [|y rows IHr]; intros acc; [done|].
    simpl. by rewrite verify_replica_unanswered. }
  rewrite Hfold. simpl. split; [done|].
  destruct (stats m). simpl. f_equal. lia.
Qed.

End VerifierRuns.
(** ** Invariants of the recovery manager *)

Section ManagerInvariants.
Import Schema Recovery.

Lemma foldl_preserves {B} (P : AdvancedRecoveryManager → Prop)
    (f : AdvancedRecoveryManager → B → AdvancedRecoveryManager) (l : list B) m :
  (∀ m x, P m → P (f m x)) → P m → P (foldl f m l).
Proof.
  intros Hf. revert m. induction l as [|x l IH]; intros m Hm; [done|].
  simpl. apply IH. by apply Hf.
Qed.

(** A property kept by the four writes of [_attempt_recovery] is kept by
    the attempt. *)
Lemma attempt_recovery_preserves (P : AdvancedRecoveryManager → Prop)
    E now elapsed o m :
  (∀ m d, P m → P (set_db d m)) →
  (∀ m o r t, objects m !! o = Some r → P m → P (set_object o (begin_attempt t r) m)) →
  (∀ t o err m, P m → P (_mark_recovery_failed t o err m)) →
  (∀ t o rt m, P m → P (_mark_recovery_successful t o rt m)) →
  P m → P (_attempt_recovery E now elapsed o m).
Proof.
  intros Hdb Hobj Hfail Hok Hm. unfold _attempt_recovery.
  destruct (objects m !! o) as [r|] eqn:Ho; [|done].
  destruct (retry_too_soon _ _); [done|].
  case_decide; [by apply Hfail|].
  match goal with |- context [set_object o ?r' m] => set (m1 := set_object o r' m) end.
  assert (P m1) as Hm1 by (by apply Hobj).
  destruct (get_file _ _) as [file_info|]; [|by apply Hfail].
  match goal with |- context [let '(_, _) := ?s in _] => destruct s as [success d] end.
  destruct success; [apply Hok | apply Hfail]; by apply Hdb.
Qed.

(** ... and by every step of the manager, when the enqueue keeps it too. *)
Lemma queue_step_preserves (P : AdvancedRecoveryManager → Prop) E m m' :
  (∀ m d, P m → P (set_db d m)) →
  (∀ m o r t, objects m !! o = Some r → P m → P (set_object o (begin_attempt t r) m)) →
  (∀ t o err m, P m → P (_mark_recovery_failed t o err m)) →
  (∀ t o rt m, P m → P (_mark_recovery_successful t o rt m)) →
  (∀ t fid fname strat prio m,
     P m → P (add_to_recovery_queue t fid fname strat prio m)) →
  queue_step E m m' → P m → P m'.
Proof.
  intros Hdb Hobj Hfail Hok Hadd Hstep Hm. destruct Hstep.
  - by apply Hadd.
  - by apply Hok.
  - by apply Hfail.
  - by apply attempt_recovery_preserves.
  - unfold _process_recovery_queue.
    apply foldl_preserves; [|done]. intros. by apply attempt_recovery_preserves.
  - unfold _process_priority_recoveries.
    apply foldl_preserves; [|done]. intros. by apply attempt_recovery_preserves.
  - unfold _proactive_health_check, _check_corrupted_replicas.
    apply foldl_preserves.
    { intros m1 x Hm1. unfold check_corrupted. case_decide; [|done]. by apply Hadd. }
    apply foldl_preserves; [|done].
    intros m1 x Hm1. unfold check_under_replicated. case_decide; [|done].
    by apply Hadd.
  - unfold force_recovery. destruct (get_file _ _); [|done]. simpl. by apply Hadd.
  - by apply Hdb.
Qed.

Local Abbreviation ids_of objs :=
  (omap (λ o : nat, file_id <$> (objs : list FileRecoveryRecord) !! o)).

Lemma ids_of_insert objs o r r' (q : list nat) :
  objs !! o = Some r → file_id r' = file_id r →
  ids_of (<[o:=r']> objs) q = ids_of objs q.
Proof.
  intros Ho Hid. apply list_omap_ext, Forall_Forall2_diag, Forall_forall.
  intros o' _. destruct (decide (o = o')) as [<-|Hne].
  - rewrite list_lookup_insert_eq by (by eapply lookup_lt_Some).
    rewrite Ho. simpl. by rewrite Hid.
  - by rewrite list_lookup_insert_ne.
Qed.

Lemma ids_of_app objs r (q : list nat) :
  Forall (λ o, (o < length objs)%nat) q →
  ids_of (objs ++ [r]) q = ids_of objs q.
Proof.
  intros Hv. apply list_omap_ext, Forall_Forall2_diag.
  eapply Forall_impl; [exact Hv|]. intros o Ho. simpl in Ho.
  by rewrite lookup_app_l.
Qed.

Lemma sublist_omap {A B} (f : A → option B) (l1 l2 : list A) :
  l1 `sublist_of` l2 → omap f l1 `sublist_of` omap f l2.
Proof.
  induction 1 as [|x l1 l2 _ IH|x l1 l2 _ IH]; simpl; [done|..].
  - destruct (f x); [by constructor|done].
  - destruct (f x); [by constructor|done].
Qed.

Lemma list_remove_sublist `{EqDecision A} (x : A) (l : list A) :
  list_remove x l `sublist_of` l.
Proof.
  induction l as [|y l IH]; simpl; [done|].
  case_decide; [by apply sublist_cons|by apply sublist_skip].
Qed.

Lemma dequeue_sublist o (q : list nat) : dequeue o q `sublist_of` q.
Proof. unfold dequeue. case_decide; [apply list_remove_sublist|done]. Qed.

Lemma queued_once_dequeue objs o r r' q :
  objs !! o = Some r → file_id r' = file_id r →
  NoDup (ids_of objs q) ∧ Forall (λ o, (o < length objs)%nat) q →
  NoDup (ids_of (<[o:=r']> objs) (dequeue o q)) ∧
  Forall (λ o', (o' < length (<[o:=r']> objs))%nat) (dequeue o q).
Proof.
  intros Ho Hid [Hnd Hv]. rewrite (ids_of_insert objs o r r') by done. split.
  - eapply sublist_NoDup; [exact Hnd|]. apply sublist_omap, dequeue_sublist.
  - rewrite length_insert. apply Forall_forall. intros o' Ho'.
    eapply Forall_forall in Hv; [exact Hv|].
    eapply elem_of_sublist; [exact Ho'|apply dequeue_sublist].
Qed.

Lemma add_to_recovery_queue_once t fid fname strat prio m :
  queued_once m → queued_once (add_to_recovery_queue t fid fname strat prio m).
Proof.
  intros [Hnd Hv]. unfold add_to_recovery_queue. case_decide as Hin; [done|].
  unfold queued_once, queued_file_ids in *. simpl. split.
  - rewrite sort_desc_Permutation, omap_app, ids_of_app by done. simpl.
    rewrite list_lookup_middle by done. simpl.
    apply NoDup_app. split_and!; [done| |apply NoDup_singleton].
    intros x Hx Hx'. apply list_elem_of_singleton in Hx'. by subst.
  - apply Forall_forall. intros z Hz.
    apply elem_of_sort_desc, elem_of_app in Hz. rewrite length_app. simpl.
    destruct Hz as [Hz|Hz].
    + eapply Forall_forall in Hv; [|exact Hz]. simpl in Hv. lia.
    + apply list_elem_of_singleton in Hz. lia.
Qed.

Lemma NoDup_omap_total {A B} (f : A → option B) (l : list A) :
  Forall (λ a, is_Some (f a)) l → NoDup (omap f l) →
  NoDup l ∧ length (omap f l) = length l.
Proof.
  induction l as [|a l IH]; intros Hs Hnd; [split; [constructor|done]|].
  apply Forall_cons in Hs as [[b Hb] Hs]. simpl in *. rewrite Hb in *.
  apply NoDup_cons in Hnd as [Hb' Hnd]. destruct (IH Hs Hnd) as [Hl Hlen].
  split; [|simpl; f_equal; exact Hlen].
  constructor; [|done]. intros Ha. destruct Hb'.
  apply list_elem_of_omap. eauto.
Qed.

Lemma queue_step_once E m m' :
  queue_step E m m' → queued_once m → queued_once m'.
Proof.
  apply queue_step_preserves.
  - done.
  - intros m1 o r t Ho [Hnd Hv]. unfold queued_once, queued_file_ids. simpl.
    rewrite (ids_of_insert _ o r) by done. by rewrite length_insert.
  - intros t o err m1 Hm1. unfold _mark_recovery_failed.
    destruct (objects m1 !! o) as [r|] eqn:Ho; [|done].
    unfold queued_once, queued_file_ids. simpl.
    by eapply queued_once_dequeue.
  - intros t o rt m1 Hm1. unfold _mark_recovery_successful.
    destruct (objects m1 !! o) as [r|] eqn:Ho; [|done].
    unfold queued_once, queued_file_ids. simpl.
    by eapply queued_once_dequeue.
  - intros. by apply add_to_recovery_queue_once.
Qed.

Lemma queued_once_NoDup m :
  queued_once m →
  NoDup (recovery_queue m) ∧
  length (queued_file_ids m) = length (recovery_queue m).
Proof.
  intros [Hnd Hv]. apply NoDup_omap_total; [|done].
  eapply Forall_impl; [exact Hv|]. intros o Ho. simpl in Ho.
  apply lookup_lt_is_Some_2 in Ho as [r ->]. by eexists.
Qed.

(** X17. In every state reachable from a new manager no file is in the
    queue twice, whichever loop or handler enqueued it, and so no record is:
    [recovery_queue.remove(record)] takes out the only occurrence, and the
    queue has as many entries as it has files. *)
Theorem recovery_queue_holds_each_file_once (E : environment) (d : DFSDatabase)
    (m : AdvancedRecoveryManager) :
  rtc (queue_step E) (new_recovery_manager d) m →
  NoDup (queued_file_ids m) ∧
  NoDup (recovery_queue m) ∧
  length (queued_file_ids m) = length (recovery_queue m).
Proof.
  intros Hsteps.
  assert (queued_once m) as Hm.
  { revert m Hsteps. apply (rtc_ind_r queued_once).
    { split; constructor. }
    intros m m' _ Hstep Hm. by eapply queue_step_once. }
  split; [apply Hm|]. by apply queued_once_NoDup.
Qed.

Lemma length_add_to_history t r rt s h :
  length (_add_to_history t r rt s h) = (S (length h) `min` max_history)%nat.
Proof.
  unfold _add_to_history, max_history. case_decide as Hlen.
  - rewrite length_drop. rewrite length_app in *. cbn [length] in *. lia.
  - rewrite length_app in *. cbn [length] in *. lia.
Qed.

(** X18. In every state reachable from a new manager the counters agree
    with the rest: [pending_recoveries] is the length of the queue, every
    finished recovery is counted once as a success or once as a failure,
    critical recoveries are among the successes, and the history holds one
    entry per finished recovery up to its bound of 100 entries. *)
Theorem recovery_counters_agree (E : environment) (d : DFSDatabase)
    (m : AdvancedRecoveryManager) :
  rtc (queue_step E) (new_recovery_manager d) m →
  pending_recoveries (stats m) = Z.of_nat (length (recovery_queue m)) ∧
  total_recoveries (stats m)
    = successful_recoveries (stats m) + failed_recoveries (stats m) ∧
  0 ≤ critical_files_recovered (stats m) ≤ successful_recoveries (stats m) ∧
  0 ≤ failed_recoveries (stats m) ∧
  Z.of_nat (length (recovery_history m)) = Z.min (total_recoveries (stats m)) 100.
Proof.
  revert m. apply (rtc_ind_r counters_agree).
  { unfold counters_agree. simpl. lia. }
  intros m m' _ Hstep Hm. revert Hstep Hm. apply queue_step_preserves.
  - done.
  - done.
  - intros t o err m1 Hm1. unfold _mark_recovery_failed.
    destruct (objects m1 !! o) as [r|] eqn:Ho; [|done].
    unfold counters_agree in *. simpl. rewrite length_add_to_history.
    unfold max_history in *. lia.
  - intros t o rt m1 Hm1. unfold _mark_recovery_successful.
    destruct (objects m1 !! o) as [r|] eqn:Ho; [|done].
    unfold counters_agree in *. simpl. rewrite length_add_to_history.
    unfold max_history in *. case_decide; lia.
  - intros t fid fname strat prio m1 Hm1. unfold add_to_recovery_queue.
    case_decide; [done|]. unfold counters_agree in *. simpl. lia.
Qed.

End ManagerInvariants.
(** ** What one attempt does *)

Section AttemptOutcomes.
Import Schema Recovery.
Context (E : environment).

(** X19. Two attempts that run no repair.  For a record that passes the
    retry delay and has attempts left:
    - when the file is no longer in the database, the attempt is counted,
      the record is marked failed with "File not found in database", leaves
      the queue and is entered in the history;
    - when the file has two or more active replicas and no corrupted one,
      the attempt is counted and booked as a successful recovery with the
      measured time, although nothing was repaired.
    Neither writes to the database. *)
Theorem attempt_recovery_without_repair (now elapsed : Z) (o : nat)
    (m : AdvancedRecoveryManager) (r : FileRecoveryRecord) :
  objects m !! o = Some r →
  retry_too_soon now (last_attempt r) = false →
  attempts r < max_attempts r →
  let m' := _attempt_recovery E now elapsed o m in
  let r1 := begin_attempt now r in
  (get_file (file_id r) (db m) = None →
     objects m' !! o
       = Some (set_outcome "failed" (Some "File not found in database") r1) ∧
     recovery_queue m' = dequeue o (recovery_queue m) ∧
     db m' = db m ∧
     failed_recoveries (stats m') = failed_recoveries (stats m) + 1 ∧
     successful_recoveries (stats m') = successful_recoveries (stats m) ∧
     last (recovery_history m')
       = Some (HistoryEntry (file_id r) (filename r) now false 0 (attempts r + 1)
                 (priority r) (strategy r) (Some "File not found in database"))) ∧
  (∀ file_info,
     get_file (file_id r) (db m) = Some file_info →
     (2 ≤ length (filter (λ x, r_status x = "active") file_info.2))%nat →
     filter (λ x, r_status x = "corrupted") file_info.2 = [] →
     objects m' !! o = Some (set_outcome "success" (error_message r) r1) ∧
     recovery_queue m' = dequeue o (recovery_queue m) ∧
     db m' = db m ∧
     successful_recoveries (stats m') = successful_recoveries (stats m) + 1 ∧
     failed_recoveries (stats m') = failed_recoveries (stats m) ∧
     last (recovery_history m')
       = Some (HistoryEntry (file_id r) (filename r) now true elapsed
                 (attempts r + 1) (priority r) (strategy r) None)).
Proof.
  intros Ho Hsoon Hmax. cbv zeta.
  assert (Ho1 : <[o:=begin_attempt now r]> (objects m) !! o
                = Some (begin_attempt now r)).
  { apply list_lookup_insert_eq. by eapply lookup_lt_Some. }
  assert (Hlt : (o < length (<[o:=begin_attempt now r]> (objects m)))%nat).
  { by eapply lookup_lt_Some. }
  split.
  - intros Hget. unfold _attempt_recovery. rewrite Ho, Hsoon.
    rewrite decide_False by lia. cbv zeta.
    change (get_file (file_id (begin_attempt now r))
                     (db (set_object o (begin_attempt now r) m)))
      with (get_file (file_id r) (db m)).
    rewrite Hget. unfold _mark_recovery_failed.
    change (objects (set_object o (begin_attempt now r) m))
      with (<[o:=begin_attempt now r]> (objects m)).
    rewrite Ho1. cbn [objects recovery_queue db stats recovery_history set_object
                      failed_recoveries successful_recoveries].
    split_and!; try done.
    + by apply list_lookup_insert_eq.
    + by rewrite add_to_history_last.
  - intros file_info Hget Hact Hcorr. unfold _attempt_recovery. rewrite Ho, Hsoon.
    rewrite decide_False by lia. cbv zeta.
    change (get_file (file_id (begin_attempt now r))
                     (db (set_object o (begin_attempt now r) m)))
      with (get_file (file_id r) (db m)).
    rewrite Hget.
    rewrite (decide_False (P := (length (filter (λ x, r_status x = "active")
                                           file_info.2) = 0)%nat)) by lia.
    rewrite (decide_False (P := (length (filter (λ x, r_status x = "active")
                                           file_info.2) < 2)%nat)) by lia.
    rewrite Hcorr.
    rewrite (decide_False (P := (0 < length (@nil replica_row))%nat))
      by (simpl; lia).
    unfold _mark_recovery_successful.
    change (objects (set_db _ (set_object o (begin_attempt now r) m)))
      with (<[o:=begin_attempt now r]> (objects m)).
    rewrite Ho1. cbn [objects recovery_queue db stats recovery_history set_object
                      set_db failed_recoveries successful_recoveries].
    split_and!; try done.
    + by apply list_lookup_insert_eq.
    + by rewrite add_to_history_last.
Qed.

Lemma create_replica_on_count file_id source targets acc :
  ∃ added,
    replicas (foldl (create_replica_on E file_id source) acc targets).1
      = replicas acc.1 ++ added ∧
    files (foldl (create_replica_on E file_id source) acc targets).1 = files acc.1 ∧
    storage_nodes (foldl (create_replica_on E file_id source) acc targets).1
      = storage_nodes acc.1 ∧
    (foldl (create_replica_on E file_id source) acc targets).2
      = acc.2 + Z.of_nat (length added) ∧
    (length added ≤ length targets)%nat ∧
    Forall (λ r, r_file_id r = file_id ∧ r_status r = "active" ∧
                 ∃ t, t ∈ targets ∧ r_node_id r = n_node_id t ∧
                      r_node_address r = n_node_address t ∧
                      _copy_file_between_nodes E file_id source (n_node_address t)
                        = true) added.
Proof.
  revert acc. induction targets as [|t targets IH]; intros acc; simpl.
  - exists []. rewrite app_nil_r. split_and!; try done. simpl. lia.
  - destruct (IH (create_replica_on E file_id source acc t))
      as (added & Heq & Hf & Hn & Hcnt & Hlen & Hall).
    rewrite Heq, Hf, Hn, Hcnt. unfold create_replica_on.
    destruct (_copy_file_between_nodes E file_id source (n_node_address t)) eqn:Hcopy;
      cbn [fst snd].
    + eexists (_ :: added). simpl. rewrite <- app_assoc. split; [done|].
      split_and!; try done; try lia.
      constructor.
      * split_and!; [done..|]. exists t. split_and!; [left|done..].
      * eapply Forall_impl; [exact Hall|]. simpl.
        intros x (? & ? & t' & ? & ?). split_and!; [done..|].
        exists t'. split; [by right|done].
    + exists added. split_and!; try done; try lia.
      eapply Forall_impl; [exact Hall|]. simpl.
      intros x (? & ? & t' & ? & ?). split_and!; [done..|].
      exists t'. split; [by right|done].
Qed.

(** X20. What [_create_additional_replicas] can add: at most as many rows
    as are missing to reach two, each an active replica of the file on a node
    that is active with a fresh heartbeat, holds none of the given active
    replicas and accepted the copy from the first of them; the answer is
    true exactly when a row was added, and nothing is added without a given
    active replica.  Files are not written. *)
Theorem create_additional_replicas_result (now : Z)
    (file_info : file_row * list replica_row) (active_replicas : list replica_row)
    (d : DFSDatabase) :
  let result := _create_additional_replicas E now file_info active_replicas d in
  ∃ added,
    replicas result.2 = replicas d ++ added ∧
    files result.2 = files d ∧
    Z.of_nat (length added) ≤ Z.max 0 (2 - Z.of_nat (length active_replicas)) ∧
    (result.1 = true ↔ added ≠ []) ∧
    (active_replicas = [] → added = []) ∧
    Forall (λ r, r_file_id r = f_file_id file_info.1 ∧ r_status r = "active" ∧
                 (r_node_id r ∉ r_node_id <$> active_replicas) ∧
                 ∃ t source, t ∈ (get_active_nodes now 30 d).1 ∧
                      head active_replicas = Some source ∧
                      r_node_id r = n_node_id t ∧
                      _copy_file_between_nodes E (f_file_id file_info.1)
                        (r_node_address source) (n_node_address t) = true) added.
Proof.
  cbv zeta. unfold _create_additional_replicas.
  pose proof (get_active_nodes_rows now 30 d) as [Hf Hr].
  destruct (get_active_nodes now 30 d) as [nodes d1]. cbn [fst snd] in *.
  assert (Hnone : ∃ added : list replica_row,
            replicas d1 = replicas d ++ added ∧ files d1 = files d ∧
            Z.of_nat (length added) ≤ Z.max 0 (2 - Z.of_nat (length active_replicas)) ∧
            (false = true ↔ added ≠ []) ∧
            (active_replicas = [] → added = []) ∧
            Forall (λ r, r_file_id r = f_file_id file_info.1 ∧ r_status r = "active" ∧
                 (r_node_id r ∉ r_node_id <$> active_replicas) ∧
                 ∃ t source, t ∈ nodes ∧
                      head active_replicas = Some source ∧
                      r_node_id r = n_node_id t ∧
                      _copy_file_between_nodes E (f_file_id file_info.1)
                        (r_node_address source) (n_node_address t) = true) added).
  { exists []. rewrite app_nil_r. split_and!; try done. simpl. lia. }
  case_decide as Hav; [exact Hnone|].
  destruct active_replicas as [|source rest]; [exact Hnone|]. clear Hnone.
  match goal with |- context [foldl (create_replica_on E ?f ?s) ?acc ?ts] =>
    destruct (create_replica_on_count f s ts acc)
      as (added & Heq & Hfl & _ & Hcnt & Hlen & Hall)
  end.
  destruct (foldl _ _ _) as [d2 n]. cbn [fst snd] in *.
  exists added. split_and!.
  - congruence.
  - congruence.
  - rewrite length_take in Hlen. lia.
  - rewrite bool_decide_eq_true. subst n. destruct added; simpl; split; try done; lia.
  - done.
  - eapply Forall_impl; [exact Hall|]. simpl.
    intros x (Hx1 & Hx2 & t & Ht & Hid & Haddr & Hcopy).
    apply elem_of_take in Ht as (i & Ht & _).
    apply list_elem_of_lookup_2, list_elem_of_filter in Ht as [Hnot Ht].
    split_and!; [done..| |].
    + by rewrite Hid.
    + exists t, source. done.
Qed.

End AttemptOutcomes.
(** ** The two workers *)

Section Workers.
Import Schema Recovery.
Context (E : environment).

Lemma touches_within_refl l k m : 0 ≤ k → touches_within l k m m.
Proof. intros Hk. unfold touches_within. split_and!; try done; lia. Qed.

Lemma touches_within_trans l1 l2 k1 k2 m1 m2 m3 :
  touches_within l1 k1 m1 m2 → touches_within l2 k2 m2 m3 →
  touches_within (l1 ++ l2) (k1 + k2) m1 m3.
Proof.
  intros (Hl1 & Ho1 & Hs1 & Hq1 & Ht1) (Hl2 & Ho2 & Hs2 & Hq2 & Ht2).
  unfold touches_within. split_and!.
  - congruence.
  - intros o Ho. apply not_elem_of_app in Ho as [Ha Hb].
    rewrite Ho2, Ho1; done.
  - by etrans.
  - intros o Ho Hin. apply not_elem_of_app in Ho as [Ha Hb].
    apply Hq2; [done|]. by apply Hq1.
  - lia.
  - lia.
Qed.

Lemma touches_within_weaken l l' k k' m m' :
  (∀ o, o ∈ l → o ∈ l') → k ≤ k' →
  touches_within l k m m' → touches_within l' k' m m'.
Proof.
  intros Hl Hk (H1 & H2 & H3 & H4 & H5). unfold touches_within.
  split_and!; try done; try lia.
  - intros o Ho. apply H2. intros Hin. by apply Ho, Hl.
  - intros o Ho. apply H4. intros Hin. by apply Ho, Hl.
Qed.

Lemma elem_of_list_remove_ne `{EqDecision A} (x y : A) (l : list A) :
  y ≠ x → y ∈ l → y ∈ list_remove x l.
Proof.
  intros Hne. induction l as [|z l IH]; [done|].
  simpl. intros Hy. apply elem_of_cons in Hy as [->|Hy].
  - rewrite decide_False by done. left.
  - case_decide; [done|]. right. by apply IH.
Qed.

Lemma elem_of_dequeue_ne o o' (q : list nat) :
  o' ≠ o → o' ∈ q → o' ∈ dequeue o q.
Proof.
  intros Hne Hin. unfold dequeue. case_decide; [|done].
  by apply elem_of_list_remove_ne.
Qed.

Lemma mark_recovery_failed_touches t o err m :
  touches_within [o] 1 m (_mark_recovery_failed t o err m).
Proof.
  unfold _mark_recovery_failed.
  destruct (objects m !! o) as [r|] eqn:Ho; [|by apply touches_within_refl].
  unfold touches_within. simpl. split_and!; try lia.
  - by rewrite length_insert.
  - intros o' Ho'. apply not_elem_of_cons in Ho' as [Hne _].
    by rewrite list_lookup_insert_ne.
  - apply dequeue_sublist.
  - intros o' Ho'. apply not_elem_of_cons in Ho' as [Hne _].
    by apply elem_of_dequeue_ne.
Qed.

Lemma mark_recovery_successful_touches t o rt m :
  touches_within [o] 1 m (_mark_recovery_successful t o rt m).
Proof.
  unfold _mark_recovery_successful.
  destruct (objects m !! o) as [r|] eqn:Ho; [|by apply touches_within_refl].
  unfold touches_within. simpl. split_and!; try lia.
  - by rewrite length_insert.
  - intros o' Ho'. apply not_elem_of_cons in Ho' as [Hne _].
    by rewrite list_lookup_insert_ne.
  - apply dequeue_sublist.
  - intros o' Ho'. apply not_elem_of_cons in Ho' as [Hne _].
    by apply elem_of_dequeue_ne.
Qed.

Lemma set_object_touches o r d m :
  touches_within [o] 0 m (set_db d (set_object o r m)).
Proof.
  unfold touches_within. simpl. split_and!; try done; try lia.
  - by rewrite length_insert.
  - intros o' Ho'. apply not_elem_of_cons in Ho' as [Hne _].
    by rewrite list_lookup_insert_ne.
Qed.

Lemma attempt_recovery_touches now elapsed o m :
  touches_within [o] 1 m (_attempt_recovery E now elapsed o m).
Proof.
  unfold _attempt_recovery.
  destruct (objects m !! o) as [r|] eqn:Ho; [|by apply touches_within_refl].
  destruct (retry_too_soon _ _); [by apply touches_within_refl|].
  case_decide; [by apply mark_recovery_failed_touches|].
  cbv zeta.
  assert (Hstep : ∀ d m',
            touches_within [o] 1 (set_db d (set_object o (begin_attempt now r) m)) m' →
            touches_within [o] 1 m m').
  { intros d m' Hm'.
    eapply touches_within_weaken;
      [| |eapply touches_within_trans;
            [apply (set_object_touches o (begin_attempt now r) d)|exact Hm']].
    - intros o'. rewrite elem_of_app. tauto.
    - lia. }
  destruct (get_file _ _) as [file_info|].
  - match goal with |- context [let '(_, _) := ?s in _] => destruct s as [success d] end.
    destruct success; apply (Hstep d).
    + apply mark_recovery_successful_touches.
    + apply mark_recovery_failed_touches.
  - apply (Hstep (db m)). apply mark_recovery_failed_touches.
Qed.

Lemma attempts_touch now elapsed (l : list nat) m :
  touches_within l (Z.of_nat (length l)) m
    (foldl (λ m record, _attempt_recovery E now elapsed record m) m l).
Proof.
  revert m. induction l as [|o l IH]; intros m.
  { by apply touches_within_refl. }
  simpl foldl.
  eapply touches_within_weaken;
    [| |eapply touches_within_trans; [apply (attempt_recovery_touches now elapsed o)|apply IH]].
  - done.
  - simpl length. lia.
Qed.

(** X21. One round of the main worker attempts the first three records of
    the queue and nothing else: every other record is as before and, if it
    was queued, still is; the round enqueues nothing, creates no record and
    finishes at most three recoveries. *)
Theorem process_recovery_queue_first_three (now elapsed : Z)
    (m : AdvancedRecoveryManager) :
  let m' := _process_recovery_queue E now elapsed m in
  length (objects m') = length (objects m) ∧
  (∀ o, o ∉ take 3 (recovery_queue m) →
        objects m' !! o = objects m !! o ∧
        (o ∈ recovery_queue m → o ∈ recovery_queue m')) ∧
  recovery_queue m' `sublist_of` recovery_queue m ∧
  total_recoveries (stats m) ≤ total_recoveries (stats m')
    ≤ total_recoveries (stats m) + 3.
Proof.
  cbv zeta. unfold _process_recovery_queue, max_concurrent_recoveries.
  destruct (attempts_touch now elapsed (take 3 (recovery_queue m)) m)
    as (Hl & Ho & Hs & Hq & Ht).
  split_and!; try done; try lia.
  - intros o Hno. split; [by apply Ho|by apply Hq].
  - rewrite length_take in Ht. lia.
Qed.

(** X22. One round of the priority worker attempts the queued records of
    priority 15 or more, each once, and leaves every record of lower
    priority alone: as before and, if it was queued, still queued. *)
Theorem process_priority_recoveries_from_15 (now elapsed : Z)
    (m : AdvancedRecoveryManager) :
  let m' := _process_priority_recoveries E now elapsed m in
  let urgent := filter (λ o, priority_of (objects m) o >= 15) (recovery_queue m) in
  length (objects m') = length (objects m) ∧
  (∀ o, priority_of (objects m) o < 15 →
        objects m' !! o = objects m !! o ∧
        (o ∈ recovery_queue m → o ∈ recovery_queue m')) ∧
  recovery_queue m' `sublist_of` recovery_queue m ∧
  total_recoveries (stats m) ≤ total_recoveries (stats m')
    ≤ total_recoveries (stats m) + Z.of_nat (length urgent).
Proof.
  cbv zeta. unfold _process_priority_recoveries.
  destruct (attempts_touch now elapsed
              (filter (λ o, priority_of (objects m) o >= 15) (recovery_queue m)) m)
    as (Hl & Ho & Hs & Hq & Ht).
  split_and!; try done; try lia.
  intros o Hlow.
  assert (o ∉ filter (λ o, priority_of (objects m) o >= 15) (recovery_queue m)) as Hno.
  { rewrite list_elem_of_filter. lia. }
  split; [by apply Ho|by apply Hq].
Qed.

End Workers.
(** ** The retry logic, as it is reached from the queue *)

Section Retries.
Import Schema Recovery.
Context (E : environment).

Lemma not_elem_of_dequeue o (q : list nat) : NoDup q → o ∉ dequeue o q.
Proof.
  intros Hnd. rewrite dequeue_filter by done. rewrite list_elem_of_filter. tauto.
Qed.

Lemma add_to_recovery_queue_fresh t fid fname strat prio m :
  queued_once m → queued_fresh m →
  queued_fresh (add_to_recovery_queue t fid fname strat prio m).
Proof.
  intros [_ Hv] Hfresh. unfold add_to_recovery_queue. case_decide; [done|].
  intros o r Ho Hr. simpl in *.
  apply elem_of_sort_desc, elem_of_app in Ho.
  destruct (decide (o < length (objects m))%nat) as [Hlt|Hge].
  - rewrite lookup_app_l in Hr by done.
    destruct Ho as [Ho|Ho]; [by eapply Hfresh|].
    apply list_elem_of_singleton in Ho. lia.
  - destruct (decide (o = length (objects m))) as [->|Hne].
    + rewrite list_lookup_middle in Hr by done. by injection Hr as <-.
    + rewrite lookup_ge_None_2 in Hr; [done|]. rewrite length_app. simpl. lia.
Qed.

(** A step that touches one record and leaves it out of the queue keeps
    the queued records as they were made. *)
Lemma touched_and_dequeued_fresh o k m m' :
  touches_within [o] k m m' → (o ∉ recovery_queue m') →
  queued_fresh m → queued_fresh m'.
Proof.
  intros (_ & Hobj & Hsub & _ & _) Hout Hfresh o' r Ho' Hr.
  assert (o' ≠ o) as Hne by (intros ->; done).
  apply (Hfresh o' r).
  - by eapply elem_of_sublist.
  - rewrite <- Hobj; [done|].
    apply not_elem_of_cons. split; [done|apply not_elem_of_nil].
Qed.

Lemma mark_recovery_failed_fresh t o err m :
  queued_once m → queued_fresh m → queued_fresh (_mark_recovery_failed t o err m).
Proof.
  intros Honce Hfresh.
  destruct (objects m !! o) as [r|] eqn:Ho.
  - eapply touched_and_dequeued_fresh;
      [apply mark_recovery_failed_touches| |done].
    erewrite mark_recovery_failed_queue by done.
    apply not_elem_of_dequeue. by apply queued_once_NoDup.
  - unfold _mark_recovery_failed. by rewrite Ho.
Qed.

Lemma mark_recovery_successful_fresh t o rt m :
  queued_once m → queued_fresh m →
  queued_fresh (_mark_recovery_successful t o rt m).
Proof.
  intros Honce Hfresh.
  destruct (objects m !! o) as [r|] eqn:Ho.
  - eapply touched_and_dequeued_fresh;
      [apply mark_recovery_successful_touches| |done].
    erewrite mark_recovery_successful_queue by done.
    apply not_elem_of_dequeue. by apply queued_once_NoDup.
  - unfold _mark_recovery_successful. by rewrite Ho.
Qed.

Lemma attempt_recovery_fresh now elapsed o m :
  queued_once m → queued_fresh m →
  queued_fresh (_attempt_recovery E now elapsed o m).
Proof.
  intros Honce Hfresh.
  destruct (decide (o ∈ recovery_queue m)) as [Hin|Hout].
  - destruct Honce as [Hnd Hv].
    assert (is_Some (objects m !! o)) as [r Ho].
    { apply lookup_lt_is_Some_2. by eapply Forall_forall in Hv. }
    destruct (Hfresh o r Hin Ho) as (_ & Hlast & _ & _).
    eapply touched_and_dequeued_fresh;
      [apply (attempt_recovery_touches E now elapsed o)| |done].
    erewrite attempt_recovery_dequeues; [|done|by rewrite Hlast].
    apply not_elem_of_dequeue. by apply (queued_once_NoDup m).
  - eapply touched_and_dequeued_fresh;
      [apply (attempt_recovery_touches E now elapsed o)| |done].
    intros Hin. destruct Hout.
    destruct (attempt_recovery_touches E now elapsed o m) as (_ & _ & Hsub & _).
    by eapply elem_of_sublist.
Qed.

Lemma foldl_attempts_fresh now elapsed (l : list nat) m :
  queued_once m → queued_fresh m →
  queued_once (foldl (λ m record, _attempt_recovery E now elapsed record m) m l) ∧
  queued_fresh (foldl (λ m record, _attempt_recovery E now elapsed record m) m l).
Proof.
  revert m. induction l as [|o l IH]; intros m Honce Hfresh; [done|].
  simpl. apply IH.
  - eapply queue_step_once; [apply (step_attempt E now elapsed o)|done].
  - by apply attempt_recovery_fresh.
Qed.

Lemma foldl_enqueues_fresh {B} (f : AdvancedRecoveryManager → B → AdvancedRecoveryManager)
    (l : list B) m :
  (∀ m x, queued_once m → queued_fresh m →
          queued_once (f m x) ∧ queued_fresh (f m x)) →
  queued_once m → queued_fresh m →
  queued_once (foldl f m l) ∧ queued_fresh (foldl f m l).
Proof.
  intros Hf. revert m. induction l as [|x l IH]; intros m Honce Hfresh; [done|].
  simpl. destruct (Hf m x Honce Hfresh). by apply IH.
Qed.

(** In every state reachable from a new manager the queued records are as
    they were created: a record is given its first attempt only when it
    leaves the queue, and nothing puts it back. *)
Lemma queued_records_are_fresh (d : DFSDatabase) (m : AdvancedRecoveryManager) :
  rtc (queue_step E) (new_recovery_manager d) m →
  queued_once m ∧ queued_fresh m.
Proof.
  revert m. apply (rtc_ind_r (λ m, queued_once m ∧ queued_fresh m)).
  { split; [split; constructor|]. intros o r Ho. by apply elem_of_nil in Ho. }
  intros m m' _ Hstep [Honce Hfresh].
  split; [by eapply queue_step_once|].
  destruct Hstep.
  - by apply add_to_recovery_queue_fresh.
  - by apply mark_recovery_successful_fresh.
  - by apply mark_recovery_failed_fresh.
  - by apply attempt_recovery_fresh.
  - by apply foldl_attempts_fresh.
  - by apply foldl_attempts_fresh.
  - unfold _proactive_health_check, _check_corrupted_replicas.
    apply foldl_enqueues_fresh.
    { intros m1 x H1 H2. unfold check_corrupted. case_decide; [|done].
      split; [by apply add_to_recovery_queue_once|by apply add_to_recovery_queue_fresh]. }
    all: apply foldl_enqueues_fresh; try done.
    all: intros m1 x H1 H2; unfold check_under_replicated; case_decide; [|done].
    all: split; [by apply add_to_recovery_queue_once|by apply add_to_recovery_queue_fresh].
  - unfold force_recovery. destruct (get_file _ _); [|done]. simpl.
    by apply add_to_recovery_queue_fresh.
  - done.
Qed.

(** Hence the branch "Max attempts exceeded" is out of reach of the queue:
    whenever a queued record is attempted, by a worker or by anyone else, it
    is its first attempt, the record leaves the queue whether the repair
    succeeds or fails, and its message is not "Max attempts exceeded". *)
Lemma exhaustion_is_out_of_reach (d : DFSDatabase) (m : AdvancedRecoveryManager)
    (now elapsed : Z) (o : nat) :
  rtc (queue_step E) (new_recovery_manager d) m →
  o ∈ recovery_queue m →
  ∃ r', objects (_attempt_recovery E now elapsed o m) !! o = Some r' ∧
        attempts r' = 1 ∧
        (o ∉ recovery_queue (_attempt_recovery E now elapsed o m)) ∧
        (status r' = "success" ∧ error_message r' = None ∨
         status r' = "failed" ∧
         (error_message r' = Some "Recovery operation failed" ∨
          error_message r' = Some "File not found in database")).
Proof.
  intros Hsteps Hin.
  destruct (queued_records_are_fresh d m Hsteps) as [Honce Hfresh].
  assert (is_Some (objects m !! o)) as [r Ho].
  { apply lookup_lt_is_Some_2. destruct Honce as [_ Hv].
    by eapply Forall_forall in Hv. }
  destruct (Hfresh o r Hin Ho) as (Hatt & Hlast & Hmax & Herr).
  assert (Hout : o ∉ recovery_queue (_attempt_recovery E now elapsed o m)).
  { erewrite attempt_recovery_dequeues; [|done|by rewrite Hlast].
    apply not_elem_of_dequeue. by apply (queued_once_NoDup m). }
  revert Hout. unfold _attempt_recovery. rewrite Ho, Hlast. simpl retry_too_soon.
  cbv iota. rewrite decide_False by lia. cbv zeta.
  match goal with |- context [set_object o ?r' m] => set (m1 := set_object o r' m) end.
  assert (Ho1 : objects m1 !! o = Some (begin_attempt now r)).
  { unfold m1. simpl. apply list_lookup_insert_eq. by eapply lookup_lt_Some. }
  destruct (get_file _ _) as [file_info|].
  - match goal with |- context [let '(_, _) := ?s in _] => destruct s as [success d'] end.
    destruct success; intros Hout.
    + eexists. split; [by apply mark_recovery_successful_object|]. simpl.
      split_and!; [lia|done|]. left. by rewrite Herr.
    + eexists. split; [by apply mark_recovery_failed_object|]. simpl.
      split_and!; [lia|done|]. right. split; [done|]. by left.
  - intros Hout. eexists. split; [by apply mark_recovery_failed_object|]. simpl.
    split_and!; [lia|done|]. right. split; [done|]. by right.
Qed.

End Retries.
(** ** The proactive scan and the forced recovery *)

Section Scans.
Import Schema Recovery.

Lemma not_queued_tagged fid prio strat m :
  fid ∉ queued_file_ids m → tagged fid prio strat m.
Proof.
  intros Hnot o r Ho Hr Hfid. destruct Hnot.
  apply list_elem_of_omap. exists o. split; [done|]. by rewrite Hr, <- Hfid.
Qed.

Lemma add_to_recovery_queue_tagged t fid prio strat f fname s p m :
  tagged fid prio strat m →
  f ≠ fid ∨ (p = prio ∧ s = strat) ∨ fid ∈ queued_file_ids m →
  tagged fid prio strat (add_to_recovery_queue t f fname s p m).
Proof.
  intros HS Hor. unfold add_to_recovery_queue. case_decide as Hq; [done|].
  intros o r Ho Hr Hfid. simpl in *.
  apply elem_of_sort_desc, elem_of_app in Ho.
  destruct (decide (o < length (objects m))%nat) as [Hlt|Hge].
  - rewrite lookup_app_l in Hr by done.
    destruct Ho as [Ho|Ho]; [by eapply HS|].
    apply list_elem_of_singleton in Ho. lia.
  - destruct (decide (o = length (objects m))) as [->|Hne].
    + rewrite list_lookup_middle in Hr by done. injection Hr as <-.
      simpl in Hfid. subst f. destruct Hor as [?|[[-> ->]|?]]; done.
    + rewrite lookup_ge_None_2 in Hr; [done|]. rewrite length_app. simpl. lia.
Qed.

Lemma add_to_recovery_queue_not_queued t fid f fname s p m :
  fid ∉ queued_file_ids m → f ≠ fid →
  fid ∉ queued_file_ids (add_to_recovery_queue t f fname s p m).
Proof.
  intros Hnot Hne. unfold add_to_recovery_queue. case_decide as Hq; [done|].
  unfold queued_file_ids in *. simpl. intros Hin. destruct Hnot.
  apply list_elem_of_omap in Hin as (o & Ho & Hlook).
  apply elem_of_sort_desc, elem_of_app in Ho.
  destruct (decide (o < length (objects m))%nat) as [Hlt|Hge].
  - rewrite lookup_app_l in Hlook by done.
    destruct Ho as [Ho|Ho].
    + apply list_elem_of_omap. eauto.
    + apply list_elem_of_singleton in Ho. lia.
  - destruct (decide (o = length (objects m))) as [->|Hne'].
    + rewrite list_lookup_middle in Hlook by done. simpl in Hlook. congruence.
    + rewrite lookup_ge_None_2 in Hlook; [done|]. rewrite length_app. simpl. lia.
Qed.

Lemma list_files_active_replicas limit offset d file :
  file ∈ list_files limit offset d →
  l_active_replicas file = active_count (f_file_id (l_file file)) d.
Proof.
  intros Hin. by apply elem_of_list_files in Hin as (f & _ & ->).
Qed.

Lemma check_under_replicated_fold_db now fl m :
  db (foldl (check_under_replicated now) m fl) = db m.
Proof.
  revert m. induction fl as [|f fs IH]; intros m; [done|].
  simpl. rewrite IH. unfold check_under_replicated. case_decide; [|done].
  apply add_to_recovery_queue_db.
Qed.

Lemma check_under_replicated_fold_keeps now fl m fid :
  fid ∈ queued_file_ids m →
  fid ∈ queued_file_ids (foldl (check_under_replicated now) m fl).
Proof.
  revert m. induction fl as [|f fs IH]; intros m Hq; [done|].
  simpl. apply IH. unfold check_under_replicated. case_decide; [|done].
  by apply add_to_recovery_queue_keeps.
Qed.

(** The first loop of the scan, for a file with fewer than two active
    replicas. *)
Lemma check_under_replicated_fold_low now fl m fid a :
  (∀ x, x ∈ fl → f_file_id (l_file x) = fid → l_active_replicas x = a) →
  a < 2 →
  tagged fid (if decide (a = 0) then 20 else 10) PRIORITY m →
  tagged fid (if decide (a = 0) then 20 else 10) PRIORITY
         (foldl (check_under_replicated now) m fl) ∧
  ((∃ x, x ∈ fl ∧ f_file_id (l_file x) = fid) →
   fid ∈ queued_file_ids (foldl (check_under_replicated now) m fl)).
Proof.
  intros Hcount Ha. revert m. induction fl as [|x fl IH]; intros m Ht.
  { split; [done|]. intros (x & Hx & _). by apply elem_of_nil in Hx. }
  simpl.
  assert (Ht' : tagged fid (if decide (a = 0) then 20 else 10) PRIORITY
                       (check_under_replicated now m x)).
  { unfold check_under_replicated. cbv zeta.
    destruct (decide (l_active_replicas x < 2)) as [Hlow|Hlow]; [|done].
    apply add_to_recovery_queue_tagged; [done|].
    destruct (decide (f_file_id (l_file x) = fid)) as [Hid|Hid]; [|by left].
    right. left. rewrite (Hcount x); [done|left|done]. }
  destruct (IH (λ y Hy, Hcount y (list_elem_of_further _ _ _ Hy)) _ Ht') as [Htag Hq].
  split; [done|]. intros (y & Hy & Hid).
  apply elem_of_cons in Hy as [->|Hy]; [|by eauto].
  apply check_under_replicated_fold_keeps. unfold check_under_replicated.
  rewrite (Hcount x); [|left|done]. rewrite decide_True by done.
  rewrite <- Hid. apply add_to_recovery_queue_queued.
Qed.

(** The first loop of the scan, for a file with two active replicas or
    more. *)
Lemma check_under_replicated_fold_enough now fl m fid :
  (∀ x, x ∈ fl → f_file_id (l_file x) = fid → 2 ≤ l_active_replicas x) →
  fid ∉ queued_file_ids m →
  fid ∉ queued_file_ids (foldl (check_under_replicated now) m fl).
Proof.
  intros Hcount. revert m. induction fl as [|x fl IH]; intros m Hnot; [done|].
  simpl. apply IH.
  { intros y Hy. apply Hcount. by right. }
  unfold check_under_replicated. case_decide as Hlow; [|done].
  apply add_to_recovery_queue_not_queued; [done|].
  intros Hid. assert (2 ≤ l_active_replicas x) by (apply Hcount; [left|done]). lia.
Qed.

Lemma check_corrupted_fold_tagged now fl m fid prio strat :
  fid ∈ queued_file_ids m → tagged fid prio strat m →
  tagged fid prio strat (foldl (check_corrupted now) m fl).
Proof.
  revert m. induction fl as [|x fl IH]; intros m Hq Ht; [done|].
  simpl. unfold check_corrupted at 2. case_decide; [|by apply IH].
  apply IH.
  - by apply add_to_recovery_queue_keeps.
  - apply add_to_recovery_queue_tagged; [done|]. right. by right.
Qed.

Lemma check_corrupted_fold_clean now fl m fid :
  filter (λ r, r_status r = "corrupted") (get_replicas fid (db m)) = [] →
  fid ∉ queued_file_ids m →
  fid ∉ queued_file_ids (foldl (check_corrupted now) m fl).
Proof.
  revert m. induction fl as [|x fl IH]; intros m Hclean Hnot; [done|].
  simpl. apply IH.
  { by rewrite check_corrupted_db. }
  unfold check_corrupted. case_decide as Hc; [|done].
  apply add_to_recovery_queue_not_queued; [done|].
  intros Hid. rewrite Hid, Hclean in Hc. simpl in Hc. lia.
Qed.

(** X23. The priorities of the proactive scan.  For a listed file that is
    not in the queue when the scan starts:
    - no active replica: queued with priority 20 and the priority strategy;
    - one active replica: queued with priority 10 and the priority strategy;
      in both cases a corrupted replica changes nothing, the enqueue of the
      corruption scan coming second;
    - two or more active replicas and a corrupted one: queued with priority
      15 and the immediate strategy;
    - two or more active replicas and no corrupted one: not queued. *)
Theorem proactive_health_check_priorities (now : Z) (m : AdvancedRecoveryManager)
    (file : file_listing) :
  file ∈ list_files 1000 0 (db m) →
  f_file_id (l_file file) ∉ queued_file_ids m →
  let fid := f_file_id (l_file file) in
  let m' := _proactive_health_check now m in
  let corrupted := filter (λ r, r_status r = "corrupted") (get_replicas fid (db m)) in
  (active_count fid (db m) = 0 →
     fid ∈ queued_file_ids m' ∧ tagged fid 20 PRIORITY m') ∧
  (active_count fid (db m) = 1 →
     fid ∈ queued_file_ids m' ∧ tagged fid 10 PRIORITY m') ∧
  (2 ≤ active_count fid (db m) → corrupted ≠ [] →
     fid ∈ queued_file_ids m' ∧ tagged fid 15 IMMEDIATE m') ∧
  (2 ≤ active_count fid (db m) → corrupted = [] → fid ∉ queued_file_ids m').
Proof.
  intros Hin Hnot. cbv zeta.
  set (fid := f_file_id (l_file file)) in *.
  unfold _proactive_health_check, _check_corrupted_replicas.
  set (m1 := foldl (check_under_replicated now) m (list_files 1000 0 (db m))).
  assert (Hdb : db m1 = db m) by apply check_under_replicated_fold_db.
  rewrite Hdb.
  assert (Hcount : ∀ x, x ∈ list_files 1000 0 (db m) → f_file_id (l_file x) = fid →
                        l_active_replicas x = active_count fid (db m)).
  { intros x Hx <-. by eapply list_files_active_replicas. }
  assert (Hlow : active_count fid (db m) < 2 →
            fid ∈ queued_file_ids
                    (foldl (check_corrupted now) m1 (list_files 1000 0 (db m))) ∧
            tagged fid (if decide (active_count fid (db m) = 0) then 20 else 10)
                   PRIORITY
                   (foldl (check_corrupted now) m1 (list_files 1000 0 (db m)))).
  { intros Ha.
    destruct (check_under_replicated_fold_low now (list_files 1000 0 (db m)) m fid
                (active_count fid (db m)) Hcount Ha) as [Htag Hq].
    { by apply not_queued_tagged. }
    split.
    - apply check_corrupted_fold_keeps. apply Hq. by exists file.
    - apply check_corrupted_fold_tagged; [|done]. apply Hq. by exists file. }
  assert (Henough : 2 ≤ active_count fid (db m) → fid ∉ queued_file_ids m1).
  { intros Ha. apply check_under_replicated_fold_enough; [|done].
    intros x Hx Hid. rewrite (Hcount x Hx Hid). done. }
  split_and!.
  - intros Ha. destruct Hlow as [Hq Ht]; [lia|]. rewrite Ha in Ht. done.
  - intros Ha. destruct Hlow as [Hq Ht]; [lia|]. rewrite Ha in Ht. done.
  - intros Ha Hcorr. specialize (Henough Ha). split.
    + destruct (filter _ _) as [|row rows] eqn:Hrows; [done|].
      assert (row ∈ filter (λ r, r_status r = "corrupted") (get_replicas fid (db m)))
        as Hrow by (rewrite Hrows; left).
      apply list_elem_of_filter in Hrow as [Hst Hrow].
      rewrite <- Hdb.
      apply (check_corrupted_replicas_enqueues now m1 file row); by rewrite ?Hdb.
    + apply check_corrupted_fold_for_corruption.
      by apply not_queued_for_corruption.
  - intros Ha Hclean. apply check_corrupted_fold_clean; [by rewrite Hdb|].
    by apply Henough.
Qed.

(** X24. [force_recovery] and its handler: an unknown file is answered
    with 404 and nothing changes; a known file that is not queued is queued
    with priority 100 and the immediate strategy; a known file that is
    already queued is answered with success although nothing changes, its
    record keeping the priority it has. *)
Theorem force_recovery_outcomes (now : Z) (fid : string)
    (m : AdvancedRecoveryManager) :
  (get_file fid (db m) = None →
     force_recovery now fid m = (m, false) ∧
     Api.force_recovery now fid m = (m, 404)) ∧
  (is_Some (get_file fid (db m)) → fid ∈ queued_file_ids m →
     force_recovery now fid m = (m, true) ∧
     Api.force_recovery now fid m = (m, 200)) ∧
  (is_Some (get_file fid (db m)) → fid ∉ queued_file_ids m →
     let m' := (force_recovery now fid m).1 in
     (Api.force_recovery now fid m).2 = 200 ∧
     fid ∈ queued_file_ids m' ∧ tagged fid 100 IMMEDIATE m' ∧
     length (recovery_queue m') = S (length (recovery_queue m)) ∧
     db m' = db m).
Proof.
  unfold Api.force_recovery, force_recovery. split_and!.
  - intros ->. done.
  - intros [info ->] Hq. unfold add_to_recovery_queue.
    rewrite decide_True by done. done.
  - intros [info ->] Hq. cbn [fst snd]. split_and!.
    + done.
    + apply add_to_recovery_queue_queued.
    + apply add_to_recovery_queue_tagged; [by apply not_queued_tagged|].
      right. by left.
    + unfold add_to_recovery_queue. rewrite decide_False by done. simpl.
      rewrite sort_desc_Permutation, length_app. simpl. lia.
    + apply add_to_recovery_queue_db.
Qed.

(** X25. [get_recovery_history] returns the last [limit] entries, oldest
    first, and all of them when fewer are kept; a limit of zero returns the
    whole history, and a negative one drops that many entries from the
    front: these are the slices [history[-limit:]]. *)
Theorem get_recovery_history_slices (limit : Z) (m : AdvancedRecoveryManager) :
  let h := recovery_history m in
  let answer := RecoveryViews.get_recovery_history limit m in
  answer `suffix_of` h ∧
  (0 < limit → length answer = (Z.to_nat limit `min` length h)%nat) ∧
  (limit = 0 → answer = h) ∧
  (limit < 0 → answer = drop (Z.to_nat (- limit)) h).
Proof.
  cbv zeta. unfold RecoveryViews.get_recovery_history, RecoveryViews.slice_from.
  split_and!.
  - case_decide; apply suffix_drop.
  - intros Hl. rewrite decide_False by lia. rewrite length_drop.
    replace (- - limit) with limit by lia. lia.
  - intros ->. done.
  - intros Hl. by rewrite decide_True by lia.
Qed.

(** X26. The queue summary of the statistics endpoint: the view lists the
    queued files in queue order, and the three bands (critical from 15,
    high from 10 to 14, normal below 10) partition it, so that the three
    counts add up to the total. *)
Theorem recovery_stats_summary_partitions (m : AdvancedRecoveryManager) :
  let s := Api.recovery_stats_summary m in
  RecoveryViews.qv_file_id <$> RecoveryViews.get_recovery_queue m = queued_file_ids m ∧
  Api.qs_critical s + Api.qs_high s + Api.qs_normal s = Api.qs_total s ∧
  0 ≤ Api.qs_total s ≤ Z.of_nat (length (recovery_queue m)).
Proof.
  cbv zeta. unfold Api.recovery_stats_summary. simpl. split_and!.
  - unfold RecoveryViews.get_recovery_queue, queued_file_ids.
    induction (recovery_queue m) as [|o q IH]; [done|].
    simpl. destruct (objects m !! o) as [r|]; simpl; [f_equal; exact IH|exact IH].
  - induction (RecoveryViews.get_recovery_queue m) as [|v q IH]; [done|].
    rewrite !filter_cons. simpl length.
    destruct (decide (RecoveryViews.qv_priority v >= 15)),
             (decide (10 ≤ RecoveryViews.qv_priority v ∧
                      RecoveryViews.qv_priority v < 15)),
             (decide (RecoveryViews.qv_priority v < 10)); simpl length; lia.
  - lia.
  - assert (length (RecoveryViews.get_recovery_queue m)
              ≤ length (recovery_queue m))%nat; [|lia].
    unfold RecoveryViews.get_recovery_queue.
    induction (recovery_queue m) as [|o q IH]; [done|].
    cbn [omap list_omap]. destruct (objects m !! o) as [r|]; cbn [fmap option_fmap option_map length]; lia.
Qed.

End Scans.
(** ** The handlers of the coordinator *)

Section Handlers.
Import Schema.

Local Abbreviation active_rows fid d :=
  (filter (λ r, r_status r = "active") (get_replicas fid d)).

Local Abbreviation download_url fid :=
  (λ r : replica_row, r_node_address r +:+ "/download/" +:+ fid).

Local Abbreviation upload_slot_of uuid :=
  (λ n : node_row, Api.UploadSlot (n_node_id n)
                     (n_node_address n +:+ "/upload/" +:+ uuid)).

Lemma get_file_None fid d : get_file fid d = None ↔ fid ∉ f_file_id <$> files d.
Proof.
  unfold get_file. destruct (filter _ (files d)) as [|f l] eqn:Hfl.
  - split; [|done]. intros _ Hin. apply list_elem_of_fmap in Hin as (f & -> & Hf).
    assert (f ∈ filter (λ g, f_file_id g = f_file_id f) (files d)) as Hx
      by (by apply list_elem_of_filter).
    rewrite Hfl in Hx. by apply elem_of_nil in Hx.
  - split; [done|]. intros Hnot. destruct Hnot.
    assert (f ∈ filter (λ g, f_file_id g = fid) (files d)) as Hx
      by (rewrite Hfl; left).
    apply list_elem_of_filter in Hx as [<- Hx]. by apply list_elem_of_fmap_2.
Qed.

Lemma get_file_Some fid d info :
  get_file fid d = Some info →
  fid ∈ f_file_id <$> files d ∧ info.2 = get_replicas fid d.
Proof.
  intros Hget. split.
  - destruct (decide (fid ∈ f_file_id <$> files d)) as [|Hnot]; [done|].
    apply get_file_None in Hnot. congruence.
  - unfold get_file in Hget. destruct (filter _ (files d)); [done|].
    by injection Hget as <-.
Qed.

(** X27. The download request: 404 for an unknown file, 503 for a known
    file without an active replica, else 200 with one URL per active replica
    row, in row order; replicas that are pending, corrupted or inactive are
    never offered.  The node table is not read: a replica stored as active is
    offered also when its node is marked inactive. *)
Theorem download_request_outcomes (fid : string) (d : DFSDatabase) :
  let answer := Api.download_request fid d in
  (answer.1 = 404 ↔ fid ∉ f_file_id <$> files d) ∧
  (answer.1 = 503 ↔ fid ∈ f_file_id <$> files d ∧ active_rows fid d = []) ∧
  (answer.1 = 200 ↔ fid ∈ f_file_id <$> files d ∧ active_rows fid d ≠ []) ∧
  (∀ info, answer.2 = Some info →
     answer.1 = 200 ∧ Api.di_file_id info = fid ∧
     Api.di_download_urls info = download_url fid <$> active_rows fid d) ∧
  (answer.1 = 200 → is_Some answer.2) ∧
  (∀ nodes, Api.download_request fid (set_storage_nodes nodes d) = answer).
Proof.
  cbv zeta. unfold Api.download_request.
  change (get_file fid (set_storage_nodes _ d)) with (get_file fid d).
  destruct (get_file fid d) as [[f rs]|] eqn:Hget.
  - apply get_file_Some in Hget as [Hin Hrs]. simpl in Hrs. subst rs. cbn [fst snd].
    destruct (active_rows fid d) as [|r l] eqn:Hact; cbn [fst snd].
    all: split_and!; try done.
    all: try (split; [done|]; first [by intros [? ?] | by intros ?]).
    all: try (intros info [= <-]; done).
    all: try (intros _; by eexists).
  - apply get_file_None in Hget. cbn [fst snd]. split_and!; try done.
    all: split; [done|]; by intros [? ?].
Qed.

Lemma get_file_update_file_checksum fid checksum d f :
  fst <$> get_file fid d = Some f →
  get_file fid (update_file_checksum fid checksum d)
    = Some (with_checksum (Some checksum) f, get_replicas fid d).
Proof.
  intros Hd. unfold get_file in *. simpl.
  rewrite filter_fmap_stable by (intros g; by destruct (decide _)).
  destruct (filter _ (files d)) as [|g l] eqn:Hfl; [done|].
  simpl in Hd. injection Hd as ->. simpl.
  assert (f ∈ filter (λ f, f_file_id f = fid) (files d)) as Hin
    by (rewrite Hfl; left).
  apply list_elem_of_filter in Hin. destruct Hin as [Hid _].
  rewrite decide_True by done. done.
Qed.

(** X28. Confirm, then download.  Once a node has confirmed its upload of
    a known file for which it holds a replica row, the download request for
    the file is answered with 200 and offers that node; the checksum it
    reports is the stored one when there was one, else the one just
    confirmed. *)
Theorem upload_confirm_then_download (now : Z) (fid nid checksum : string)
    (d : DFSDatabase) (f : file_row) (row : replica_row) :
  fid ≠ "" → nid ≠ "" → checksum ≠ "" →
  fst <$> get_file fid d = Some f →
  row ∈ pair_rows fid nid d →
  let d' := (Naming.upload_confirm now (Some fid) (Some nid) (Some checksum) d).1 in
  ∃ info,
    Api.download_request fid d' = (200, Some info) ∧
    download_url fid row ∈ Api.di_download_urls info ∧
    Api.di_filename info = f_filename f ∧
    Api.di_checksum info
      = (if truthy (f_checksum f) then f_checksum f else Some checksum).
Proof.
  intros Hf Hn Hc Hget Hrow. cbv zeta.
  set (d1 := update_replica_status now fid nid "active" d).
  assert (Hget1 : get_file fid d1 = Some (f, get_replicas fid d1)).
  { pose proof (get_file_update_replica_status now fid fid nid "active" d) as Hsame.
    rewrite Hget in Hsame. fold d1 in Hsame.
    destruct (get_file fid d1) as [[g rs]|] eqn:Hg; [|done].
    apply get_file_Some in Hg as [_ Hrs]. simpl in *. by injection Hsame as ->; subst. }
  assert (Hurl : download_url fid row ∈ download_url fid <$> active_rows fid d1).
  { apply list_elem_of_filter in Hrow as [[Hfid Hnid] Hrow].
    apply list_elem_of_fmap. exists (set_status now "active" row). split; [done|].
    apply list_elem_of_filter. split; [done|].
    apply list_elem_of_filter. split; [done|].
    unfold d1, update_replica_status. simpl.
    apply list_elem_of_fmap. exists row. split; [|done].
    by rewrite decide_True. }
  assert (Hsome : active_rows fid d1 ≠ []).
  { intros Hnil. rewrite Hnil in Hurl. by apply elem_of_nil in Hurl. }
  unfold Naming.upload_confirm. simpl truthy.
  destruct (String.eqb_spec fid "") as [|_]; [done|].
  destruct (String.eqb_spec nid "") as [|_]; [done|].
  destruct (String.eqb_spec checksum "") as [|_]; [done|].
  cbn [negb andb].
  change (default "" (Some fid)) with fid.
  change (default "" (Some nid)) with nid.
  change (default "" (Some checksum)) with checksum.
  fold d1. rewrite Hget1. cbn [fst snd].
  destruct (truthy (f_checksum f)) eqn:Htr; cbn [negb fst snd].
  - unfold Api.download_request. rewrite Hget1. cbn [fst snd].
    destruct (active_rows fid d1) as [|r l] eqn:Hact; [done|].
    eexists. split; [done|]. simpl. done.
  - unfold Api.download_request.
    rewrite (get_file_update_file_checksum fid checksum d1 f) by (by rewrite Hget1).
    cbn [fst snd].
    destruct (active_rows fid d1) as [|r l] eqn:Hact; [done|].
    eexists. split; [done|]. simpl. done.
Qed.

(** X29. The delete handler: an unknown file is answered with 404 and
    nothing is deleted, replica rows that carry its id included; for a known
    file the file row and every replica row of the file are gone whatever the
    storage nodes answer, later reads and downloads of the file get 404, and
    the other files and the nodes are as before. *)
Theorem delete_file_handler_outcomes (fid : string) (d : DFSDatabase) :
  (fid ∉ f_file_id <$> files d → Api.delete_file fid d = (d, 404)) ∧
  (fid ∈ f_file_id <$> files d →
     let d' := (Api.delete_file fid d).1 in
     (Api.delete_file fid d).2 = 200 ∧
     get_file fid d' = None ∧
     get_replicas fid d' = [] ∧
     Api.download_request fid d' = (404, None) ∧
     (∀ other, other ≠ fid → get_file other d' = get_file other d) ∧
     storage_nodes d' = storage_nodes d).
Proof.
  unfold Api.delete_file. split.
  - intros Hnot. apply get_file_None in Hnot. by rewrite Hnot.
  - intros Hin. cbv zeta.
    destruct (get_file fid d) as [info|] eqn:Hget.
    2: { apply get_file_None in Hget. done. }
    cbn [fst snd].
    assert (Hgone : get_file fid (delete_file fid d).1 = None).
    { unfold get_file, delete_file. simpl.
      rewrite filter_none_in; [done|].
      intros x Hx. apply list_elem_of_filter in Hx as [Hx _]. done. }
    split_and!; try done.
    + unfold get_replicas, delete_file. simpl.
      apply filter_none_in. intros x Hx.
      apply list_elem_of_filter in Hx as [Hx _]. done.
    + unfold Api.download_request. by rewrite Hgone.
    + intros other Hother. unfold get_file, get_replicas, delete_file. simpl.
      rewrite !list_filter_filter.
      rewrite (filter_ext_in (λ x, f_file_id x = other ∧ f_file_id x ≠ fid)
                             (λ x, f_file_id x = other) (files d))
        by (intros x _; split; [tauto|intros <-; done]).
      rewrite (filter_ext_in (λ x, r_file_id x = other ∧ r_file_id x ≠ fid)
                             (λ x, r_file_id x = other) (replicas d))
        by (intros x _; split; [tauto|intros <-; done]).
      done.
Qed.

Lemma book_slot_fold uuid nodes acc :
  ∃ booked,
    replicas (foldl (Api.book_slot uuid) acc nodes).1 = replicas acc.1 ++ booked ∧
    files (foldl (Api.book_slot uuid) acc nodes).1 = files acc.1 ∧
    r_node_id <$> booked = n_node_id <$> nodes ∧
    Forall (λ r, r_file_id r = uuid ∧ r_status r = "pending" ∧
                 r_last_verified r = None) booked ∧
    (foldl (Api.book_slot uuid) acc nodes).2 = acc.2 ++ (upload_slot_of uuid <$> nodes).
Proof.
  revert acc. induction nodes as [|n nodes IH]; intros acc; simpl.
  - exists []. by rewrite !app_nil_r.
  - destruct (IH (Api.book_slot uuid acc n)) as (booked & Heq & Hf & Hids & Hall & Hslots).
    rewrite Heq, Hf, Hslots. unfold Api.book_slot. cbn [fst snd]. simpl.
    eexists (_ :: booked). rewrite <- !app_assoc. split; [done|].
    split_and!; try done.
    + rewrite !fmap_cons, Hids. done.
    + by constructor.
Qed.

(** X30. The upload request.  Without a file name or with a size of zero
    the answer is 400; with a name, a size and a positive replication factor
    [k]: 503 when fewer than [k] nodes are active and fresh, nothing being
    booked; else, for an id that is free and a size and a factor within 64
    bits, the file row is created without a checksum and one pending replica
    is booked on each of the [k] nodes with the most available space, the
    answer listing their upload URLs in that order.  An id that is taken, or
    a size or factor outside 64 bits, makes [create_file] raise: the answer is
    500 and nothing is booked. *)
Theorem upload_request_outcomes (now : Z) (uuid filename : string)
    (size k : Z) (d : DFSDatabase) :
  filename ≠ "" → size ≠ 0 → 0 < k →
  let nodes := (get_active_nodes now 30 d).1 in
  let answer := Api.upload_request now uuid (Some filename) (Some size) (Some k) d in
  (∀ name sz factor, truthy name = false ∨ default 0 sz = 0 →
     Api.upload_request now uuid name sz factor d = (d, (400, []))) ∧
  (Z.of_nat (length nodes) < k →
     answer.2 = (503, []) ∧
     files answer.1 = files d ∧ replicas answer.1 = replicas d) ∧
  (k ≤ Z.of_nat (length nodes) →
   uuid ∈ f_file_id <$> files d ∨ ¬ (int64 size ∧ int64 k) →
     answer.2 = (500, []) ∧
     files answer.1 = files d ∧ replicas answer.1 = replicas d) ∧
  (k ≤ Z.of_nat (length nodes) → uuid ∉ f_file_id <$> files d →
   int64 size → int64 k →
     ∃ booked,
       answer.2 = (200, upload_slot_of uuid <$> take (Z.to_nat k) nodes) ∧
       files answer.1 = files d ++ [FileRow uuid filename size None now k] ∧
       replicas answer.1 = replicas d ++ booked ∧
       r_node_id <$> booked = n_node_id <$> take (Z.to_nat k) nodes ∧
       Forall (λ r, r_file_id r = uuid ∧ r_status r = "pending" ∧
                    r_last_verified r = None) booked ∧
       length booked = Z.to_nat k).
Proof.
  intros Hname Hsize Hk. cbv zeta. split.
  { intros name sz factor Hbad. unfold Api.upload_request.
    destruct Hbad as [->| ->]; [done|].
    rewrite bool_decide_eq_true_2 by done. by rewrite orb_true_r. }
  unfold Api.upload_request, Api.select_nodes_for_upload. simpl truthy.
  destruct (String.eqb_spec filename "") as [|_]; [done|].
  cbn [negb orb].
  change (default 2 (Some k)) with k.
  change (default 0 (Some size)) with size.
  change (default "" (Some filename)) with filename.
  rewrite bool_decide_eq_false_2 by done.
  pose proof (get_active_nodes_rows now 30 d) as [Hf Hr].
  destruct (get_active_nodes now 30 d) as [nodes d1]. cbn [fst snd] in *.
  pose proof (get_active_nodes_rows now 30 d1) as [Hf1 Hr1].
  destruct (decide (Z.of_nat (length nodes) < k)) as [Hfew|Hmany].
  { cbn [fst snd]. split_and!; intros; try lia. split_and!; [done|congruence..]. }
  unfold slice_to. rewrite decide_True by lia.
  destruct (take (Z.to_nat k) nodes) as [|n ns] eqn:Htake.
  { apply (f_equal length) in Htake. rewrite length_take in Htake. simpl in Htake. lia. }
  unfold create_file. rewrite Hf.
  destruct (decide (int64 size ∧ int64 k)) as [Hfit|Hbig].
  2: { cbn [fst snd]. split_and!; [intros; lia|intros; done|intros; tauto]. }
  destruct (decide (uuid ∈ f_file_id <$> files d)) as [Hin|Hout].
  { cbn [fst snd]. split_and!; [intros; lia|intros; done|intros; done]. }
  match goal with |- context [foldl (Api.book_slot uuid) ?acc (n :: ns)] =>
    destruct (book_slot_fold uuid (n :: ns) acc)
      as (booked & Heq & Hfl & Hids & Hall & Hslots)
  end.
  destruct (foldl _ _ _) as [d2 slots]. cbn [fst snd] in *.
  split_and!; [intros; lia|intros ? [?|?]; tauto|].
  intros _ _ _ _.
  exists booked. rewrite Heq, Hfl, Hslots. simpl files. simpl replicas. rewrite Hr.
  split_and!; try done.
  apply (f_equal length) in Hids. rewrite !length_fmap in Hids.
  rewrite Hids, <- Htake, length_take. lia.
Qed.

End Handlers.
(** ** The further properties on the worked states *)

Section MoreExamples.
Import Schema.

Lemma heartbeat_known_and_unknown_witness :
  Api.heartbeat (seconds 31) (Some "n1") (2 ^ 63) 2 stale_node_db
    = (stale_node_db, 500) ∧
  Api.heartbeat (seconds 31) (Some "n9") 450 2 stale_node_db = (stale_node_db, 404) ∧
  (Api.heartbeat (seconds 31) (Some "n1") 450 2 stale_node_db).2 = 200.
Proof.
  assert (Hid9 : "n9" ≠ "") by discriminate.
  assert (Hid1 : "n1" ≠ "") by discriminate.
  split_and!.
  - apply (heartbeat_known_and_unknown (seconds 31) (seconds 31) "n1" (2 ^ 63) 2
             stale_node_db Hid1).
    compute_done.
  - apply (heartbeat_known_and_unknown (seconds 31) (seconds 31) "n9" 450 2
             stale_node_db Hid9); compute_done.
  - apply (heartbeat_known_and_unknown (seconds 31) (seconds 31) "n1" 450 2
             stale_node_db Hid1); compute_done.
Defined.

Lemma primary_keys_stay_unique_witness :
  keys_unique
    (add_replica "f1" "n1" "http://n1" "active"
       (add_replica "f1" "n1" "http://n1" "pending"
          (register_node 0 0 "n1" "http://n1" init_database)).1).1.
Proof.
  apply primary_keys_stay_unique.
  eapply rtc_r; [eapply rtc_r; [eapply rtc_r; [apply rtc_refl|]|]|].
  - apply (db_register_node 0 0 "n1" "http://n1").
  - apply (db_add_replica "f1" "n1" "http://n1" "pending").
  - apply (db_add_replica "f1" "n1" "http://n1" "active").
Defined.

Lemma upload_confirm_of_unknown_pair_witness :
  pair_rows "f1" "n2" one_replica_db = [] ∧
  (Naming.upload_confirm 2000 (Some "f1") (Some "n2") (Some "aa") one_replica_db).2
    = 200 ∧
  replicas
    (Naming.upload_confirm 2000 (Some "f1") (Some "n2") (Some "aa") one_replica_db).1
    = replicas one_replica_db.
Proof.
  split; [reflexivity|].
  assert (Hf : "f1" ≠ "") by discriminate.
  assert (Hn : "n2" ≠ "") by discriminate.
  assert (Hc : "aa" ≠ "") by discriminate.
  destruct (upload_confirm_of_unknown_pair 2000 "f1" "n2" "aa" one_replica_db
              Hf Hn Hc eq_refl) as (Hstatus & Hrows & _).
  split; [exact Hstatus|exact Hrows].
Defined.

Lemma liveness_tests_disagree_at_threshold_witness :
  let node := NodeRow "n1" "http://n1" "active" 500 1 0 0 in
  let h := Replication.new_monitor stale_node_db in
  set_node_status "inactive" node
    ∈ storage_nodes (get_active_nodes (seconds 30) 30 stale_node_db).2 ∧
  Replication.check_node (seconds 30) h node = h.
Proof.
  cbv zeta.
  destruct (liveness_tests_disagree_at_threshold (seconds 30) stale_node_db
              (NodeRow "n1" "http://n1" "active" 500 1 0 0)
              (Replication.new_monitor stale_node_db))
    as (_ & Hmarked & Hkept & _).
  - apply list_elem_of_here.
  - reflexivity.
  - reflexivity.
  - reflexivity.
  - split; [exact Hmarked|exact Hkept].
Defined.

Lemma replicate_file_needs_live_source_witness :
  let m := Replication.new_manager only_corrupted_db 2 in
  Replication._replicate_file obliging (a_listing 1 0) two_nodes m = m.
Proof.
  cbv zeta. apply replicate_file_needs_live_source.
  intros r Hr Hact. apply list_elem_of_filter in Hr as [_ Hr].
  apply list_elem_of_singleton in Hr. subst r. discriminate Hact.
Defined.


Lemma replicate_file_reaches_min_replicas_witness :
  let m := Replication.new_manager one_replica_db 2 in
  let m' := Replication._replicate_file obliging (a_listing 1 1) two_nodes m in
  active_count "f1" (Replication.db m) = 1 ∧
  2 ≤ active_count "f1" (Replication.db m').
Proof.
  cbv zeta. split; [reflexivity|].
  apply (replicate_file_reaches_min_replicas obliging (a_listing 1 1) two_nodes
           (Replication.new_manager one_replica_db 2)).
  - vm_compute. discriminate.
  - vm_compute. discriminate.
  - reflexivity.
  - repeat constructor.
Defined.

Lemma check_and_replicate_needs_enough_nodes_witness :
  let m := Replication.new_manager one_replica_db 2 in
  replicas (Replication.db (Replication._check_and_replicate obliging 0 m))
    = replicas one_replica_db ∧
  Replication.stats (Replication._check_and_replicate obliging 0 m)
    = Replication.stats m.
Proof.
  cbv zeta.
  destruct (check_and_replicate_needs_enough_nodes obliging 0
              (Replication.new_manager one_replica_db 2))
    as (Hrows & _ & Hstats).
  - vm_compute. reflexivity.
  - split; [exact Hrows|exact Hstats].
Defined.

Lemma verify_replicas_without_answers_witness :
  let m := Replication.new_manager one_replica_db 2 in
  Replication.db (Replication._verify_replicas unreachable 2000 m) = one_replica_db ∧
  Replication.stats (Replication._verify_replicas unreachable 2000 m)
    = Replication.stats m.
Proof.
  cbv zeta.
  apply (verify_replicas_without_answers unreachable 2000
           (Replication.new_manager one_replica_db 2)).
  intros url answer Hget. injection Hget as <-. discriminate.
Defined.

Lemma recovery_queue_holds_each_file_once_witness :
  let m :=
    Recovery.add_to_recovery_queue 0 "f1" "report.pdf" Recovery.IMMEDIATE 15
      (Recovery.add_to_recovery_queue 0 "f1" "report.pdf" Recovery.PRIORITY 10
         (Recovery.new_recovery_manager lost_file_db)) in
  NoDup (Recovery.queued_file_ids m) ∧
  NoDup (Recovery.recovery_queue m) ∧
  length (Recovery.queued_file_ids m) = length (Recovery.recovery_queue m).
Proof.
  cbv zeta. apply (recovery_queue_holds_each_file_once obliging lost_file_db).
  eapply rtc_r; [eapply rtc_r; [apply rtc_refl|]|].
  - apply (step_enqueue obliging 0 "f1" "report.pdf" Recovery.PRIORITY 10).
  - apply (step_enqueue obliging 0 "f1" "report.pdf" Recovery.IMMEDIATE 15).
Defined.

Lemma recovery_counters_agree_witness :
  let m :=
    Recovery._attempt_recovery obliging (seconds 400) 5 0
      (Recovery.add_to_recovery_queue 0 "f1" "report.pdf" Recovery.PRIORITY 20
         (Recovery.new_recovery_manager lost_file_db)) in
  Recovery.pending_recoveries (Recovery.stats m)
    = Z.of_nat (length (Recovery.recovery_queue m)) ∧
  Recovery.total_recoveries (Recovery.stats m)
    = Recovery.successful_recoveries (Recovery.stats m)
      + Recovery.failed_recoveries (Recovery.stats m) ∧
  Z.of_nat (length (Recovery.recovery_history m))
    = Z.min (Recovery.total_recoveries (Recovery.stats m)) 100.
Proof.
  cbv zeta.
  destruct (recovery_counters_agree obliging lost_file_db
              (Recovery._attempt_recovery obliging (seconds 400) 5 0
                 (Recovery.add_to_recovery_queue 0 "f1" "report.pdf"
                    Recovery.PRIORITY 20
                    (Recovery.new_recovery_manager lost_file_db))))
    as (Hpending & Htotal & _ & _ & Hhistory).
  - eapply rtc_r; [eapply rtc_r; [apply rtc_refl|]|].
    + apply (step_enqueue obliging 0 "f1" "report.pdf" Recovery.PRIORITY 20).
    + apply (step_attempt obliging (seconds 400) 5 0).
  - split_and!; [exact Hpending|exact Htotal|exact Hhistory].
Defined.

Lemma attempt_recovery_without_repair_witness :
  let m' := Recovery._attempt_recovery obliging (seconds 400) 5 0
              orphan_record_manager in
  Recovery.recovery_queue m' = [] ∧
  Recovery.db m' = empty_store ∧
  Recovery.failed_recoveries (Recovery.stats m') = 1.
Proof.
  cbv zeta.
  destruct (attempt_recovery_without_repair obliging (seconds 400) 5 0
              orphan_record_manager waiting_record) as [Hmissing _].
  - reflexivity.
  - reflexivity.
  - reflexivity.
  - destruct Hmissing as (_ & Hqueue & Hdb & Hfailed & _); [reflexivity|].
    split_and!; [exact Hqueue|exact Hdb|exact Hfailed].
Defined.

Lemma proactive_health_check_priorities_witness :
  let m' := Recovery._proactive_health_check 0
              (Recovery.new_recovery_manager corrupted_on_n3) in
  "f1" ∈ Recovery.queued_file_ids m' ∧ tagged "f1" 15 Recovery.IMMEDIATE m'.
Proof.
  cbv zeta.
  destruct (proactive_health_check_priorities 0
              (Recovery.new_recovery_manager corrupted_on_n3) (a_listing 3 2))
    as (_ & _ & Hcorrupted & _).
  - apply list_elem_of_here.
  - apply not_elem_of_nil.
  - apply Hcorrupted; [vm_compute; discriminate|discriminate].
Defined.

Lemma upload_confirm_then_download_witness :
  let d' := (Naming.upload_confirm 2000 (Some "f1") (Some "n1") (Some "aa")
               pending_upload_db).1 in
  ∃ info,
    Api.download_request "f1" d' = (200, Some info) ∧
    "http://n1/download/f1" ∈ Api.di_download_urls info ∧
    Api.di_checksum info = Some "aa".
Proof.
  cbv zeta.
  assert (Hf : "f1" ≠ "") by discriminate.
  assert (Hn : "n1" ≠ "") by discriminate.
  assert (Hc : "aa" ≠ "") by discriminate.
  destruct (upload_confirm_then_download 2000 "f1" "n1" "aa" pending_upload_db
              (a_file None) (a_replica 1 "n1" "pending") Hf Hn Hc eq_refl)
    as (info & Hanswer & Hurl & _ & Hsum).
  - apply list_elem_of_here.
  - exists info. split_and!; [exact Hanswer|exact Hurl|exact Hsum].
Defined.

Lemma upload_request_outcomes_witness :
  let answer := Api.upload_request 0 "f2" (Some "notes.txt") (Some 5) (Some 2)
                  empty_store in
  answer.2.1 = 200 ∧
  files answer.1 = [FileRow "f2" "notes.txt" 5 None 0 2] ∧
  length (replicas answer.1) = 2%nat.
Proof.
  cbv zeta.
  assert (Hname : "notes.txt" ≠ "") by discriminate.
  assert (Hsize : 5 ≠ 0) by discriminate.
  assert (Hk : 0 < 2) by reflexivity.
  destruct (upload_request_outcomes 0 "f2" "notes.txt" 5 2 empty_store
              Hname Hsize Hk) as (_ & _ & _ & Hbooked).
  destruct Hbooked as (booked & Hanswer & Hfiles & Hrows & _ & _ & Hlen).
  - vm_compute. discriminate.
  - apply not_elem_of_nil.
  - compute_done.
  - compute_done.
  - split_and!.
    + by rewrite Hanswer.
    + exact Hfiles.
    + rewrite Hrows. exact Hlen.
Defined.

End MoreExamples.
